(** * Audio front end and peak extractor of shazam-golang

    A shallow embedding of [pkg/audio] (PCM preprocessing, framing, the
    spectral analyzer, the RMS and energy utilities) and of the peak
    extractor of [pkg/fingerprint], with the properties the specification
    states about them.

    Modelling conventions.
    - Go's [float64] is idealised as a real number ([R]): arithmetic is
      exact and there is neither NaN nor an infinity.  [math.Abs],
      [math.Sqrt], [math.Log], [math.Cos], [math.Floor] and [cmplx.Abs]
      are the corresponding real functions.  In two places the code
      leaves what real numbers can follow, and the properties below are
      stated away from them:
      - a window of one sample makes the Hamming, Hann and Blackman
        coefficients the quotient 0/0, a NaN in Go that spreads to the
        spectrogram and is never below a threshold; whatever depends on
        the value of a coefficient assumes a window of more than one
        sample;
      - [ResampleTo] truncates a product of floats to an [int]; where
        the exact product is an integer or close to one, rounding can
        take the truncation one frame lower (49 frames from 49 Hz to
        1 Hz give 0 frames, not 1).  A property that states the frame
        count assumes a ratio and a product that [float64] holds
        exactly.
    - Go's [int] is modelled by [Z].  Every index computed below is
      bounded by the length of a slice, so no 64-bit wrap-around occurs
      on the paths that are analysed; [/] on [int] truncates toward zero
      ([Z.quot]) and panics on a zero divisor.
    - A Go function returning [(value, error)] returns a [result]; a
      run-time panic (index out of range, negative [make] length, integer
      division by zero) is the outcome [Panic].
    - A method that assigns to fields of its pointer receiver returns the
      receiver's new value next to its result.
    - [fft.FFT] (package go-dsp) and [sort.Slice] (standard library) are
      not code of this repository.  The first is modelled by the discrete
      Fourier transform it computes; the second is a parameter of the peak
      extractor, known only through its contract. *)

From Stdlib Require Import String.
From Stdlib Require Import Reals ZArith List Bool Lia Lra.
From Stdlib Require Import Permutation Sorted.
Import ListNotations.

Local Open Scope Z_scope.

(* ================================================================== *)
(** * Part I: the program *)
(* ================================================================== *)

(** ** Results, panics and slices *)

Inductive result (A : Type) : Type :=
| Ok (a : A)
| Err (msg : string)
| Panic.

Arguments Ok {A} a.
Arguments Err {A} msg.
Arguments Panic {A}.

Definition bind {A B : Type} (r : result A) (k : A -> result B) : result B :=
  match r with
  | Ok a => k a
  | Err msg => Err msg
  | Panic => Panic
  end.

Notation "x <- e ;; k" := (bind e (fun x => k))
  (at level 61, e at next level, right associativity).

(** [for _, x := range xs { ... }] collecting one value per iteration. *)
Fixpoint mapM {A B : Type} (f : A -> result B) (xs : list A) : result (list B) :=
  match xs with
  | [] => Ok []
  | x :: rest =>
      y <- f x ;;
      ys <- mapM f rest ;;
      Ok (y :: ys)
  end.

(** [len(xs)] *)
Definition len {A : Type} (xs : list A) : Z := Z.of_nat (length xs).

(** [xs[i]] as an option: [None] is the index-out-of-range panic. *)
Definition index {A : Type} (xs : list A) (i : Z) : option A :=
  if i <? 0 then None else nth_error xs (Z.to_nat i).

(** [xs[i]] *)
Definition at_ {A : Type} (xs : list A) (i : Z) : result A :=
  match index xs i with
  | Some x => Ok x
  | None => Panic
  end.

(** [xs[i] = v] *)
Fixpoint store_nat {A : Type} (xs : list A) (n : nat) (v : A) : option (list A) :=
  match xs, n with
  | [], _ => None
  | _ :: rest, O => Some (v :: rest)
  | x :: rest, S n' => option_map (cons x) (store_nat rest n' v)
  end.

Definition store {A : Type} (xs : list A) (i : Z) (v : A) : result (list A) :=
  if i <? 0 then Panic
  else match store_nat xs (Z.to_nat i) v with
       | Some ys => Ok ys
       | None => Panic
       end.

(** [xs[lo:hi]] for [hi <= len(xs)] *)
Definition slice {A : Type} (xs : list A) (lo hi : Z) : result (list A) :=
  if (lo <? 0) || (hi <? lo) || (len xs <? hi) then Panic
  else Ok (firstn (Z.to_nat (hi - lo)) (skipn (Z.to_nat lo) xs)).

(** [make([]float64, n)] *)
Definition make (n : Z) : result (list R) :=
  if n <? 0 then Panic else Ok (repeat 0%R (Z.to_nat n)).

(** The values [lo, lo+1, ..., lo+n-1] of a counting loop. *)
Fixpoint count_from (lo : Z) (n : nat) : list Z :=
  match n with
  | O => []
  | S n' => lo :: count_from (lo + 1) n'
  end.

(** [for i := lo; i <= hi; i++] *)
Definition range_incl (lo hi : Z) : list Z := count_from lo (Z.to_nat (hi - lo + 1)).

(** [for i := 0; i < n; i++] *)
Definition upto (n : Z) : list Z := count_from 0 (Z.to_nat n).

(** Comparisons of [float64] values as booleans. *)
Definition Rltb (x y : R) : bool := if Rlt_dec x y then true else false.
Definition Rgtb (x y : R) : bool := if Rgt_dec x y then true else false.
Definition Rleb (x y : R) : bool := if Rle_dec x y then true else false.
Definition Rgeb (x y : R) : bool := if Rge_dec x y then true else false.

(** [int(x)] for a float [x]: truncation toward zero. *)
Definition float_to_int (x : R) : Z :=
  if Rle_dec 0 x then Int_part x else - Int_part (- x).

(** ** package audio: the data model *)

Module AudioData.
Record t : Type := mk {
  Samples : list R;
  SampleRate : Z;
  Channels : Z;
  Duration : R
}.
End AudioData.

Module Spectrogram.
Record t : Type := mk {
  Data : list (list R);
  FreqBins : Z;
  TimeBins : Z;
  TimePoints : list R;
  FreqPoints : list R
}.
End Spectrogram.

(** ** pcm.go *)

Module PCMProcessor.
Import AudioData.

Record t : Type := mk {
  TargetSampleRate : Z;
  FrameSize : Z;
  HopSize : Z
}.

Definition NewPCMProcessor : t :=
  {| TargetSampleRate := 44100; FrameSize := 1024; HopSize := 512 |}.

(** [PCMProcessor.ConvertToMono(data)]; the receiver is not used.  The
    loop reads [data.Samples[i*2]] and [data.Samples[i*2+1]] for every
    [i] below [len(data.Samples)/2]. *)
Definition ConvertToMono (data : AudioData.t) : result AudioData.t :=
  if Channels data =? 1 then Ok data
  else if negb (Channels data =? 2) then
    Err "unsupported number of channels, only mono and stereo are supported"
  else
    monoSamples <-
      mapM (fun i =>
              left <- at_ (Samples data) (i * 2) ;;
              right <- at_ (Samples data) (i * 2 + 1) ;;
              Ok ((left + right) / 2.0)%R)
           (upto (Z.quot (len (Samples data)) 2)) ;;
    Ok {| Samples := monoSamples;
          SampleRate := SampleRate data;
          Channels := 1;
          Duration := Duration data |}.

(** The loop of [Normalize] that finds the maximum absolute value. *)
Definition maxAbsOf (samples : list R) : R :=
  fold_left (fun maxAbs sample =>
               let abs := Rabs sample in
               if Rgtb abs maxAbs then abs else maxAbs)
            samples 0%R.

(** [PCMProcessor.Normalize(data)]; the receiver is not used and the
    error is always nil. *)
Definition Normalize (data : AudioData.t) : result AudioData.t :=
  if len (Samples data) =? 0 then Ok data
  else
    let maxAbs := maxAbsOf (Samples data) in
    if Rltb maxAbs 0.001 || Rltb (Rabs (maxAbs - 1.0)) 0.001 then Ok data
    else
      let normalizedSamples := map (fun sample => (sample / maxAbs)%R) (Samples data) in
      Ok {| Samples := normalizedSamples;
            SampleRate := SampleRate data;
            Channels := Channels data;
            Duration := Duration data |}.

(** One iteration of the inner loop of [ResampleTo]: output frame [i] of
    channel [ch]. *)
Definition resampleStep (data : AudioData.t) (ratio : R) (origFrames : Z)
    (acc : result (list R)) (chi : Z * Z) : result (list R) :=
  let '(ch, i) := chi in
  resampledSamples <- acc ;;
  let origPos := (IZR i / ratio)%R in
  let idx1 := Int_part origPos in
  let idx2 := idx1 + 1 in
  let frac := (origPos - IZR idx1)%R in
  let idx1 := if idx1 >=? origFrames then origFrames - 1 else idx1 in
  let idx2 := if idx2 >=? origFrames then origFrames - 1 else idx2 in
  sample1 <- at_ (Samples data) (idx1 * Channels data + ch) ;;
  sample2 <- at_ (Samples data) (idx2 * Channels data + ch) ;;
  store resampledSamples (i * Channels data + ch)
        (sample1 * (1 - frac) + sample2 * frac)%R.

(** [PCMProcessor.ResampleTo(data, targetSampleRate)]; the receiver is
    not used.  With a zero [SampleRate] the ratio is an
    infinity and its conversion to [int] is implementation-defined: that
    case lies outside the real-number idealisation and is reported as an
    abnormal termination.  [newFrames] is the truncation of the exact
    product; Go truncates the product as rounded to [float64], which
    agrees when the ratio and the product are held exactly and can be
    one less otherwise. *)
Definition ResampleTo (data : AudioData.t) (targetSampleRate : Z) : result AudioData.t :=
  if SampleRate data =? targetSampleRate then Ok data
  else if SampleRate data =? 0 then Panic
  else
    let ratio := (IZR targetSampleRate / IZR (SampleRate data))%R in
    if Channels data =? 0 then Panic
    else
      let origFrames := Z.quot (len (Samples data)) (Channels data) in
      let newFrames := float_to_int (IZR origFrames * ratio) in
      zeros <- make (newFrames * Channels data) ;;
      resampledSamples <-
        fold_left (resampleStep data ratio origFrames)
                  (list_prod (upto (Channels data)) (upto newFrames))
                  (Ok zeros) ;;
      let newDuration := (IZR newFrames / IZR targetSampleRate)%R in
      Ok {| Samples := resampledSamples;
            SampleRate := targetSampleRate;
            Channels := Channels data;
            Duration := newDuration |}.

(** The body of the frame loop of [SegmentIntoFrames]: frame number [i].
    [copy] transfers [min(len(frame), endIdx-startIdx)] samples; the rest
    of the frame keeps the zeros of [make], which the padding loop writes
    once more. *)
Definition extractFrame (p : t) (samples : list R) (i : Z) : result (list R) :=
  let startIdx := i * HopSize p in
  let endIdx := startIdx + FrameSize p in
  let endIdx := if endIdx >? len samples then len samples else endIdx in
  frame <- make (FrameSize p) ;;
  src <- slice samples startIdx endIdx ;;
  let copied := firstn (length frame) src in
  Ok (copied ++ skipn (length copied) frame).

(** [PCMProcessor.SegmentIntoFrames(data)] *)
Definition SegmentIntoFrames (p : t) (data : AudioData.t) : result (list (list R)) :=
  if len (Samples data) <? FrameSize p then Err "audio data too short for frame size"%string
  else if HopSize p =? 0 then Panic
  else
    let numFrames := 1 + Z.quot (len (Samples data) - FrameSize p) (HopSize p) in
    if numFrames <? 0 then Panic
    else mapM (extractFrame p (Samples data)) (upto numFrames).

End PCMProcessor.

(** ** utils: RMS and energy *)

Module AudioUtils.

(** The accumulation loop shared by [CalculateRMS] and [CalculateEnergy]:
    [acc += sample * sample]. *)
Definition sumSquaresOf (samples : list R) : R :=
  fold_left (fun acc sample => (acc + sample * sample)%R) samples 0%R.

Definition CalculateRMS (samples : list R) : R :=
  if len samples =? 0 then 0%R
  else
    let sumSquares := sumSquaresOf samples in
    sqrt (sumSquares / IZR (len samples)).

Definition CalculateEnergy (samples : list R) : R :=
  if len samples =? 0 then 0%R
  else
    let energy := sumSquaresOf samples in
    energy.

(** [(samples[i-1] >= 0 && samples[i] < 0) || (samples[i-1] < 0 && samples[i] >= 0)] *)
Definition isCrossing (prev cur : R) : bool :=
  (Rgeb prev 0 && Rltb cur 0) || (Rltb prev 0 && Rgeb cur 0).

(** The loop of [CalculateZeroCrossingRate] over [i = 1 .. len-1]: the
    pairs [(samples[i-1], samples[i])] are the samples paired with
    their successors. *)
Definition countCrossings (samples : list R) : Z :=
  fold_left (fun crossings pair =>
               if isCrossing (fst pair) (snd pair) then crossings + 1 else crossings)
            (combine samples (tl samples)) 0.

Definition CalculateZeroCrossingRate (samples : list R) : R :=
  if len samples <=? 1 then 0%R
  else
    let crossings := countCrossings samples in
    (IZR crossings / IZR (len samples - 1))%R.

(** [fmt.Errorf(msg + ": %w", err)] around a failing step. *)
Definition wrapError {A : Type} (msg : string) (r : result A) : result A :=
  match r with
  | Err _ => Err msg
  | other => other
  end.

(** The steps of [LoadAndPreprocess] that follow the decoder, on the
    buffer [audioData] that [Loader.Load] has returned; the processor is
    the [PCMProcessor] of [NewAudioUtils]. *)
Definition preprocessLoaded (audioData : AudioData.t) (targetSampleRate : Z)
    (convertToMono : bool) : result AudioData.t :=
  audioData <-
    (if convertToMono && (AudioData.Channels audioData >? 1) then
       wrapError "failed to convert to mono" (PCMProcessor.ConvertToMono audioData)
     else Ok audioData) ;;
  audioData <-
    (if negb (AudioData.SampleRate audioData =? targetSampleRate) then
       wrapError "failed to resample audio"
                 (PCMProcessor.ResampleTo audioData targetSampleRate)
     else Ok audioData) ;;
  wrapError "failed to normalize audio" (PCMProcessor.Normalize audioData).

End AudioUtils.

(** ** spectral.go *)

(** [complex128] values and the operations the analyzer uses on them. *)
Module Complex.

Definition t : Type := (R * R)%type.

Definition zero : t := (0%R, 0%R).

(** [complex(val, 0)] *)
Definition ofReal (val : R) : t := (val, 0%R).

Definition add (a b : t) : t := ((fst a + fst b)%R, (snd a + snd b)%R).

Definition mul (a b : t) : t :=
  ((fst a * fst b - snd a * snd b)%R, (fst a * snd b + snd a * fst b)%R).

(** [cmplx.Abs] *)
Definition Abs (a : t) : R := sqrt (fst a * fst a + snd a * snd a).

(** [exp(-2 pi i k n / N)] *)
Definition twiddle (k n N : nat) : t :=
  let theta := (2 * PI * INR k * INR n / INR N)%R in
  (cos theta, (- sin theta)%R).

End Complex.

(** [fft.FFT] of go-dsp, by its defining sum
    [X[k] = sum over n of x[n] * exp(-2 pi i k n / N)]. *)
Module fft.

Fixpoint dftSum (xs : list Complex.t) (n k N : nat) : Complex.t :=
  match xs with
  | [] => Complex.zero
  | x :: rest =>
      Complex.add (Complex.mul x (Complex.twiddle k n N)) (dftSum rest (S n) k N)
  end.

Definition FFT (xs : list Complex.t) : list Complex.t :=
  map (fun k => dftSum xs 0 k (length xs)) (seq 0 (length xs)).

End fft.

Module SpectralAnalyzerImpl.

Record t : Type := mk {
  WindowSize : Z;
  HopSize : Z;
  SampleRate : Z;
  WindowType : string;
  MinFreq : R;
  MaxFreq : R;
  LogScaleBase : R;
  NormalizeSpec : bool;
  MelScale : bool;
  NumMelBins : Z
}.

Definition NewSpectralAnalyzer : t :=
  {| WindowSize := 1024;
     HopSize := 512;
     SampleRate := 44100;
     WindowType := "hamming";
     MinFreq := 0;
     MaxFreq := 22050;
     LogScaleBase := 10.0;
     NormalizeSpec := true;
     MelScale := false;
     NumMelBins := 128 |}.

(** [s.WindowSize = v], [s.HopSize = v], [s.SampleRate = v] *)
Definition setWindowSize (s : t) (v : Z) : t :=
  mk v (HopSize s) (SampleRate s) (WindowType s) (MinFreq s) (MaxFreq s)
     (LogScaleBase s) (NormalizeSpec s) (MelScale s) (NumMelBins s).

Definition setHopSize (s : t) (v : Z) : t :=
  mk (WindowSize s) v (SampleRate s) (WindowType s) (MinFreq s) (MaxFreq s)
     (LogScaleBase s) (NormalizeSpec s) (MelScale s) (NumMelBins s).

Definition setSampleRate (s : t) (v : Z) : t :=
  mk (WindowSize s) (HopSize s) v (WindowType s) (MinFreq s) (MaxFreq s)
     (LogScaleBase s) (NormalizeSpec s) (MelScale s) (NumMelBins s).

(** The window coefficients, for sample [i] of a frame of [n] samples.
    For [n = 1] the divisor [float64(len(frame)-1)] is zero and Go's
    coefficient is a NaN, which no real number stands for: the value
    computed here is then not the program's. *)
Definition hammingCoeff (n i : Z) : R :=
  (0.54 - 0.46 * cos (2 * PI * IZR i / IZR (n - 1)))%R.

Definition hannCoeff (n i : Z) : R :=
  (0.5 * (1 - cos (2 * PI * IZR i / IZR (n - 1))))%R.

Definition blackmanCoeff (n i : Z) : R :=
  (0.42 - 0.5 * cos (2 * PI * IZR i / IZR (n - 1))
        + 0.08 * cos (4 * PI * IZR i / IZR (n - 1)))%R.

Definition windowCoeff (windowType : string) (n i : Z) : R :=
  if String.eqb windowType "hamming" then hammingCoeff n i
  else if String.eqb windowType "hann" then hannCoeff n i
  else if String.eqb windowType "blackman" then blackmanCoeff n i
  else if String.eqb windowType "rectangular" then 1%R
  else hammingCoeff n i.

(** [windowedFrame[i] = frame[i] * windowCoeff] for [i] from [i0] on. *)
Fixpoint applyCoeffs (windowType : string) (n i0 : Z) (frame : list R) : list R :=
  match frame with
  | [] => []
  | x :: rest => (x * windowCoeff windowType n i0)%R :: applyCoeffs windowType n (i0 + 1) rest
  end.

Definition ApplyWindow (s : t) (frame : list R) : result (list R) :=
  frame <- (if negb (len frame =? WindowSize s) then
              newFrame <- make (WindowSize s) ;;
              let copied := firstn (length newFrame) frame in
              Ok (copied ++ skipn (length copied) newFrame)
            else Ok frame) ;;
  Ok (applyCoeffs (WindowType s) (len frame) 0 frame).

Definition ComputeFFT (windowedFrame : list R) : list Complex.t :=
  let complexInput := map Complex.ofReal windowedFrame in
  fft.FFT complexInput.

Definition ComputePowerSpectrum (fftResult : list Complex.t) : result (list R) :=
  let numBins := Z.quot (len fftResult) 2 + 1 in
  mapM (fun i => c <- at_ fftResult i ;; Ok (Complex.Abs c ^ 2)%R) (upto numBins).

Definition ComputeMagnitudeSpectrum (fftResult : list Complex.t) : result (list R) :=
  let numBins := Z.quot (len fftResult) 2 + 1 in
  mapM (fun i => c <- at_ fftResult i ;; Ok (Complex.Abs c)) (upto numBins).

Definition ApplyLogScale (s : t) (spectrum : list R) : list R :=
  if Rleb (LogScaleBase s) 1.0 then spectrum
  else map (fun val => (ln (val + 1e-10) / ln (LogScaleBase s))%R) spectrum.

Definition NormalizeSpectrum (spectrum : list R) : list R :=
  let maxVal := fold_left (fun maxVal val => if Rgtb val maxVal then val else maxVal)
                          spectrum 0%R in
  if Rltb maxVal 1e-10 then spectrum
  else map (fun val => (val / maxVal)%R) spectrum.

(** The body of the frame loop of [ComputeSpectrogram]. *)
Definition processFrame (s : t) (frame : list R) : result (list R) :=
  windowedFrame <- ApplyWindow s frame ;;
  let fftResult := ComputeFFT windowedFrame in
  powerSpectrum <- ComputePowerSpectrum fftResult ;;
  let powerSpectrum :=
    if Rgtb (LogScaleBase s) 1.0 then ApplyLogScale s powerSpectrum else powerSpectrum in
  let powerSpectrum :=
    if NormalizeSpec s then NormalizeSpectrum powerSpectrum else powerSpectrum in
  Ok powerSpectrum.

(** The part of [ComputeSpectrogram] that follows the assignments to
    the receiver: framing, the frame loop and the two axes, for the
    analyzer [s] as configured. *)
Definition spectrogramOf (s : t) (data : AudioData.t) : result Spectrogram.t :=
  let processor :=
    PCMProcessor.mk (PCMProcessor.TargetSampleRate PCMProcessor.NewPCMProcessor)
                    (WindowSize s) (HopSize s) in
  match PCMProcessor.SegmentIntoFrames processor data with
  | Err _ => Err "failed to segment audio into frames"
  | Panic => Panic
  | Ok frames =>
      let numFrames := len frames in
      let numBins := Z.quot (WindowSize s) 2 + 1 in
      spectrogramData <- mapM (processFrame s) frames ;;
      let timePoints :=
        map (fun i => (IZR (i * HopSize s) / IZR (SampleRate s))%R) (upto numFrames) in
      if numBins <? 0 then Panic
      else
        let freqPoints :=
          map (fun i => (IZR i * IZR (SampleRate s) / IZR (WindowSize s))%R)
              (upto numBins) in
        Ok {| Spectrogram.Data := spectrogramData;
              Spectrogram.FreqBins := numBins;
              Spectrogram.TimeBins := numFrames;
              Spectrogram.TimePoints := timePoints;
              Spectrogram.FreqPoints := freqPoints |}
  end.

(** [ComputeSpectrogram(data, windowSize, hopSize)]: the receiver after
    the call and the returned value. *)
Definition ComputeSpectrogram (s : t) (data : AudioData.t) (windowSize hopSize : Z)
  : t * result Spectrogram.t :=
  let s := if windowSize >? 0 then setWindowSize s windowSize else s in
  let s := if hopSize >? 0 then setHopSize s hopSize else s in
  if negb (AudioData.Channels data =? 1) then
    (s, Err "spectrogram computation requires mono audio")
  else
    let s := setSampleRate s (AudioData.SampleRate data) in
    (s, spectrogramOf s data).

(** [color.RGBA] *)
Record RGBA : Type := mkRGBA { red : Z; green : Z; blue : Z; alpha : Z }.

(** [uint8(x)] for an [int] [x] *)
Definition uint8 (x : Z) : Z := x mod 256.

(** The [int] components [r, g, b] that the closure [getColor] of
    [SaveSpectrogramImage] computes before it converts them. *)
Definition getColorInts (value : R) : Z * Z * Z :=
  if Rltb value 0.25 then
    let v := (value * 4)%R in
    (0, float_to_int (v * 255), 255)
  else if Rltb value 0.5 then
    let v := ((value - 0.25) * 4)%R in
    (0, 255, 255 - float_to_int (v * 255))
  else if Rltb value 0.75 then
    let v := ((value - 0.5) * 4)%R in
    (float_to_int (v * 255), 255, 0)
  else
    let v := ((value - 0.75) * 4)%R in
    (255, 255 - float_to_int (v * 255), 0).

Definition getColor (value : R) : RGBA :=
  let '(r, g, b) := getColorInts value in
  mkRGBA (uint8 r) (uint8 g) (uint8 b) 255.

(** The clamp of the pixel loop: [if value < 0 { value = 0 }; if value > 1
    { value = 1 }]. *)
Definition clampUnit (value : R) : R :=
  let value := if Rltb value 0 then 0%R else value in
  if Rgtb value 1 then 1%R else value.

(** The colour that the pixel loop of [SaveSpectrogramImage] sets at
    [(t, f)]: the value is read at the inverted frequency index. *)
Definition pixelColor (spectrogram : Spectrogram.t) (t f : Z) : result RGBA :=
  let height := Spectrogram.FreqBins spectrogram in
  frame <- at_ (Spectrogram.Data spectrogram) t ;;
  value <- at_ frame (height - f - 1) ;;
  Ok (getColor (clampUnit value)).

End SpectralAnalyzerImpl.

(** ** package fingerprint: the peak extractor *)

Module Peak.
Record t : Type := mk {
  TimeIndex : Z;
  FreqIndex : Z;
  Time : R;
  Frequency : R;
  Amplitude : R;
  IsLocalMaxima : bool
}.
End Peak.

Module PeakExtractor.
Import Spectrogram.

Record t : Type := mk {
  NeighborhoodSize : Z;
  AbsoluteThreshold : R;
  RelativeThreshold : R;
  MaxPeaksPerFrame : Z;
  MinFrequency : R;
  MaxFrequency : R
}.

Definition NewPeakExtractor : t :=
  {| NeighborhoodSize := 3;
     AbsoluteThreshold := 0.01;
     RelativeThreshold := 0.1;
     MaxPeaksPerFrame := 5;
     MinFrequency := 100.0;
     MaxFrequency := 4000.0 |}.

(** The two nested loops that find the global maximum amplitude,
    starting from [maxAmplitude := 0.0]. *)
Definition maxAmplitudeOf (data : list (list R)) : R :=
  fold_left
    (fun maxAmplitude frame =>
       fold_left (fun maxAmplitude amplitude =>
                    if Rgtb amplitude maxAmplitude then amplitude else maxAmplitude)
                 frame maxAmplitude)
    data 0%R.

Definition effectiveThresholdOf (p : t) (maxAmplitude : R) : R :=
  let effectiveThreshold := AbsoluteThreshold p in
  let relativeThresholdValue := (maxAmplitude * RelativeThreshold p)%R in
  if Rgtb relativeThresholdValue effectiveThreshold then relativeThresholdValue
  else effectiveThreshold.

(** The loop over [FreqPoints] that finds [minFreqIndex] and
    [maxFreqIndex], from bin [i] on; it stops at the first bin above
    [MaxFrequency]. *)
Fixpoint freqIndexLoop (p : t) (freqPoints : list R) (i minFreqIndex maxFreqIndex : Z)
  : Z * Z :=
  match freqPoints with
  | [] => (minFreqIndex, maxFreqIndex)
  | freq :: rest =>
      let minFreqIndex :=
        if Rgeb freq (MinFrequency p) && (minFreqIndex =? 0) then i else minFreqIndex in
      if Rgtb freq (MaxFrequency p) then (minFreqIndex, i - 1)
      else freqIndexLoop p rest (i + 1) minFreqIndex maxFreqIndex
  end.

Definition freqIndices (p : t) (spectrogram : Spectrogram.t) : Z * Z :=
  freqIndexLoop p (FreqPoints spectrogram) 0 0 (len (FreqPoints spectrogram) - 1).

(** [spectrogram.Data[t][f]] *)
Definition cell (spectrogram : Spectrogram.t) (t f : Z) : result R :=
  frame <- at_ (Data spectrogram) t ;;
  at_ frame f.

(** [nt >= 0 && nt < TimeBins && nf >= 0 && nf < FreqBins] *)
Definition inBounds (spectrogram : Spectrogram.t) (nt nf : Z) : bool :=
  (nt >=? 0) && (nt <? TimeBins spectrogram) && (nf >=? 0) && (nf <? FreqBins spectrogram).

(** The neighbourhood scan of cell [(t, f)] over the offsets [(dt, df)]
    still to visit, in the order of the two loops; it stops at the first
    neighbour with a higher amplitude. *)
Fixpoint scanNeighbors (spectrogram : Spectrogram.t) (t f : Z) (amplitude : R)
    (offsets : list (Z * Z)) : result bool :=
  match offsets with
  | [] => Ok true
  | (dt, df) :: rest =>
      if (dt =? 0) && (df =? 0) then scanNeighbors spectrogram t f amplitude rest
      else
        let nt := t + dt in
        let nf := f + df in
        if inBounds spectrogram nt nf then
          neighbor <- cell spectrogram nt nf ;;
          if Rgtb neighbor amplitude then Ok false
          else scanNeighbors spectrogram t f amplitude rest
        else scanNeighbors spectrogram t f amplitude rest
  end.

Definition neighborhood (p : t) : list (Z * Z) :=
  list_prod (range_incl (- NeighborhoodSize p) (NeighborhoodSize p))
            (range_incl (- NeighborhoodSize p) (NeighborhoodSize p)).

Definition isLocalMax (p : t) (spectrogram : Spectrogram.t) (t f : Z) (amplitude : R)
  : result bool :=
  scanNeighbors spectrogram t f amplitude (neighborhood p).

(** The loop over the frequency bins [fs] of frame [t]: the peaks
    appended to [framePeaks]. *)
Fixpoint scanBins (p : t) (spectrogram : Spectrogram.t) (effectiveThreshold : R)
    (t : Z) (fs : list Z) : result (list Peak.t) :=
  match fs with
  | [] => Ok []
  | f :: rest =>
      amplitude <- cell spectrogram t f ;;
      if Rltb amplitude effectiveThreshold then
        scanBins p spectrogram effectiveThreshold t rest
      else
        isMax <- isLocalMax p spectrogram t f amplitude ;;
        if isMax then
          time <- at_ (TimePoints spectrogram) t ;;
          frequency <- at_ (FreqPoints spectrogram) f ;;
          let peak := Peak.mk t f time frequency amplitude true in
          more <- scanBins p spectrogram effectiveThreshold t rest ;;
          Ok (peak :: more)
        else scanBins p spectrogram effectiveThreshold t rest
  end.

(** The surviving candidates of frame [t], before sorting and capping. *)
Definition frameCandidates (p : t) (spectrogram : Spectrogram.t) (t : Z)
  : result (list Peak.t) :=
  let effectiveThreshold := effectiveThresholdOf p (maxAmplitudeOf (Data spectrogram)) in
  let '(minFreqIndex, maxFreqIndex) := freqIndices p spectrogram in
  scanBins p spectrogram effectiveThreshold t (range_incl minFreqIndex maxFreqIndex).

(** The comparison handed to [sort.Slice]. *)
Definition byAmplitudeDesc (a b : Peak.t) : bool :=
  Rgtb (Peak.Amplitude a) (Peak.Amplitude b).

Section WithSort.

(** [sort.Slice(xs, less)], as a function from the slice before to the
    slice after. *)
Variable sortSlice : (Peak.t -> Peak.t -> bool) -> list Peak.t -> list Peak.t.

(** Sorting and capping of one frame's peaks: what the frame adds to
    [allPeaks]. *)
Definition capFrame (p : t) (framePeaks : list Peak.t) : result (list Peak.t) :=
  if len framePeaks >? 0 then
    let framePeaks := sortSlice byAmplitudeDesc framePeaks in
    if len framePeaks >? MaxPeaksPerFrame p then slice framePeaks 0 (MaxPeaksPerFrame p)
    else Ok framePeaks
  else Ok [].

(** The loop over the time frames [ts]. *)
Fixpoint frameLoop (p : t) (spectrogram : Spectrogram.t) (ts : list Z)
  : result (list Peak.t) :=
  match ts with
  | [] => Ok []
  | t :: rest =>
      framePeaks <- frameCandidates p spectrogram t ;;
      kept <- capFrame p framePeaks ;;
      more <- frameLoop p spectrogram rest ;;
      Ok (kept ++ more)
  end.

(** [ExtractPeaks(spectrogram)]; [None] is the nil pointer. *)
Definition ExtractPeaks (p : t) (spectrogram : option Spectrogram.t)
  : result (list Peak.t) :=
  match spectrogram with
  | None => Err "invalid spectrogram data"
  | Some spectrogram =>
      match Data spectrogram with
      | [] => Err "invalid spectrogram data"
      | [] :: _ => Err "invalid spectrogram data"
      | _ => frameLoop p spectrogram (upto (TimeBins spectrogram))
      end
  end.

End WithSort.

(** The dynamic types that an entry of the options map
    ([map[string]interface{}]) can hold. *)
Inductive Value : Type :=
| VFloat64 (v : R)
| VInt (v : Z)
| VString (v : string)
| VBool (v : bool).

(** The options map, read only: [None] is a missing key. *)
Definition Options : Type := string -> option Value.

(** [options[key].(float64)]: the value and the [ok] flag, as an
    option. *)
Definition asFloat64 (options : Options) (key : string) : option R :=
  match options key with
  | Some (VFloat64 v) => Some v
  | _ => None
  end.

(** [has && peak.X < bound] *)
Definition below (bound : option R) (x : R) : bool :=
  match bound with
  | Some b => Rltb x b
  | None => false
  end.

(** [has && peak.X > bound] *)
Definition above (bound : option R) (x : R) : bool :=
  match bound with
  | Some b => Rgtb x b
  | None => false
  end.

(** The body of the loop of [FilterPeaks]: [filtered] after [peak]. *)
Definition filterStep (minFreq maxFreq ampThreshold minTime maxTime : option R)
    (filtered : list Peak.t) (peak : Peak.t) : list Peak.t :=
  if below minFreq (Peak.Frequency peak) then filtered
  else if above maxFreq (Peak.Frequency peak) then filtered
  else if below ampThreshold (Peak.Amplitude peak) then filtered
  else if below minTime (Peak.Time peak) then filtered
  else if above maxTime (Peak.Time peak) then filtered
  else filtered ++ [peak].

(** [FilterPeaks(peaks, options)]; the receiver is not used. *)
Definition FilterPeaks (peaks : list Peak.t) (options : Options) : list Peak.t :=
  if len peaks =? 0 then peaks
  else
    let minFreq := asFloat64 options "min_frequency" in
    let maxFreq := asFloat64 options "max_frequency" in
    let ampThreshold := asFloat64 options "amplitude_threshold" in
    let minTime := asFloat64 options "min_time" in
    let maxTime := asFloat64 options "max_time" in
    fold_left (filterStep minFreq maxFreq ampThreshold minTime maxTime) peaks [].

(** An insertion sort, one implementation of [sort.Slice]; it is used to
    run [ExtractPeaks] on concrete spectrograms. *)
Fixpoint insertBy (less : Peak.t -> Peak.t -> bool) (x : Peak.t) (xs : list Peak.t)
  : list Peak.t :=
  match xs with
  | [] => [x]
  | y :: rest => if less y x then y :: insertBy less x rest else x :: xs
  end.

Definition insertionSort (less : Peak.t -> Peak.t -> bool) (xs : list Peak.t)
  : list Peak.t :=
  fold_right (insertBy less) [] xs.

End PeakExtractor.

(** ** Specification-side definitions *)

(** The words of the specification, [M = max |s|]: the largest absolute
    value of a sample ([0] for an empty buffer). *)
Definition maxAbsSpec (samples : list R) : R :=
  fold_right (fun s m => Rmax (Rabs s) m) 0%R samples.

(** [preprocess] restricted to its two fixed-point passes: resampling to
    a rate, then normalization. *)
Definition resampleThenNormalize (rate : Z) (x : AudioData.t) : result AudioData.t :=
  y <- PCMProcessor.ResampleTo x rate ;;
  PCMProcessor.Normalize y.


(** The contract of [sort.Slice] for the comparison the extractor hands
    to it: the slice afterwards is a rearrangement of the slice before,
    and no element is [less] than an element that precedes it. *)
Definition sortSliceContract
    (sortSlice : (Peak.t -> Peak.t -> bool) -> list Peak.t -> list Peak.t) : Prop :=
  forall xs,
    Permutation xs (sortSlice PeakExtractor.byAmplitudeDesc xs) /\
    StronglySorted (fun a b => PeakExtractor.byAmplitudeDesc b a = false)
                   (sortSlice PeakExtractor.byAmplitudeDesc xs).

(** The peaks of a result that belong to time frame [t]. *)
Definition peaksOfFrame (t : Z) (peaks : list Peak.t) : list Peak.t :=
  filter (fun q => Peak.TimeIndex q =? t) peaks.

(** What holds of every peak that the scan of frame [t] appends. *)
Definition candidateOf (p : PeakExtractor.t) (sg : Spectrogram.t) (thr : R) (t : Z)
    (fs : list Z) (q : Peak.t) : Prop :=
  Peak.TimeIndex q = t /\
  In (Peak.FreqIndex q) fs /\
  PeakExtractor.cell sg t (Peak.FreqIndex q) = Ok (Peak.Amplitude q) /\
  Rltb (Peak.Amplitude q) thr = false /\
  PeakExtractor.isLocalMax p sg t (Peak.FreqIndex q) (Peak.Amplitude q) = Ok true /\
  index (Spectrogram.TimePoints sg) t = Some (Peak.Time q) /\
  index (Spectrogram.FreqPoints sg) (Peak.FreqIndex q) = Some (Peak.Frequency q).

(** The analyzer that a call of [ComputeSpectrogram] leaves behind. *)
Definition receiverAfter (s : SpectralAnalyzerImpl.t) (data : AudioData.t)
    (windowSize hopSize : Z) : SpectralAnalyzerImpl.t :=
  fst (SpectralAnalyzerImpl.ComputeSpectrogram s data windowSize hopSize).

(** A peak meets every bound that the options give as a [float64]. *)
Definition withinOptions (options : PeakExtractor.Options) (q : Peak.t) : Prop :=
  (forall v, PeakExtractor.asFloat64 options "min_frequency" = Some v ->
             (v <= Peak.Frequency q)%R) /\
  (forall v, PeakExtractor.asFloat64 options "max_frequency" = Some v ->
             (Peak.Frequency q <= v)%R) /\
  (forall v, PeakExtractor.asFloat64 options "amplitude_threshold" = Some v ->
             (v <= Peak.Amplitude q)%R) /\
  (forall v, PeakExtractor.asFloat64 options "min_time" = Some v ->
             (v <= Peak.Time q)%R) /\
  (forall v, PeakExtractor.asFloat64 options "max_time" = Some v ->
             (Peak.Time q <= v)%R).

(** The test that the loop of [FilterPeaks] applies to one peak. *)
Definition keptBy (options : PeakExtractor.Options) (q : Peak.t) : bool :=
  negb (PeakExtractor.below (PeakExtractor.asFloat64 options "min_frequency")
                            (Peak.Frequency q)) &&
  negb (PeakExtractor.above (PeakExtractor.asFloat64 options "max_frequency")
                            (Peak.Frequency q)) &&
  negb (PeakExtractor.below (PeakExtractor.asFloat64 options "amplitude_threshold")
                            (Peak.Amplitude q)) &&
  negb (PeakExtractor.below (PeakExtractor.asFloat64 options "min_time") (Peak.Time q)) &&
  negb (PeakExtractor.above (PeakExtractor.asFloat64 options "max_time") (Peak.Time q)).

(** An options map that asks for at least 100 Hz with an [int], and for
    an amplitude of at least 4 with a [float64]. *)
Definition mixedOptions : PeakExtractor.Options :=
  fun key =>
    if String.eqb key "min_frequency" then Some (PeakExtractor.VInt 100)
    else if String.eqb key "amplitude_threshold" then Some (PeakExtractor.VFloat64 4)
    else None.

(** A spectrogram whose fields agree: [Data] has [TimeBins] rows of
    [FreqBins] values, the two axes have one entry per bin, and there
    is at least one frame and one bin. *)
Definition wellFormed (sg : Spectrogram.t) : Prop :=
  0 < Spectrogram.TimeBins sg /\
  0 < Spectrogram.FreqBins sg /\
  len (Spectrogram.Data sg) = Spectrogram.TimeBins sg /\
  Forall (fun row => len row = Spectrogram.FreqBins sg) (Spectrogram.Data sg) /\
  len (Spectrogram.TimePoints sg) = Spectrogram.TimeBins sg /\
  len (Spectrogram.FreqPoints sg) = Spectrogram.FreqBins sg.

(** ** Concrete inputs *)

(** A quarter-amplitude mono buffer of two samples. *)
Definition quietClip : AudioData.t :=
  AudioData.mk [0.25%R; (-0.5)%R] 44100 1 1%R.

(** A stereo buffer at 22050 Hz. *)
Definition stereoClip : AudioData.t :=
  AudioData.mk [0%R; 0%R] 22050 2 1%R.

(** One window of digital silence at 44100 Hz, mono. *)
Definition silence : AudioData.t :=
  AudioData.mk (repeat 0%R 1024) 44100 1 (1024 / 44100)%R.

(** One frame of three bins at 0, 100 and 200 Hz, loudest in the
    middle. *)
Definition threeBins : Spectrogram.t :=
  Spectrogram.mk [[1%R; 5%R; 1%R]] 3 1 [0%R] [0%R; 100%R; 200%R].

(** The same grid, loudest in bin 0. *)
Definition loudBinZero : Spectrogram.t :=
  Spectrogram.mk [[5%R; 1%R; 1%R]] 3 1 [0%R] [0%R; 100%R; 200%R].

(** The same grid with every bin far below the default absolute
    threshold. *)
Definition faintBins : Spectrogram.t :=
  Spectrogram.mk [[0.001%R; 0.002%R; 0.001%R]] 3 1 [0%R] [0%R; 100%R; 200%R].

(** The default extractor with the band opened down to 0 Hz. *)
Definition fromZeroHz : PeakExtractor.t :=
  PeakExtractor.mk 3 0.01 0.1 5 0 4000.0.

(** One frame whose bins at 100 and 200 Hz both survive as candidates
    when the neighbourhood has radius 0. *)
Definition twoCandidates : Spectrogram.t :=
  Spectrogram.mk [[0%R; 3%R; 7%R]] 3 1 [0%R] [0%R; 100%R; 200%R].

(** An extractor that compares no neighbours and keeps one peak per
    frame. *)
Definition keepOne : PeakExtractor.t :=
  PeakExtractor.mk 0 0.01 0.1 1 100.0 4000.0.

(** The default analyzer with logarithmic scaling switched off. *)
Definition linearAnalyzer : SpectralAnalyzerImpl.t :=
  SpectralAnalyzerImpl.mk 1024 512 44100 "hamming" 0 22050 0 true false 128.

(** A sample of digital silence. *)
Definition isZero (v : R) : Prop := v = 0%R.

(* ================================================================== *)
(** * Part II: properties *)
(* ================================================================== *)

(** ** Comparisons *)

Lemma Rltb_true (x y : R) : (x < y)%R -> Rltb x y = true.
Proof. intros H. unfold Rltb. destruct (Rlt_dec x y); [reflexivity | contradiction]. Qed.

Lemma Rltb_false (x y : R) : (y <= x)%R -> Rltb x y = false.
Proof. intros H. unfold Rltb. destruct (Rlt_dec x y); [lra | reflexivity]. Qed.

Lemma Rgtb_true (x y : R) : (y < x)%R -> Rgtb x y = true.
Proof. intros H. unfold Rgtb. destruct (Rgt_dec x y); [reflexivity | lra]. Qed.

Lemma Rgtb_false (x y : R) : (x <= y)%R -> Rgtb x y = false.
Proof. intros H. unfold Rgtb. destruct (Rgt_dec x y); [lra | reflexivity]. Qed.

Lemma Rleb_true (x y : R) : (x <= y)%R -> Rleb x y = true.
Proof. intros H. unfold Rleb. destruct (Rle_dec x y); [reflexivity | contradiction]. Qed.

Lemma Rleb_false (x y : R) : (y < x)%R -> Rleb x y = false.
Proof. intros H. unfold Rleb. destruct (Rle_dec x y); [lra | reflexivity]. Qed.

Lemma Rgeb_true (x y : R) : (y <= x)%R -> Rgeb x y = true.
Proof. intros H. unfold Rgeb. destruct (Rge_dec x y); [reflexivity | lra]. Qed.

Lemma Rgeb_false (x y : R) : (x < y)%R -> Rgeb x y = false.
Proof. intros H. unfold Rgeb. destruct (Rge_dec x y); [lra | reflexivity]. Qed.

Lemma Rgtb_spec (x y : R) : Rgtb x y = true <-> (y < x)%R.
Proof. unfold Rgtb. destruct (Rgt_dec x y); split; intros; try reflexivity; try discriminate; lra. Qed.

(** The update step of every running-maximum loop of the program is
    [Rmax]. *)
Lemma running_max_step (m v : R) : (if Rgtb v m then v else m) = Rmax m v.
Proof.
  unfold Rgtb, Rmax. destruct (Rgt_dec v m), (Rle_dec m v); try reflexivity; lra.
Qed.

(** Decides the comparisons of a goal on concrete reals. *)
Ltac decide_cmp :=
  repeat match goal with
  | |- context [Rltb ?a ?b] =>
      first [rewrite (Rltb_true a b) by lra | rewrite (Rltb_false a b) by lra]
  | |- context [Rgtb ?a ?b] =>
      first [rewrite (Rgtb_true a b) by lra | rewrite (Rgtb_false a b) by lra]
  | |- context [Rleb ?a ?b] =>
      first [rewrite (Rleb_true a b) by lra | rewrite (Rleb_false a b) by lra]
  | |- context [Rgeb ?a ?b] =>
      first [rewrite (Rgeb_true a b) by lra | rewrite (Rgeb_false a b) by lra]
  end.

(** ** Slices and counting loops *)

Lemma len_nonneg {A : Type} (xs : list A) : 0 <= len xs.
Proof. unfold len. lia. Qed.

Lemma len_map {A B : Type} (f : A -> B) (xs : list A) : len (map f xs) = len xs.
Proof. unfold len. now rewrite length_map. Qed.

Lemma len_zero_nil {A : Type} (xs : list A) : (len xs =? 0) = true -> xs = [].
Proof.
  intros H. apply Z.eqb_eq in H. destruct xs; [reflexivity|].
  unfold len in H. simpl length in H. lia.
Qed.

Lemma count_from_length (lo : Z) (n : nat) : length (count_from lo n) = n.
Proof. revert lo. induction n as [|n IH]; intros lo; simpl; [reflexivity | now rewrite IH]. Qed.

Lemma count_from_nth (n : nat) : forall (lo : Z) (k : nat),
  (k < n)%nat -> nth_error (count_from lo n) k = Some (lo + Z.of_nat k).
Proof.
  induction n as [|n IH]; intros lo k Hk; [lia|].
  destruct k as [|k]; simpl.
  - f_equal. lia.
  - rewrite IH by lia. f_equal. lia.
Qed.

Lemma count_from_In (n : nat) : forall (lo i : Z),
  In i (count_from lo n) <-> lo <= i < lo + Z.of_nat n.
Proof.
  induction n as [|n IH]; intros lo i; simpl.
  - split; [contradiction | lia].
  - rewrite IH. lia.
Qed.

Lemma upto_In (n i : Z) : In i (upto n) <-> 0 <= i < n.
Proof. unfold upto. rewrite count_from_In. lia. Qed.

Lemma upto_len (n : Z) : 0 <= n -> len (upto n) = n.
Proof. intros H. unfold len, upto. rewrite count_from_length. lia. Qed.

Lemma range_incl_In (lo hi i : Z) : In i (range_incl lo hi) <-> lo <= i <= hi.
Proof. unfold range_incl. rewrite count_from_In. lia. Qed.

Lemma index_Some_In {A : Type} (xs : list A) (i : Z) (x : A) :
  index xs i = Some x -> In x xs.
Proof.
  unfold index. destruct (i <? 0); [discriminate|]. apply nth_error_In.
Qed.

Lemma index_Some_range {A : Type} (xs : list A) (i : Z) (x : A) :
  index xs i = Some x -> 0 <= i < len xs.
Proof.
  unfold index, len. destruct (Z.ltb_spec i 0); [discriminate|].
  intros H1. assert (Hn : nth_error xs (Z.to_nat i) <> None) by congruence.
  apply nth_error_Some in Hn. lia.
Qed.

Lemma index_in_range {A : Type} (xs : list A) (i : Z) :
  0 <= i < len xs -> exists x, index xs i = Some x.
Proof.
  unfold index, len. intros H. destruct (Z.ltb_spec i 0); [lia|].
  destruct (nth_error xs (Z.to_nat i)) eqn:E; [eauto|].
  apply nth_error_None in E. lia.
Qed.

Lemma index_map {A B : Type} (f : A -> B) (xs : list A) (i : Z) :
  index (map f xs) i = option_map f (index xs i).
Proof. unfold index. destruct (i <? 0); [reflexivity | apply nth_error_map]. Qed.

Lemma index_upto (n i : Z) : 0 <= i < n -> index (upto n) i = Some i.
Proof.
  intros H. unfold index, upto. destruct (Z.ltb_spec i 0); [lia|].
  rewrite count_from_nth by lia. f_equal. lia.
Qed.

Lemma at_Ok {A : Type} (xs : list A) (i : Z) (x : A) :
  at_ xs i = Ok x <-> index xs i = Some x.
Proof.
  unfold at_. destruct (index xs i); split; intros H; try discriminate; congruence.
Qed.

(** ** The error monad *)

Lemma bind_Ok {A B : Type} (r : result A) (k : A -> result B) (b : B) :
  bind r k = Ok b -> exists a, r = Ok a /\ k a = Ok b.
Proof. destruct r; simpl; intros H; try discriminate. eauto. Qed.

Lemma mapM_Ok {A B : Type} (f : A -> result B) (xs : list A) (ys : list B) :
  mapM f xs = Ok ys -> Forall2 (fun x y => f x = Ok y) xs ys.
Proof.
  revert ys. induction xs as [|x xs IH]; simpl; intros ys H.
  - injection H as <-. constructor.
  - apply bind_Ok in H as (y & Hy & H). apply bind_Ok in H as (ys' & Hys & H).
    injection H as <-. constructor; auto.
Qed.

Lemma mapM_total {A B : Type} (f : A -> result B) (g : A -> B) (xs : list A) :
  (forall x, In x xs -> f x = Ok (g x)) -> mapM f xs = Ok (map g xs).
Proof.
  induction xs as [|x xs IH]; simpl; intros H; [reflexivity|].
  rewrite (H x) by auto. simpl. rewrite IH by auto. reflexivity.
Qed.

(** ** RMS and energy *)

(** C10: for a non-empty sample slice, [CalculateRMS] is the square root
    of [CalculateEnergy] divided by the number of samples; for the empty
    slice both functions return 0. *)
Theorem CalculateRMS_CalculateEnergy :
  (forall (s0 : R) (rest : list R),
      let samples := s0 :: rest in
      AudioUtils.CalculateRMS samples
      = sqrt (AudioUtils.CalculateEnergy samples / IZR (len samples))) /\
  AudioUtils.CalculateRMS [] = 0%R /\
  AudioUtils.CalculateEnergy [] = 0%R.
Proof.
  split; [|split; reflexivity].
  intros s0 rest samples.
  unfold AudioUtils.CalculateRMS, AudioUtils.CalculateEnergy.
  assert (Hlen : (len samples =? 0) = false).
  { apply Z.eqb_neq. unfold len, samples. simpl length. lia. }
  rewrite Hlen. reflexivity.
Qed.

(** ** Normalize *)

Lemma Rmax_assoc_step (a b c : R) : Rmax (Rmax a b) c = Rmax a (Rmax b c).
Proof. unfold Rmax. repeat destruct (Rle_dec _ _); lra. Qed.

(** The loop of [Normalize] computes the maximum of the specification. *)
Lemma maxAbsOf_fold (samples : list R) : forall a : R,
  (0 <= a)%R ->
  fold_left (fun maxAbs sample =>
               let abs := Rabs sample in
               if Rgtb abs maxAbs then abs else maxAbs) samples a
  = Rmax a (maxAbsSpec samples).
Proof.
  induction samples as [|s samples IH]; intros a Ha; simpl.
  - unfold Rmax. destruct (Rle_dec a 0); lra.
  - rewrite running_max_step, IH.
    + apply Rmax_assoc_step.
    + pose proof (Rabs_pos s). unfold Rmax. destruct (Rle_dec a (Rabs s)); lra.
Qed.

Lemma maxAbsSpec_nonneg (samples : list R) : (0 <= maxAbsSpec samples)%R.
Proof.
  induction samples as [|s samples IH]; simpl; [lra|].
  unfold Rmax. destruct (Rle_dec _ _); [assumption | apply Rabs_pos].
Qed.

Lemma maxAbsOf_spec (samples : list R) :
  PCMProcessor.maxAbsOf samples = maxAbsSpec samples.
Proof.
  unfold PCMProcessor.maxAbsOf. rewrite maxAbsOf_fold by lra.
  pose proof (maxAbsSpec_nonneg samples). unfold Rmax.
  destruct (Rle_dec 0 (maxAbsSpec samples)); lra.
Qed.

(** [maxAbsSpec] is an upper bound of the absolute values, and it is
    attained on a non-empty buffer. *)
Lemma maxAbsSpec_upper (samples : list R) (s : R) :
  In s samples -> (Rabs s <= maxAbsSpec samples)%R.
Proof.
  induction samples as [|s0 samples IH]; simpl; [contradiction|].
  intros [<- | H].
  - apply Rmax_l.
  - eapply Rle_trans; [apply IH, H | apply Rmax_r].
Qed.

Lemma maxAbsSpec_attained (samples : list R) :
  samples <> [] -> exists s, In s samples /\ Rabs s = maxAbsSpec samples.
Proof.
  induction samples as [|s0 samples IH]; [congruence|]. intros _. simpl.
  destruct samples as [|s1 samples].
  - exists s0. split; [auto|]. simpl. pose proof (Rabs_pos s0).
    unfold Rmax. destruct (Rle_dec (Rabs s0) 0); lra.
  - destruct IH as (s & Hin & Hs); [congruence|].
    unfold Rmax at 1. destruct (Rle_dec _ _).
    + exists s. auto.
    + exists s0. auto.
Qed.

Lemma maxAbsSpec_scale (samples : list R) (M : R) :
  (0 < M)%R ->
  maxAbsSpec (map (fun sample => (sample / M)%R) samples) = (maxAbsSpec samples / M)%R.
Proof.
  intros HM. induction samples as [|s samples IH]; simpl.
  - unfold Rdiv. ring.
  - rewrite IH. unfold Rdiv at 1. rewrite Rabs_mult, (Rabs_pos_eq (/ M)).
    + assert (Hinv : (0 < / M)%R) by now apply Rinv_0_lt_compat.
      unfold Rmax, Rdiv.
      destruct (Rle_dec (Rabs s * / M) (maxAbsSpec samples * / M)),
               (Rle_dec (Rabs s) (maxAbsSpec samples)); try reflexivity; nra.
    + left. now apply Rinv_0_lt_compat.
Qed.

(** C7: with [M] the maximum absolute sample, [Normalize] returns its
    argument when [M < 1e-3] or [|M - 1| < 1e-3]; otherwise it returns a
    buffer whose i-th sample is [s[i] / M] for every index [i] and whose
    sample rate, channel count and duration are those of the argument. *)
Theorem Normalize_spec (x : AudioData.t) :
  let M := maxAbsSpec (AudioData.Samples x) in
  ((M < 0.001)%R \/ (Rabs (M - 1) < 0.001)%R -> PCMProcessor.Normalize x = Ok x) /\
  (~ ((M < 0.001)%R \/ (Rabs (M - 1) < 0.001)%R) ->
   exists y,
     PCMProcessor.Normalize x = Ok y /\
     len (AudioData.Samples y) = len (AudioData.Samples x) /\
     (forall i, index (AudioData.Samples y) i
                = option_map (fun s => (s / M)%R) (index (AudioData.Samples x) i)) /\
     AudioData.SampleRate y = AudioData.SampleRate x /\
     AudioData.Channels y = AudioData.Channels x /\
     AudioData.Duration y = AudioData.Duration x).
Proof.
  intros M. unfold PCMProcessor.Normalize. rewrite maxAbsOf_spec. fold M.
  replace (M - 1.0)%R with (M - 1)%R by lra.
  split.
  - intros H. destruct (len (AudioData.Samples x) =? 0); [reflexivity|].
    destruct H as [H | H].
    + rewrite (Rltb_true _ _ H). reflexivity.
    + rewrite (Rltb_true _ _ H). now rewrite orb_true_r.
  - intros H. destruct (len (AudioData.Samples x) =? 0) eqn:Hlen.
    + apply len_zero_nil in Hlen. exfalso. apply H. left.
      subst M. rewrite Hlen. simpl. lra.
    + rewrite !Rltb_false by lra. simpl.
      eexists. split; [reflexivity|]. simpl.
      repeat split; [apply len_map | intros i; apply index_map].
Qed.

(** A run of C7's second case: the loudest sample of [quietClip] has
    absolute value 0.5, so both samples are divided by 0.5. *)
Lemma Normalize_spec_witness :
  PCMProcessor.Normalize quietClip
  = Ok (AudioData.mk [(0.25 / 0.5)%R; (-0.5 / 0.5)%R] 44100 1 1%R).
Proof.
  assert (HM : maxAbsSpec (AudioData.Samples quietClip) = 0.5%R).
  { simpl. rewrite (Rabs_pos_eq 0.25) by lra. rewrite (Rabs_left (-0.5)) by lra.
    unfold Rmax. repeat destruct (Rle_dec _ _); lra. }
  destruct (proj2 (Normalize_spec quietClip)) as (y & Hy & _).
  - rewrite HM. intros [H | H]; [lra|]. revert H.
    rewrite Rabs_left by lra. lra.
  - rewrite Hy. f_equal.
    unfold PCMProcessor.Normalize in Hy. rewrite maxAbsOf_spec, HM in Hy.
    simpl in Hy. rewrite !Rltb_false in Hy.
    + simpl in Hy. injection Hy as <-. reflexivity.
    + rewrite Rabs_left by lra. lra.
    + lra.
Defined.

Lemma Normalize_fixed_point (x y : AudioData.t) :
  PCMProcessor.Normalize x = Ok y -> PCMProcessor.Normalize y = Ok y.
Proof.
  unfold PCMProcessor.Normalize at 1.
  destruct (len (AudioData.Samples x) =? 0) eqn:Hlen.
  { intros H. injection H as <-. unfold PCMProcessor.Normalize. now rewrite Hlen. }
  rewrite maxAbsOf_spec. set (M := maxAbsSpec (AudioData.Samples x)).
  destruct (Rltb M 0.001 || Rltb (Rabs (M - 1.0)) 0.001) eqn:Hclose.
  { intros H. injection H as <-. unfold PCMProcessor.Normalize.
    rewrite Hlen, maxAbsOf_spec. fold M. now rewrite Hclose. }
  intros H. injection H as <-.
  apply orb_false_elim in Hclose as [Hsmall _].
  assert (HM : (0.001 <= M)%R).
  { destruct (Rlt_dec M 0.001) as [Hlt|Hge]; [|lra].
    rewrite (Rltb_true _ _ Hlt) in Hsmall. discriminate. }
  unfold PCMProcessor.Normalize. cbn [AudioData.Samples].
  rewrite len_map, Hlen, maxAbsOf_spec, maxAbsSpec_scale by lra. fold M.
  replace (M / M)%R with 1%R by (field; lra).
  rewrite (Rltb_true (Rabs (1 - 1.0)) 0.001).
  - now rewrite orb_true_r.
  - replace (1 - 1.0)%R with 0%R by lra. rewrite Rabs_R0. lra.
Qed.

Lemma Normalize_total (x : AudioData.t) :
  exists y, PCMProcessor.Normalize x = Ok y /\
            AudioData.SampleRate y = AudioData.SampleRate x.
Proof.
  unfold PCMProcessor.Normalize.
  destruct (len (AudioData.Samples x) =? 0); [eauto|].
  destruct (_ || _); eauto.
Qed.

(** C5: [Normalize] is idempotent, and [ResampleTo] at the buffer's own
    sample rate returns the buffer unchanged. *)
Theorem Normalize_idempotent_ResampleTo_same_rate (x : AudioData.t) :
  (y <- PCMProcessor.Normalize x ;; PCMProcessor.Normalize y) = PCMProcessor.Normalize x /\
  PCMProcessor.ResampleTo x (AudioData.SampleRate x) = Ok x.
Proof.
  split.
  - destruct (PCMProcessor.Normalize x) as [y| |] eqn:Hy; simpl; try reflexivity.
    exact (Normalize_fixed_point x y Hy).
  - unfold PCMProcessor.ResampleTo. now rewrite Z.eqb_refl.
Qed.

Lemma ResampleTo_rate (x y : AudioData.t) (rate : Z) :
  PCMProcessor.ResampleTo x rate = Ok y -> AudioData.SampleRate y = rate.
Proof.
  unfold PCMProcessor.ResampleTo.
  destruct (Z.eqb_spec (AudioData.SampleRate x) rate) as [Heq|Hne].
  { intros H. injection H as <-. exact Heq. }
  destruct (AudioData.SampleRate x =? 0); [discriminate|].
  destruct (AudioData.Channels x =? 0); [discriminate|].
  intros H. apply bind_Ok in H as (zeros & _ & H).
  apply bind_Ok in H as (out & _ & H). injection H as <-. reflexivity.
Qed.

(** The idempotence of the specification's [preprocess], for its
    resampling and normalization passes: a second application changes
    nothing. *)
Corollary resampleThenNormalize_idempotent (rate : Z) (x : AudioData.t) :
  (y <- resampleThenNormalize rate x ;; resampleThenNormalize rate y)
  = resampleThenNormalize rate x.
Proof.
  unfold resampleThenNormalize.
  destruct (PCMProcessor.ResampleTo x rate) as [y| |] eqn:Hy; simpl; try reflexivity.
  destruct (Normalize_total y) as (z & Hz & Hrate).
  rewrite Hz. simpl.
  apply ResampleTo_rate in Hy.
  unfold PCMProcessor.ResampleTo. rewrite Hrate, Hy, Z.eqb_refl. simpl.
  exact (Normalize_fixed_point y z Hz).
Qed.

(** ** The receiver of ComputeSpectrogram *)

(** C9, as the code has it: after any call, [WindowSize] equals a
    positive [windowSize] argument and [HopSize] a positive [hopSize]
    argument, also when the call fails; [SampleRate] is taken from the
    buffer when the buffer is mono, and is left as it was when the call
    rejects a buffer that is not mono. *)
Theorem ComputeSpectrogram_mutates_receiver (s : SpectralAnalyzerImpl.t)
    (data : AudioData.t) (windowSize hopSize : Z) :
  let s' := fst (SpectralAnalyzerImpl.ComputeSpectrogram s data windowSize hopSize) in
  (0 < windowSize -> SpectralAnalyzerImpl.WindowSize s' = windowSize) /\
  (0 < hopSize -> SpectralAnalyzerImpl.HopSize s' = hopSize) /\
  (AudioData.Channels data = 1 ->
   SpectralAnalyzerImpl.SampleRate s' = AudioData.SampleRate data) /\
  (AudioData.Channels data <> 1 ->
   SpectralAnalyzerImpl.SampleRate s' = SpectralAnalyzerImpl.SampleRate s).
Proof.
  intros s'. subst s'. unfold SpectralAnalyzerImpl.ComputeSpectrogram.
  destruct (Z.gtb_spec windowSize 0), (Z.gtb_spec hopSize 0),
    (Z.eqb_spec (AudioData.Channels data) 1);
    simpl; repeat split; intros; try reflexivity; try lia; try contradiction.
Qed.

(** C9 on a mono buffer: all three fields are overwritten. *)
Lemma ComputeSpectrogram_mutates_receiver_witness :
  let s' := fst (SpectralAnalyzerImpl.ComputeSpectrogram
                   SpectralAnalyzerImpl.NewSpectralAnalyzer
                   (AudioData.mk [0%R; 0%R] 22050 1 1%R) 2 1) in
  SpectralAnalyzerImpl.WindowSize s' = 2 /\
  SpectralAnalyzerImpl.HopSize s' = 1 /\
  SpectralAnalyzerImpl.SampleRate s' = 22050.
Proof.
  intros s'.
  pose proof (ComputeSpectrogram_mutates_receiver
                SpectralAnalyzerImpl.NewSpectralAnalyzer
                (AudioData.mk [0%R; 0%R] 22050 1 1%R) 2 1) as (Hw & Hh & Hr & _).
  split; [apply Hw; lia | split; [apply Hh; lia | apply Hr; reflexivity]].
Defined.

(** C9 as first stated fails on a buffer that is not mono: the call
    returns its error before the assignment to [SampleRate], which keeps
    the analyzer's 44100 instead of the buffer's 22050. *)
Lemma ComputeSpectrogram_stereo_keeps_SampleRate :
  let s' := fst (SpectralAnalyzerImpl.ComputeSpectrogram
                   SpectralAnalyzerImpl.NewSpectralAnalyzer stereoClip 1024 512) in
  SpectralAnalyzerImpl.WindowSize s' = 1024 /\
  SpectralAnalyzerImpl.SampleRate s' = 44100 /\
  SpectralAnalyzerImpl.SampleRate s' <> AudioData.SampleRate stereoClip.
Proof.
  simpl. repeat split. discriminate.
Qed.

(** ** Framing *)

Lemma index_firstn_skipn {A : Type} (xs : list A) (start n j : Z) :
  0 <= start -> 0 <= j < n ->
  index (firstn (Z.to_nat n) (skipn (Z.to_nat start) xs)) j = index xs (start + j).
Proof.
  intros Hs Hj. unfold index.
  destruct (Z.ltb_spec j 0); [lia|]. destruct (Z.ltb_spec (start + j) 0); [lia|].
  rewrite nth_error_firstn.
  destruct (Nat.ltb_spec (Z.to_nat j) (Z.to_nat n)); [|lia].
  rewrite nth_error_skipn. f_equal. lia.
Qed.

Lemma frame_index_bound (N W H i : Z) :
  0 < H -> W <= N -> 0 <= i < 1 + (N - W) / H -> 0 <= i * H /\ i * H + W <= N.
Proof.
  intros HH HW Hi.
  pose proof (Z.mul_div_le (N - W) H HH).
  split; nia.
Qed.

(** Frame [i] of a buffer that is long enough is the slice of [FrameSize]
    samples that starts at sample [i * HopSize]. *)
Lemma extractFrame_in_range (p : PCMProcessor.t) (samples : list R) (i : Z) :
  0 <= PCMProcessor.FrameSize p ->
  0 <= i * PCMProcessor.HopSize p ->
  i * PCMProcessor.HopSize p + PCMProcessor.FrameSize p <= len samples ->
  PCMProcessor.extractFrame p samples i
  = Ok (firstn (Z.to_nat (PCMProcessor.FrameSize p))
               (skipn (Z.to_nat (i * PCMProcessor.HopSize p)) samples)).
Proof.
  intros HW Hs He. unfold PCMProcessor.extractFrame.
  set (W := PCMProcessor.FrameSize p) in *. set (start := i * PCMProcessor.HopSize p) in *.
  destruct (Z.gtb_spec (start + W) (len samples)); [lia|].
  unfold make. destruct (Z.ltb_spec W 0); [lia|]. simpl.
  unfold slice.
  destruct (Z.ltb_spec start 0); [lia|].
  destruct (Z.ltb_spec (start + W) start); [lia|].
  destruct (Z.ltb_spec (len samples) (start + W)); [lia|]. simpl.
  replace (start + W - start) with W by lia.
  set (src := firstn (Z.to_nat W) (skipn (Z.to_nat start) samples)).
  assert (Hsrc : length src = Z.to_nat W).
  { unfold src. rewrite length_firstn, length_skipn. unfold len in He. lia. }
  rewrite repeat_length.
  rewrite (firstn_all2 (n := Z.to_nat W) src) by lia.
  rewrite Hsrc, skipn_all2 by (rewrite repeat_length; lia).
  now rewrite app_nil_r.
Qed.

Lemma Forall2_length_len {A B : Type} (P : A -> B -> Prop) (xs : list A) (ys : list B) :
  Forall2 P xs ys -> len ys = len xs.
Proof. intros H. unfold len. now rewrite (Forall2_length H). Qed.

Lemma Forall2_index {A B : Type} (P : A -> B -> Prop) (xs : list A) (ys : list B) (i : Z)
    (x : A) :
  Forall2 P xs ys -> index xs i = Some x -> exists y, index ys i = Some y /\ P x y.
Proof.
  unfold index. destruct (i <? 0); [discriminate|].
  generalize (Z.to_nat i) as n. intros n H. revert n.
  induction H as [|x0 y0 xs ys Hxy H IH]; intros [|n]; simpl; try discriminate.
  - intros E. injection E as <-. eauto.
  - apply IH.
Qed.

(** A buffer of at least [W] samples is cut into [1 + (N - W) / H]
    frames of [W] samples; frame [i] starts at sample [i * H]. *)
Lemma SegmentIntoFrames_long (p : PCMProcessor.t) (data : AudioData.t) :
  let N := len (AudioData.Samples data) in
  let W := PCMProcessor.FrameSize p in
  let H := PCMProcessor.HopSize p in
  0 <= W -> 0 < H -> W <= N ->
  exists frames,
    PCMProcessor.SegmentIntoFrames p data = Ok frames /\
    len frames = 1 + (N - W) / H /\
    forall i, 0 <= i < len frames ->
      exists frame,
        index frames i = Some frame /\
        len frame = W /\
        forall j, 0 <= j < W ->
          index frame j
          = Some (match index (AudioData.Samples data) (i * H + j) with
                  | Some v => v
                  | None => 0%R
                  end).
Proof.
  intros N W H HW HH Hlong. unfold PCMProcessor.SegmentIntoFrames. fold N W H.
  destruct (Z.ltb_spec N W); [lia|].
  destruct (Z.eqb_spec H 0); [lia|].
  rewrite Z.quot_div_nonneg by lia.
  assert (Hq : 0 <= (N - W) / H) by (apply Z.div_pos; lia).
  destruct (Z.ltb_spec (1 + (N - W) / H) 0); [lia|].
  set (frameAt := fun i : Z =>
         firstn (Z.to_nat W) (skipn (Z.to_nat (i * H)) (AudioData.Samples data))).
  assert (Hall : forall i, In i (upto (1 + (N - W) / H)) ->
            PCMProcessor.extractFrame p (AudioData.Samples data) i = Ok (frameAt i)).
  { intros i Hi. apply upto_In in Hi.
    destruct (frame_index_bound N W H i HH Hlong Hi).
    apply extractFrame_in_range; assumption. }
  rewrite (mapM_total _ frameAt _ Hall).
  eexists. split; [reflexivity|].
  rewrite len_map, upto_len by lia. split; [reflexivity|].
  intros i Hi. exists (frameAt i). split.
  - rewrite index_map, index_upto by lia. reflexivity.
  - destruct (frame_index_bound N W H i HH Hlong Hi) as [Hs He].
    split.
    + unfold len, frameAt. rewrite length_firstn, length_skipn.
      unfold N, len in He. lia.
    + intros j Hj. unfold frameAt. rewrite index_firstn_skipn by lia.
      destruct (index_in_range (AudioData.Samples data) (i * H + j)) as (v & Hv).
      { fold N. lia. }
      now rewrite Hv.
Qed.

(** C6: for a frame size [W >= 0] and a hop [H > 0],
    [SegmentIntoFrames] returns its error exactly when the buffer has
    fewer than [W] samples; otherwise it returns [1 + (N - W) / H]
    frames (floor division), each of length [W], and sample [j] of frame
    [i] is sample [i * H + j] of the buffer, or zero past its end. *)
Theorem SegmentIntoFrames_spec (p : PCMProcessor.t) (data : AudioData.t) :
  let N := len (AudioData.Samples data) in
  let W := PCMProcessor.FrameSize p in
  let H := PCMProcessor.HopSize p in
  0 <= W -> 0 < H ->
  (N < W <-> exists msg, PCMProcessor.SegmentIntoFrames p data = Err msg) /\
  (W <= N ->
   exists frames,
     PCMProcessor.SegmentIntoFrames p data = Ok frames /\
     len frames = 1 + (N - W) / H /\
     forall i, 0 <= i < len frames ->
       exists frame,
         index frames i = Some frame /\
         len frame = W /\
         forall j, 0 <= j < W ->
           index frame j
           = Some (match index (AudioData.Samples data) (i * H + j) with
                   | Some v => v
                   | None => 0%R
                   end)).
Proof.
  intros N W H HW HH. split; [split|].
  - intros Hshort. unfold PCMProcessor.SegmentIntoFrames. fold N W.
    destruct (Z.ltb_spec N W); [eauto | lia].
  - intros (msg & Hmsg). destruct (Z.lt_ge_cases N W) as [Hlt|Hge]; [exact Hlt|].
    destruct (SegmentIntoFrames_long p data HW HH Hge) as (frames & Hok & _).
    congruence.
  - apply SegmentIntoFrames_long; assumption.
Qed.

(** C6 on [quietClip] (two samples), with frames of one sample and a hop
    of one sample: two frames. *)
Lemma SegmentIntoFrames_spec_witness :
  exists frames,
    PCMProcessor.SegmentIntoFrames (PCMProcessor.mk 44100 1 1) quietClip = Ok frames /\
    len frames = 2.
Proof.
  destruct (SegmentIntoFrames_spec (PCMProcessor.mk 44100 1 1) quietClip)
    as [_ Hlong]; [simpl; lia | simpl; lia |].
  destruct Hlong as (frames & Hok & Hlen & _); [unfold len; simpl; lia|].
  exists frames. split; [exact Hok|]. rewrite Hlen. reflexivity.
Defined.

(** ** The spectrogram *)

Lemma In_index {A : Type} (xs : list A) (x : A) :
  In x xs -> exists i, index xs i = Some x /\ 0 <= i < len xs.
Proof.
  intros H. apply In_nth_error in H as (n & Hn).
  assert (Hlt : (n < length xs)%nat) by (apply nth_error_Some; congruence).
  exists (Z.of_nat n). unfold index, len.
  destruct (Z.ltb_spec (Z.of_nat n) 0); [lia|].
  rewrite Nat2Z.id. split; [assumption | lia].
Qed.

Lemma mapM_exists {A B : Type} (f : A -> result B) (xs : list A) :
  (forall x, In x xs -> exists y, f x = Ok y) -> exists ys, mapM f xs = Ok ys.
Proof.
  induction xs as [|x xs IH]; simpl; intros H; [eauto|].
  destruct (H x) as (y & Hy); [auto|]. rewrite Hy. simpl.
  destruct IH as (ys & Hys); [auto|]. rewrite Hys. simpl. eauto.
Qed.

Lemma Forall2_In_r {A B : Type} (P : A -> B -> Prop) (xs : list A) (ys : list B) (y : B) :
  Forall2 P xs ys -> In y ys -> exists x, In x xs /\ P x y.
Proof.
  induction 1 as [|x0 y0 xs ys Hxy H IH]; simpl; [contradiction|].
  intros [<- | Hin]; [eauto|]. destruct (IH Hin) as (x & Hx & HP). eauto.
Qed.

Lemma applyCoeffs_length (windowType : string) (n : Z) (frame : list R) :
  forall i0, length (SpectralAnalyzerImpl.applyCoeffs windowType n i0 frame) = length frame.
Proof. induction frame as [|x frame IH]; intros i0; simpl; [reflexivity | now rewrite IH]. Qed.

Lemma ApplyWindow_full_frame (s : SpectralAnalyzerImpl.t) (frame : list R) :
  len frame = SpectralAnalyzerImpl.WindowSize s ->
  SpectralAnalyzerImpl.ApplyWindow s frame
  = Ok (SpectralAnalyzerImpl.applyCoeffs (SpectralAnalyzerImpl.WindowType s)
          (len frame) 0 frame).
Proof.
  intros H. unfold SpectralAnalyzerImpl.ApplyWindow.
  rewrite H, Z.eqb_refl. simpl. now rewrite H.
Qed.

Lemma ComputeFFT_length (windowedFrame : list R) :
  length (SpectralAnalyzerImpl.ComputeFFT windowedFrame) = length windowedFrame.
Proof.
  unfold SpectralAnalyzerImpl.ComputeFFT, fft.FFT.
  now rewrite length_map, length_seq, length_map.
Qed.

(** A non-empty FFT result has a power spectrum of [len/2 + 1] bins. *)
Lemma ComputePowerSpectrum_total (fftResult : list Complex.t) :
  0 < len fftResult ->
  exists spectrum,
    SpectralAnalyzerImpl.ComputePowerSpectrum fftResult = Ok spectrum /\
    len spectrum = len fftResult / 2 + 1.
Proof.
  intros Hpos. unfold SpectralAnalyzerImpl.ComputePowerSpectrum.
  pose proof (len_nonneg fftResult).
  rewrite Z.quot_div_nonneg by lia.
  assert (Hhalf : 0 <= len fftResult / 2 < len fftResult).
  { split; [apply Z.div_pos; lia | apply Z.div_lt; lia]. }
  destruct (mapM_exists
              (fun i => c <- at_ fftResult i ;; Ok (Complex.Abs c ^ 2)%R)
              (upto (len fftResult / 2 + 1))) as (spectrum & Hs).
  - intros i Hi. apply upto_In in Hi.
    destruct (index_in_range fftResult i) as (c & Hc); [lia|].
    apply at_Ok in Hc. rewrite Hc. simpl. eauto.
  - exists spectrum. split; [exact Hs|].
    apply mapM_Ok in Hs. rewrite (Forall2_length_len _ _ _ Hs).
    apply upto_len. lia.
Qed.

Lemma ApplyLogScale_length (s : SpectralAnalyzerImpl.t) (spectrum : list R) :
  len (SpectralAnalyzerImpl.ApplyLogScale s spectrum) = len spectrum.
Proof.
  unfold SpectralAnalyzerImpl.ApplyLogScale. destruct (Rleb _ _); [reflexivity | apply len_map].
Qed.

Lemma NormalizeSpectrum_length (spectrum : list R) :
  len (SpectralAnalyzerImpl.NormalizeSpectrum spectrum) = len spectrum.
Proof.
  unfold SpectralAnalyzerImpl.NormalizeSpectrum. destruct (Rltb _ _); [reflexivity | apply len_map].
Qed.

Lemma processFrame_total (s : SpectralAnalyzerImpl.t) (frame : list R) :
  0 < SpectralAnalyzerImpl.WindowSize s ->
  len frame = SpectralAnalyzerImpl.WindowSize s ->
  exists row,
    SpectralAnalyzerImpl.processFrame s frame = Ok row /\
    len row = SpectralAnalyzerImpl.WindowSize s / 2 + 1.
Proof.
  intros Hpos Hlen. unfold SpectralAnalyzerImpl.processFrame.
  rewrite ApplyWindow_full_frame by assumption. simpl.
  set (windowed := SpectralAnalyzerImpl.applyCoeffs _ _ _ _).
  assert (Hfft : len (SpectralAnalyzerImpl.ComputeFFT windowed)
                 = SpectralAnalyzerImpl.WindowSize s).
  { unfold len. rewrite ComputeFFT_length. unfold windowed.
    rewrite applyCoeffs_length. exact Hlen. }
  destruct (ComputePowerSpectrum_total (SpectralAnalyzerImpl.ComputeFFT windowed))
    as (spectrum & Hs & Hslen); [lia|].
  rewrite Hs. simpl. eexists. split; [reflexivity|].
  rewrite Hfft in Hslen.
  destruct (SpectralAnalyzerImpl.NormalizeSpec s), (Rgtb _ _);
    rewrite ?NormalizeSpectrum_length, ?ApplyLogScale_length; exact Hslen.
Qed.

(** A call on a mono buffer runs the rest of the method on the
    analyzer it leaves behind. *)
Lemma ComputeSpectrogram_mono (s : SpectralAnalyzerImpl.t) (data : AudioData.t)
    (windowSize hopSize : Z) :
  AudioData.Channels data = 1 ->
  SpectralAnalyzerImpl.ComputeSpectrogram s data windowSize hopSize
  = (receiverAfter s data windowSize hopSize,
     SpectralAnalyzerImpl.spectrogramOf (receiverAfter s data windowSize hopSize) data).
Proof.
  intros Hmono. unfold receiverAfter, SpectralAnalyzerImpl.ComputeSpectrogram.
  rewrite Hmono. reflexivity.
Qed.

Lemma receiverAfter_mono (s : SpectralAnalyzerImpl.t) (data : AudioData.t) (W H : Z) :
  AudioData.Channels data = 1 -> 0 < W -> 0 < H ->
  let s' := receiverAfter s data W H in
  SpectralAnalyzerImpl.WindowSize s' = W /\
  SpectralAnalyzerImpl.HopSize s' = H /\
  SpectralAnalyzerImpl.SampleRate s' = AudioData.SampleRate data /\
  SpectralAnalyzerImpl.LogScaleBase s' = SpectralAnalyzerImpl.LogScaleBase s /\
  SpectralAnalyzerImpl.NormalizeSpec s' = SpectralAnalyzerImpl.NormalizeSpec s.
Proof.
  intros Hmono HW HH.
  unfold receiverAfter, SpectralAnalyzerImpl.ComputeSpectrogram. rewrite Hmono. simpl.
  destruct (Z.gtb_spec W 0); [|lia]. destruct (Z.gtb_spec H 0); [|lia].
  simpl. repeat split.
Qed.

(** The shape of a successful call, in terms of the analyzer [s'] that
    the call leaves behind. *)
Lemma ComputeSpectrogram_Ok_shape (s : SpectralAnalyzerImpl.t) (data : AudioData.t)
    (windowSize hopSize : Z) (sg : Spectrogram.t) :
  snd (SpectralAnalyzerImpl.ComputeSpectrogram s data windowSize hopSize) = Ok sg ->
  let s' := receiverAfter s data windowSize hopSize in
  exists frames,
    PCMProcessor.SegmentIntoFrames
      (PCMProcessor.mk 44100 (SpectralAnalyzerImpl.WindowSize s')
                       (SpectralAnalyzerImpl.HopSize s')) data = Ok frames /\
    mapM (SpectralAnalyzerImpl.processFrame s') frames = Ok (Spectrogram.Data sg) /\
    Spectrogram.TimeBins sg = len frames /\
    Spectrogram.FreqBins sg = Z.quot (SpectralAnalyzerImpl.WindowSize s') 2 + 1 /\
    0 <= Spectrogram.FreqBins sg /\
    Spectrogram.TimePoints sg
    = map (fun i => (IZR (i * SpectralAnalyzerImpl.HopSize s')
                     / IZR (SpectralAnalyzerImpl.SampleRate s'))%R) (upto (len frames)) /\
    Spectrogram.FreqPoints sg
    = map (fun i => (IZR i * IZR (SpectralAnalyzerImpl.SampleRate s')
                     / IZR (SpectralAnalyzerImpl.WindowSize s'))%R)
          (upto (Spectrogram.FreqBins sg)).
Proof.
  unfold receiverAfter, SpectralAnalyzerImpl.ComputeSpectrogram.
  destruct (negb (AudioData.Channels data =? 1)); [discriminate|].
  cbn [fst snd]. set (s' := SpectralAnalyzerImpl.setSampleRate _ _).
  unfold SpectralAnalyzerImpl.spectrogramOf.
  cbn [PCMProcessor.TargetSampleRate PCMProcessor.NewPCMProcessor].
  intros H.
  destruct (PCMProcessor.SegmentIntoFrames _ data) as [frames| |]; try discriminate.
  exists frames. split; [reflexivity|].
  apply bind_Ok in H as (rows & Hrows & H).
  destruct (Z.ltb_spec (Z.quot (SpectralAnalyzerImpl.WindowSize s') 2 + 1) 0);
    [discriminate|].
  injection H as <-. simpl. repeat split; assumption.
Qed.

(** A call on a mono buffer of at least [W] samples, with positive [W]
    and [H]: the frames, the rows computed from them and the value
    returned. *)
Lemma ComputeSpectrogram_mono_run (s : SpectralAnalyzerImpl.t) (data : AudioData.t)
    (W H : Z) :
  let N := len (AudioData.Samples data) in
  let rate := AudioData.SampleRate data in
  let s' := receiverAfter s data W H in
  AudioData.Channels data = 1 -> 0 < W -> 0 < H -> W <= N ->
  exists frames rows,
    PCMProcessor.SegmentIntoFrames (PCMProcessor.mk 44100 W H) data = Ok frames /\
    len frames = 1 + (N - W) / H /\
    Forall2 (fun frame row => SpectralAnalyzerImpl.processFrame s' frame = Ok row /\
                              len frame = W /\ len row = W / 2 + 1) frames rows /\
    snd (SpectralAnalyzerImpl.ComputeSpectrogram s data W H)
    = Ok (Spectrogram.mk rows (W / 2 + 1) (len frames)
            (map (fun i => (IZR (i * H) / IZR rate)%R) (upto (len frames)))
            (map (fun i => (IZR i * IZR rate / IZR W)%R) (upto (W / 2 + 1)))).
Proof.
  intros N rate s' Hmono HW HH HN.
  destruct (receiverAfter_mono s data W H Hmono HW HH) as (HcW & HcH & HcR & _).
  fold s' in HcW, HcH, HcR.
  destruct (SegmentIntoFrames_long (PCMProcessor.mk 44100 W H) data)
    as (frames & Hframes & Hlen & Hfr); [simpl; lia | simpl; lia | simpl; fold N; lia |].
  cbn [PCMProcessor.FrameSize PCMProcessor.HopSize] in Hlen, Hfr. fold N in Hlen.
  assert (Hframe : forall frame, In frame frames ->
            len frame = W /\
            exists row, SpectralAnalyzerImpl.processFrame s' frame = Ok row /\
                        len row = W / 2 + 1).
  { intros frame Hin. apply In_index in Hin as (i & Hi & Hr).
    destruct (Hfr i Hr) as (frame' & Hi' & Hl & _).
    rewrite Hi in Hi'. injection Hi' as <-. split; [exact Hl|].
    destruct (processFrame_total s' frame) as (row & Hrow & Hrl); [lia | lia |].
    rewrite HcW in Hrl. eauto. }
  destruct (mapM_exists (SpectralAnalyzerImpl.processFrame s') frames) as (rows & Hrows).
  { intros frame Hin. destruct (Hframe frame Hin) as (_ & row & Hrow & _). eauto. }
  assert (Hq : Z.quot W 2 = W / 2) by (apply Z.quot_div_nonneg; lia).
  assert (Hbins : 0 <= W / 2) by (apply Z.div_pos; lia).
  exists frames, rows. repeat split.
  - exact Hframes.
  - exact Hlen.
  - pose proof (mapM_Ok _ _ _ Hrows) as Hfa. clear - Hfa Hframe.
    induction Hfa as [|frame row frames rows Hrow Hfa IH]; constructor.
    + destruct (Hframe frame) as (Hl & row' & Hrow' & Hrl); [now left|].
      repeat split; try assumption. congruence.
    + apply IH. intros f Hf. apply Hframe. now right.
  - rewrite (ComputeSpectrogram_mono s data W H Hmono). fold s'. cbn [snd].
    unfold SpectralAnalyzerImpl.spectrogramOf.
    cbn [PCMProcessor.TargetSampleRate PCMProcessor.NewPCMProcessor].
    rewrite HcW, HcH, HcR, Hframes, Hrows, Hq. cbn [bind].
    destruct (Z.ltb_spec (W / 2 + 1) 0); [lia | reflexivity].
Qed.

(** C4: for a mono buffer of [N >= W] samples and positive [W] and [H],
    [ComputeSpectrogram(data, W, H)] returns a spectrogram with
    [TimeBins = 1 + (N - W) / H] (floor division) and
    [FreqBins = W / 2 + 1]; [Data] has [TimeBins] rows of [FreqBins]
    values, [TimePoints] has [TimeBins] entries with
    [TimePoints[t] = t * H / sample_rate], and [FreqPoints] has [FreqBins]
    entries with [FreqPoints[k] = k * sample_rate / W]. *)
Theorem ComputeSpectrogram_dimensions (s : SpectralAnalyzerImpl.t) (data : AudioData.t)
    (W H : Z) :
  let N := len (AudioData.Samples data) in
  let rate := AudioData.SampleRate data in
  AudioData.Channels data = 1 -> 0 < W -> 0 < H -> W <= N ->
  exists sg,
    snd (SpectralAnalyzerImpl.ComputeSpectrogram s data W H) = Ok sg /\
    Spectrogram.TimeBins sg = 1 + (N - W) / H /\
    Spectrogram.FreqBins sg = W / 2 + 1 /\
    len (Spectrogram.Data sg) = Spectrogram.TimeBins sg /\
    (forall row, In row (Spectrogram.Data sg) -> len row = Spectrogram.FreqBins sg) /\
    len (Spectrogram.TimePoints sg) = Spectrogram.TimeBins sg /\
    len (Spectrogram.FreqPoints sg) = Spectrogram.FreqBins sg /\
    (forall t, 0 <= t < Spectrogram.TimeBins sg ->
       index (Spectrogram.TimePoints sg) t = Some (IZR t * IZR H / IZR rate)%R) /\
    (forall k, 0 <= k < Spectrogram.FreqBins sg ->
       index (Spectrogram.FreqPoints sg) k = Some (IZR k * IZR rate / IZR W)%R).
Proof.
  intros N rate Hmono HW HH HN.
  destruct (ComputeSpectrogram_mono_run s data W H Hmono HW HH HN)
    as (frames & rows & _ & Hlen & Hfa & Hcall).
  fold N in Hlen.
  eexists. split; [exact Hcall|]. cbn [Spectrogram.TimeBins Spectrogram.FreqBins
    Spectrogram.Data Spectrogram.TimePoints Spectrogram.FreqPoints].
  assert (Hbins : 0 <= W / 2) by (apply Z.div_pos; lia).
  assert (Hq0 : 0 <= (N - W) / H) by (apply Z.div_pos; lia).
  repeat split.
  - exact Hlen.
  - apply (Forall2_length_len _ _ _ Hfa).
  - intros row Hin. destruct (Forall2_In_r _ _ _ _ Hfa Hin) as (frame & _ & _ & _ & Hrl).
    exact Hrl.
  - rewrite len_map. apply upto_len. lia.
  - rewrite len_map. apply upto_len. lia.
  - intros t Ht. rewrite index_map, index_upto by lia. simpl.
    now rewrite mult_IZR.
  - intros k Hk. rewrite index_map, index_upto by lia. reflexivity.
Qed.

(** C4 on one window of silence: one frame and 513 bins. *)
Lemma ComputeSpectrogram_dimensions_witness :
  exists sg,
    snd (SpectralAnalyzerImpl.ComputeSpectrogram
           SpectralAnalyzerImpl.NewSpectralAnalyzer silence 1024 512) = Ok sg /\
    Spectrogram.TimeBins sg = 1 /\
    Spectrogram.FreqBins sg = 513.
Proof.
  assert (HN : len (AudioData.Samples silence) = 1024).
  { unfold len, silence. cbn [AudioData.Samples]. now rewrite repeat_length. }
  destruct (ComputeSpectrogram_dimensions
              SpectralAnalyzerImpl.NewSpectralAnalyzer silence 1024 512)
    as (sg & Hok & Ht & Hf & _); [reflexivity | lia | lia | rewrite HN; lia |].
  exists sg. rewrite Ht, Hf, HN. repeat split; assumption || reflexivity.
Defined.

(** ** The sign of the spectrogram's values *)

Lemma receiverAfter_scaling (s : SpectralAnalyzerImpl.t) (data : AudioData.t) (W H : Z) :
  let s' := receiverAfter s data W H in
  SpectralAnalyzerImpl.LogScaleBase s' = SpectralAnalyzerImpl.LogScaleBase s /\
  SpectralAnalyzerImpl.NormalizeSpec s' = SpectralAnalyzerImpl.NormalizeSpec s.
Proof.
  unfold receiverAfter, SpectralAnalyzerImpl.ComputeSpectrogram.
  destruct (W >? 0), (H >? 0), (negb _); split; reflexivity.
Qed.

(** A power spectrum has no negative entry. *)
Lemma ComputePowerSpectrum_nonneg (fftResult : list Complex.t) (spectrum : list R) :
  SpectralAnalyzerImpl.ComputePowerSpectrum fftResult = Ok spectrum ->
  Forall (fun v => (0 <= v)%R) spectrum.
Proof.
  unfold SpectralAnalyzerImpl.ComputePowerSpectrum. intros H.
  apply mapM_Ok in H. apply Forall_forall. intros v Hv.
  destruct (Forall2_In_r _ _ _ _ H Hv) as (i & _ & Hi).
  apply bind_Ok in Hi as (c & _ & Hc). injection Hc as <-.
  apply pow2_ge_0.
Qed.

(** Normalization keeps the entries of a spectrum non-negative. *)
Lemma NormalizeSpectrum_nonneg (spectrum : list R) :
  Forall (fun v => (0 <= v)%R) spectrum ->
  Forall (fun v => (0 <= v)%R) (SpectralAnalyzerImpl.NormalizeSpectrum spectrum).
Proof.
  intros H. unfold SpectralAnalyzerImpl.NormalizeSpectrum.
  set (maxVal := fold_left _ spectrum 0%R).
  destruct (Rlt_dec maxVal 1e-10) as [Hlt|Hge].
  - now rewrite (Rltb_true _ _ Hlt).
  - rewrite Rltb_false by lra.
    rewrite Forall_forall in *. intros v Hv. apply in_map_iff in Hv as (u & <- & Hu).
    apply H in Hu. apply Rmult_le_pos; [assumption|].
    left. apply Rinv_0_lt_compat. lra.
Qed.

Lemma processFrame_linear_nonneg (s : SpectralAnalyzerImpl.t) (frame row : list R) :
  (SpectralAnalyzerImpl.LogScaleBase s <= 1)%R ->
  SpectralAnalyzerImpl.processFrame s frame = Ok row ->
  Forall (fun v => (0 <= v)%R) row.
Proof.
  intros Hbase H. unfold SpectralAnalyzerImpl.processFrame in H.
  apply bind_Ok in H as (windowed & _ & H).
  apply bind_Ok in H as (spectrum & Hs & H).
  apply ComputePowerSpectrum_nonneg in Hs.
  rewrite Rgtb_false in H by lra. injection H as <-.
  destruct (SpectralAnalyzerImpl.NormalizeSpec s);
    [now apply NormalizeSpectrum_nonneg | assumption].
Qed.

(** *** Silence under the default configuration *)

Lemma firstn_In {A : Type} (n : nat) : forall (xs : list A) (x : A),
  In x (firstn n xs) -> In x xs.
Proof.
  induction n as [|n IH]; intros [|y xs] x; simpl; try contradiction.
  intros [-> | H]; [now left | right; now apply IH].
Qed.

Lemma skipn_In {A : Type} (n : nat) : forall (xs : list A) (x : A),
  In x (skipn n xs) -> In x xs.
Proof.
  induction n as [|n IH]; intros [|y xs] x; simpl; try contradiction; auto.
Qed.

Lemma extractFrame_silent (p : PCMProcessor.t) (samples frame : list R) (i : Z) :
  Forall isZero samples ->
  PCMProcessor.extractFrame p samples i = Ok frame ->
  Forall isZero frame.
Proof.
  intros Hz H. unfold PCMProcessor.extractFrame in H.
  apply bind_Ok in H as (zeros & Hzeros & H).
  apply bind_Ok in H as (src & Hsrc & H). injection H as <-.
  rewrite Forall_forall in *. intros v Hv. apply in_app_or in Hv as [Hv | Hv].
  - apply firstn_In in Hv. unfold slice in Hsrc.
    destruct (_ || _); [discriminate|]. injection Hsrc as <-.
    apply firstn_In, skipn_In in Hv. auto.
  - apply skipn_In in Hv. unfold make in Hzeros.
    destruct (_ <? 0); [discriminate|]. injection Hzeros as <-.
    apply repeat_spec in Hv. exact Hv.
Qed.

Lemma SegmentIntoFrames_silent (p : PCMProcessor.t) (data : AudioData.t)
    (frames : list (list R)) :
  Forall isZero (AudioData.Samples data) ->
  PCMProcessor.SegmentIntoFrames p data = Ok frames ->
  Forall (Forall isZero) frames.
Proof.
  intros Hz H. unfold PCMProcessor.SegmentIntoFrames in H.
  destruct (_ <? _); [discriminate|]. destruct (_ =? 0); [discriminate|].
  destruct (_ <? 0); [discriminate|].
  apply mapM_Ok in H. apply Forall_forall. intros frame Hin.
  destruct (Forall2_In_r _ _ _ _ H Hin) as (i & _ & Hi).
  eapply extractFrame_silent; eassumption.
Qed.

Lemma applyCoeffs_silent (windowType : string) (n : Z) (frame : list R) :
  Forall isZero frame ->
  forall i0, Forall isZero (SpectralAnalyzerImpl.applyCoeffs windowType n i0 frame).
Proof.
  induction 1 as [|x frame Hx _ IH]; intros i0; simpl; constructor; [|apply IH].
  unfold isZero in *. subst x. ring.
Qed.

Lemma ApplyWindow_silent (s : SpectralAnalyzerImpl.t) (frame windowed : list R) :
  Forall isZero frame ->
  SpectralAnalyzerImpl.ApplyWindow s frame = Ok windowed ->
  Forall isZero windowed.
Proof.
  intros Hz H. unfold SpectralAnalyzerImpl.ApplyWindow in H.
  apply bind_Ok in H as (resized & Hres & H). injection H as <-.
  apply applyCoeffs_silent.
  destruct (negb _); [|now injection Hres as <-].
  apply bind_Ok in Hres as (zeros & Hzeros & Hres). injection Hres as <-.
  rewrite Forall_forall in *. intros v Hv. apply in_app_or in Hv as [Hv | Hv].
  - apply firstn_In in Hv. auto.
  - apply skipn_In in Hv. unfold make in Hzeros.
    destruct (_ <? 0); [discriminate|]. injection Hzeros as <-.
    apply repeat_spec in Hv. exact Hv.
Qed.

Lemma dftSum_silent (xs : list Complex.t) (k N : nat) :
  Forall (fun c => c = Complex.zero) xs ->
  forall n, fft.dftSum xs n k N = Complex.zero.
Proof.
  induction 1 as [|x xs Hx _ IH]; intros n; simpl; [reflexivity|].
  rewrite IH, Hx. unfold Complex.add, Complex.mul, Complex.zero. simpl.
  f_equal; ring.
Qed.

Lemma ComputeFFT_silent (windowed : list R) :
  Forall isZero windowed ->
  Forall (fun c => c = Complex.zero) (SpectralAnalyzerImpl.ComputeFFT windowed).
Proof.
  intros Hz. unfold SpectralAnalyzerImpl.ComputeFFT, fft.FFT.
  apply Forall_forall. intros c Hc. apply in_map_iff in Hc as (k & <- & _).
  apply dftSum_silent. apply Forall_forall. intros c Hc.
  apply in_map_iff in Hc as (v & <- & Hv).
  rewrite Forall_forall in Hz. rewrite (Hz v Hv). reflexivity.
Qed.

Lemma ComputePowerSpectrum_silent (fftResult : list Complex.t) (spectrum : list R) :
  Forall (fun c => c = Complex.zero) fftResult ->
  SpectralAnalyzerImpl.ComputePowerSpectrum fftResult = Ok spectrum ->
  Forall isZero spectrum.
Proof.
  intros Hz H. unfold SpectralAnalyzerImpl.ComputePowerSpectrum in H.
  apply mapM_Ok in H. apply Forall_forall. intros v Hv.
  destruct (Forall2_In_r _ _ _ _ H Hv) as (i & _ & Hi).
  apply bind_Ok in Hi as (c & Hc & Hi). injection Hi as <-.
  apply at_Ok, index_Some_In in Hc. rewrite Forall_forall in Hz.
  rewrite (Hz c Hc). unfold Complex.Abs, Complex.zero, isZero. simpl.
  replace (0 * 0 + 0 * 0)%R with 0%R by ring. rewrite sqrt_0. ring.
Qed.

(** The running maximum of [NormalizeSpectrum] starts at zero and
    stays there on a spectrum without a positive entry. *)
Lemma spectrum_max_nonpositive (spectrum : list R) :
  Forall (fun v => (v <= 0)%R) spectrum ->
  fold_left (fun maxVal val => if Rgtb val maxVal then val else maxVal) spectrum 0%R = 0%R.
Proof.
  induction 1 as [|v spectrum Hv _ IH]; simpl; [reflexivity|].
  now rewrite Rgtb_false by lra.
Qed.

Lemma log_of_silence_negative (base : R) :
  (1 < base)%R -> (ln (0 + 1e-10) / ln base < 0)%R.
Proof.
  intros Hbase.
  assert (Hnum : (ln (0 + 1e-10) < ln 1)%R) by (apply ln_increasing; lra).
  assert (Hden : (ln 1 < ln base)%R) by (apply ln_increasing; lra).
  rewrite ln_1 in Hnum, Hden.
  unfold Rdiv. apply Rinv_0_lt_compat in Hden. nra.
Qed.

(** A frame of silence, log-scaled and normalized: every bin holds the
    logarithm of the guard value [1e-10], a negative number. *)
Lemma processFrame_silent (s : SpectralAnalyzerImpl.t) (frame row : list R) :
  Forall isZero frame ->
  (1 < SpectralAnalyzerImpl.LogScaleBase s)%R ->
  SpectralAnalyzerImpl.NormalizeSpec s = true ->
  SpectralAnalyzerImpl.processFrame s frame = Ok row ->
  Forall (fun v => v = (ln (0 + 1e-10) / ln (SpectralAnalyzerImpl.LogScaleBase s))%R) row.
Proof.
  intros Hz Hbase Hnorm H. unfold SpectralAnalyzerImpl.processFrame in H.
  apply bind_Ok in H as (windowed & Hw & H).
  apply bind_Ok in H as (spectrum & Hs & H).
  apply (ApplyWindow_silent _ _ _ Hz), ComputeFFT_silent in Hw.
  apply (ComputePowerSpectrum_silent _ _ Hw) in Hs.
  rewrite Hnorm, Rgtb_true in H by lra. injection H as <-.
  unfold SpectralAnalyzerImpl.ApplyLogScale. rewrite Rleb_false by lra.
  set (c := (ln (0 + 1e-10) / ln (SpectralAnalyzerImpl.LogScaleBase s))%R).
  assert (Hc : (c < 0)%R) by now apply log_of_silence_negative.
  set (logSpectrum := map _ spectrum).
  assert (Hlog : Forall (fun v => v = c) logSpectrum).
  { apply Forall_forall. intros v Hv. apply in_map_iff in Hv as (u & <- & Hu).
    rewrite Forall_forall in Hs. rewrite (Hs u Hu). reflexivity. }
  unfold SpectralAnalyzerImpl.NormalizeSpectrum.
  rewrite spectrum_max_nonpositive.
  - rewrite Rltb_true by lra. exact Hlog.
  - eapply Forall_impl; [|exact Hlog]. simpl. intros v ->. lra.
Qed.

Lemma log10_of_guard : (ln (0 + 1e-10) / ln 10.0 = -10)%R.
Proof.
  assert (H10 : (0 < ln 10)%R).
  { assert (Hlt : (ln 1 < ln 10)%R) by (apply ln_increasing; lra).
    now rewrite ln_1 in Hlt. }
  replace (0 + 1e-10)%R with (/ (10 ^ 10))%R by lra.
  rewrite ln_Rinv by (apply pow_lt; lra).
  rewrite ln_pow by lra.
  replace 10.0%R with 10%R by lra.
  simpl INR. field. lra.
Qed.

(** C1: the code breaks the claim on digital silence.  Under the
    default configuration ([LogScaleBase = 10.0], [NormalizeSpec = true])
    the spectrogram of one window of 1024 zero samples, which
    [ComputeSpectrogram] accepts, has one frame of 513 bins that all
    hold [log10(0 + 1e-10) = -10]: no entry is non-negative.
    [NormalizeSpectrum], documented to normalize a spectrum to the range
    from 0 to 1, returns this row as it received it, because its running
    maximum starts at 0 and a spectrum of logarithms lies below it. *)
Theorem ComputeSpectrogram_silence_negative :
  exists (sg : Spectrogram.t) (row : list R),
    snd (SpectralAnalyzerImpl.ComputeSpectrogram
           SpectralAnalyzerImpl.NewSpectralAnalyzer silence 1024 512) = Ok sg /\
    Spectrogram.Data sg = [row] /\
    len row = 513 /\
    Forall (fun v => v = (-10)%R) row /\
    SpectralAnalyzerImpl.NormalizeSpectrum row = row.
Proof.
  assert (HN : len (AudioData.Samples silence) = 1024).
  { unfold len, silence. cbn [AudioData.Samples]. now rewrite repeat_length. }
  destruct (ComputeSpectrogram_mono_run
              SpectralAnalyzerImpl.NewSpectralAnalyzer silence 1024 512)
    as (frames & rows & Hframes & Hlen & Hfa & Hcall);
    [reflexivity | lia | lia | rewrite HN; lia |].
  assert (Hsilent : Forall (Forall isZero) frames).
  { apply SegmentIntoFrames_silent in Hframes; [assumption|].
    apply Forall_forall. intros v Hv. apply repeat_spec in Hv. exact Hv. }
  rewrite HN in Hlen. change (1 + (1024 - 1024) / 512) with 1 in Hlen.
  destruct Hfa as [|frame row frames rows (Hrow & _ & Hrl) Hrest].
  { discriminate Hlen. }
  destruct Hrest as [|frame' row' frames rows _ _].
  2:{ exfalso. unfold len in Hlen. simpl length in Hlen. lia. }
  apply Forall_inv in Hsilent.
  destruct (receiverAfter_scaling SpectralAnalyzerImpl.NewSpectralAnalyzer silence 1024 512)
    as [Hbase Hnorm].
  change (SpectralAnalyzerImpl.LogScaleBase SpectralAnalyzerImpl.NewSpectralAnalyzer)
    with 10.0%R in Hbase.
  change (SpectralAnalyzerImpl.NormalizeSpec SpectralAnalyzerImpl.NewSpectralAnalyzer)
    with true in Hnorm.
  apply (processFrame_silent _ _ _ Hsilent) in Hrow;
    [| rewrite Hbase; lra | exact Hnorm].
  rewrite Hbase, log10_of_guard in Hrow.
  eexists. exists row. split; [exact Hcall|].
  split; [reflexivity|]. split; [exact Hrl|]. split; [exact Hrow|].
  unfold SpectralAnalyzerImpl.NormalizeSpectrum.
  rewrite spectrum_max_nonpositive.
  - now rewrite Rltb_true by lra.
  - eapply Forall_impl; [|exact Hrow]. simpl. intros v ->. lra.
Qed.

(** ** The peak extractor *)

(** *** The insertion sort meets the contract of sort.Slice *)

Lemma insertBy_perm (less : Peak.t -> Peak.t -> bool) (x : Peak.t) (xs : list Peak.t) :
  Permutation (x :: xs) (PeakExtractor.insertBy less x xs).
Proof.
  induction xs as [|y xs IH]; simpl; [reflexivity|].
  destruct (less y x); [|reflexivity].
  etransitivity; [apply perm_swap | now apply perm_skip].
Qed.

Lemma insertBy_sorted (x : Peak.t) (xs : list Peak.t) :
  StronglySorted (fun a b => PeakExtractor.byAmplitudeDesc b a = false) xs ->
  StronglySorted (fun a b => PeakExtractor.byAmplitudeDesc b a = false)
                 (PeakExtractor.insertBy PeakExtractor.byAmplitudeDesc x xs).
Proof.
  induction 1 as [|y xs Hs IH Hy]; simpl.
  - repeat constructor.
  - destruct (PeakExtractor.byAmplitudeDesc y x) eqn:Hyx.
    + constructor; [exact IH|].
      rewrite Forall_forall in *. intros z Hz.
      apply (Permutation_in _ (Permutation_sym (insertBy_perm _ x xs))) in Hz.
      destruct Hz as [<- | Hz]; [|auto].
      unfold PeakExtractor.byAmplitudeDesc in *. apply Rgtb_spec in Hyx.
      apply Rgtb_false. lra.
    + constructor; [now constructor|]. constructor; [exact Hyx|].
      rewrite Forall_forall in *. intros z Hz. specialize (Hy z Hz).
      unfold PeakExtractor.byAmplitudeDesc, Rgtb in *.
      destruct (Rgt_dec (Peak.Amplitude z) (Peak.Amplitude y)); [discriminate|].
      destruct (Rgt_dec (Peak.Amplitude y) (Peak.Amplitude x)); [discriminate|].
      destruct (Rgt_dec (Peak.Amplitude z) (Peak.Amplitude x)); [lra | reflexivity].
Qed.

Lemma insertionSort_contract : sortSliceContract PeakExtractor.insertionSort.
Proof.
  intros xs. unfold PeakExtractor.insertionSort.
  induction xs as [|x xs [IHp IHs]]; simpl.
  - split; constructor.
  - split.
    + etransitivity; [apply perm_skip, IHp | apply insertBy_perm].
    + now apply insertBy_sorted.
Qed.

(** *** The neighbourhood scan *)





(** *** Thresholds *)

Lemma cell_In (sg : Spectrogram.t) (t f : Z) (v : R) :
  PeakExtractor.cell sg t f = Ok v ->
  exists row, In row (Spectrogram.Data sg) /\ In v row.
Proof.
  unfold PeakExtractor.cell. intros H. apply bind_Ok in H as (row & Hrow & Hv).
  apply at_Ok, index_Some_In in Hrow. apply at_Ok, index_Some_In in Hv. eauto.
Qed.

Lemma row_max_fold (frame : list R) : forall a : R,
  let m := fold_left (fun maxAmplitude amplitude =>
                        if Rgtb amplitude maxAmplitude then amplitude else maxAmplitude)
                     frame a in
  (a <= m)%R /\ (forall v, In v frame -> (v <= m)%R) /\ (m = a \/ In m frame).
Proof.
  induction frame as [|x frame IH]; intros a; simpl.
  - repeat split; [lra | contradiction | now left].
  - destruct (IH (if Rgtb x a then x else a)) as (Hge & Hall & Hatt).
    rewrite running_max_step in *.
    pose proof (Rmax_l a x). pose proof (Rmax_r a x).
    repeat split.
    + lra.
    + intros v [<- | Hv]; [lra | auto].
    + destruct Hatt as [Hatt | Hatt]; [|auto].
      rewrite Hatt. unfold Rmax. destruct (Rle_dec a x); auto.
Qed.



(** *** One frame *)

Lemma scanBins_spec (p : PeakExtractor.t) (sg : Spectrogram.t) (thr : R) (t : Z)
    (fs : list Z) : forall peaks,
  PeakExtractor.scanBins p sg thr t fs = Ok peaks ->
  Forall (candidateOf p sg thr t fs) peaks.
Proof.
  induction fs as [|f fs IH]; simpl; intros peaks H.
  - injection H as <-. constructor.
  - assert (Hweaken : forall qs, Forall (candidateOf p sg thr t fs) qs ->
                                 Forall (candidateOf p sg thr t (f :: fs)) qs).
    { intros qs. apply Forall_impl. unfold candidateOf. intros q Hq. simpl. tauto. }
    apply bind_Ok in H as (amplitude & Hcell & H).
    destruct (Rltb amplitude thr) eqn:Hthr; [now apply Hweaken, IH|].
    apply bind_Ok in H as (isMax & Hmax & H).
    destruct isMax; [|now apply Hweaken, IH].
    apply bind_Ok in H as (time & Htime & H).
    apply bind_Ok in H as (frequency & Hfreq & H).
    apply bind_Ok in H as (more & Hmore & H). injection H as <-.
    constructor; [|now apply Hweaken, IH].
    unfold candidateOf. simpl. apply at_Ok in Htime, Hfreq.
    repeat split; auto.
Qed.

Lemma frameCandidates_spec (p : PeakExtractor.t) (sg : Spectrogram.t) (t : Z)
    (cands : list Peak.t) :
  PeakExtractor.frameCandidates p sg t = Ok cands ->
  Forall (candidateOf p sg
            (PeakExtractor.effectiveThresholdOf p
               (PeakExtractor.maxAmplitudeOf (Spectrogram.Data sg)))
            t (range_incl (fst (PeakExtractor.freqIndices p sg))
                          (snd (PeakExtractor.freqIndices p sg)))) cands.
Proof.
  unfold PeakExtractor.frameCandidates.
  destruct (PeakExtractor.freqIndices p sg) as [lo hi]. apply scanBins_spec.
Qed.

Section SortedExtraction.

Variable sortSlice : (Peak.t -> Peak.t -> bool) -> list Peak.t -> list Peak.t.
Hypothesis sortSlice_ok : sortSliceContract sortSlice.

Let sorted (xs : list Peak.t) : list Peak.t := sortSlice PeakExtractor.byAmplitudeDesc xs.

(** What a frame contributes: the first [MaxPeaksPerFrame] of its sorted
    candidates. *)
Lemma capFrame_spec (p : PeakExtractor.t) (cands kept : list Peak.t) :
  PeakExtractor.capFrame sortSlice p cands = Ok kept ->
  kept = firstn (Z.to_nat (PeakExtractor.MaxPeaksPerFrame p)) (sorted cands).
Proof.
  unfold PeakExtractor.capFrame. fold (sorted cands).
  destruct (Z.gtb_spec (len cands) 0) as [Hpos|Hzero].
  - destruct (Z.gtb_spec (len (sorted cands)) (PeakExtractor.MaxPeaksPerFrame p))
      as [Hmore|Hfew].
    + unfold slice. destruct (_ || _); [discriminate|].
      intros H. injection H as <-. simpl. now rewrite Z.sub_0_r.
    + intros H. injection H as <-. symmetry. apply firstn_all2.
      unfold len in Hfew. lia.
  - intros H. injection H as <-.
    assert (Hnil : cands = []).
    { destruct cands; [reflexivity | unfold len in Hzero; simpl in Hzero; lia]. }
    subst cands. destruct (sortSlice_ok []) as [Hperm _].
    apply Permutation_nil in Hperm. unfold sorted. rewrite Hperm.
    now rewrite firstn_nil.
Qed.

Lemma capFrame_subset (p : PeakExtractor.t) (cands kept : list Peak.t) (q : Peak.t) :
  PeakExtractor.capFrame sortSlice p cands = Ok kept -> In q kept -> In q cands.
Proof.
  intros H Hq. apply capFrame_spec in H. subst kept.
  apply firstn_In in Hq. destruct (sortSlice_ok cands) as [Hperm _].
  eapply Permutation_in; [symmetry; exact Hperm | exact Hq].
Qed.

(** The result of the frame loop, frame by frame. *)
Lemma frameLoop_spec (p : PeakExtractor.t) (sg : Spectrogram.t) (ts : list Z) :
  forall peaks,
  PeakExtractor.frameLoop sortSlice p sg ts = Ok peaks ->
  exists kepts,
    peaks = concat kepts /\
    Forall2 (fun t kept =>
               exists cands,
                 PeakExtractor.frameCandidates p sg t = Ok cands /\
                 PeakExtractor.capFrame sortSlice p cands = Ok kept) ts kepts.
Proof.
  induction ts as [|t ts IH]; simpl; intros peaks H.
  - injection H as <-. exists []. split; [reflexivity | constructor].
  - apply bind_Ok in H as (cands & Hcands & H).
    apply bind_Ok in H as (kept & Hkept & H).
    apply bind_Ok in H as (more & Hmore & H). injection H as <-.
    destruct (IH more Hmore) as (kepts & -> & Hfa).
    exists (kept :: kepts). split; [reflexivity|]. constructor; eauto.
Qed.

Lemma ExtractPeaks_frameLoop (p : PeakExtractor.t) (sg : Spectrogram.t)
    (peaks : list Peak.t) :
  PeakExtractor.ExtractPeaks sortSlice p (Some sg) = Ok peaks ->
  PeakExtractor.frameLoop sortSlice p sg (upto (Spectrogram.TimeBins sg)) = Ok peaks.
Proof.
  unfold PeakExtractor.ExtractPeaks.
  destruct (Spectrogram.Data sg) as [|[|v row] rows]; try discriminate. auto.
Qed.

(** Every returned peak is a surviving candidate of its frame. *)
Lemma ExtractPeaks_candidates (p : PeakExtractor.t) (sg : Spectrogram.t)
    (peaks : list Peak.t) (q : Peak.t) :
  PeakExtractor.ExtractPeaks sortSlice p (Some sg) = Ok peaks ->
  In q peaks ->
  0 <= Peak.TimeIndex q < Spectrogram.TimeBins sg /\
  candidateOf p sg
    (PeakExtractor.effectiveThresholdOf p
       (PeakExtractor.maxAmplitudeOf (Spectrogram.Data sg)))
    (Peak.TimeIndex q)
    (range_incl (fst (PeakExtractor.freqIndices p sg))
                (snd (PeakExtractor.freqIndices p sg))) q.
Proof.
  intros H Hq. apply ExtractPeaks_frameLoop, frameLoop_spec in H as (kepts & -> & Hfa).
  apply in_concat in Hq as (kept & Hkept & Hq).
  destruct (Forall2_In_r _ _ _ _ Hfa Hkept) as (t & Ht & cands & Hcands & Hcap).
  apply (capFrame_subset _ _ _ _ Hcap) in Hq.
  apply frameCandidates_spec in Hcands. rewrite Forall_forall in Hcands.
  specialize (Hcands q Hq). pose proof Hcands as (Htq & _).
  rewrite Htq. split; [now apply upto_In | exact Hcands].
Qed.

(** Every returned peak lies in the band of bins that the loop over
    [FreqPoints] has computed. *)
Corollary ExtractPeaks_band (p : PeakExtractor.t) (sg : Spectrogram.t)
    (peaks : list Peak.t) (q : Peak.t) :
  PeakExtractor.ExtractPeaks sortSlice p (Some sg) = Ok peaks ->
  In q peaks ->
  fst (PeakExtractor.freqIndices p sg) <= Peak.FreqIndex q
  <= snd (PeakExtractor.freqIndices p sg).
Proof.
  intros H Hq. destruct (ExtractPeaks_candidates p sg peaks q H Hq) as (_ & _ & Hf & _).
  now apply range_incl_In in Hf.
Qed.

End SortedExtraction.


(** Evaluates the extractor on a concrete spectrogram. *)
Ltac run_extractor :=
  repeat first
    [ progress cbn -[IZR Q2R Rltb Rgtb Rgeb Rleb Rmult Rplus Rdiv Rminus Ropp Rinv Z.to_nat]
    | progress decide_cmp
    | progress unfold PeakExtractor.cell, at_, index
    | match goal with
      | |- context [Z.to_nat ?z] =>
          let n := eval vm_compute in (Z.to_nat z) in change (Z.to_nat z) with n
      end ].


Lemma threeBins_candidates :
  PeakExtractor.frameCandidates PeakExtractor.NewPeakExtractor threeBins 0
  = Ok [Peak.mk 0 1 0 100 5 true].
Proof.
  unfold PeakExtractor.frameCandidates.
  assert (Hmax : PeakExtractor.maxAmplitudeOf (Spectrogram.Data threeBins) = 5%R).
  { unfold PeakExtractor.maxAmplitudeOf. run_extractor. reflexivity. }
  assert (Hband : PeakExtractor.freqIndices PeakExtractor.NewPeakExtractor threeBins
                  = (1, 2)).
  { unfold PeakExtractor.freqIndices. run_extractor. reflexivity. }
  rewrite Hmax, Hband.
  unfold PeakExtractor.effectiveThresholdOf. run_extractor.
  change (range_incl 1 2) with [1; 2].
  unfold PeakExtractor.scanBins, PeakExtractor.isLocalMax.
  let offsets := eval vm_compute in (list_prod (range_incl (-3) 3) (range_incl (-3) 3)) in
  change (PeakExtractor.neighborhood PeakExtractor.NewPeakExtractor) with offsets.
  unfold threeBins. run_extractor. reflexivity.
Qed.

Lemma threeBins_peaks :
  PeakExtractor.ExtractPeaks PeakExtractor.insertionSort
    PeakExtractor.NewPeakExtractor (Some threeBins)
  = Ok [Peak.mk 0 1 0 100 5 true].
Proof.
  unfold PeakExtractor.ExtractPeaks.
  change (Spectrogram.Data threeBins) with [[1%R; 5%R; 1%R]]. cbv iota.
  change (upto (Spectrogram.TimeBins threeBins)) with [0].
  unfold PeakExtractor.frameLoop. rewrite threeBins_candidates.
  run_extractor. reflexivity.
Qed.


(** *** The frequency band *)

(** C2 at a [MinFrequency] that bin 0 meets: the loop sets
    [minFreqIndex] to 0 at bin 0, takes that 0 for "not found yet" at
    bin 1 and moves the index to 1.  On [loudBinZero], with the band
    opened down to 0 Hz, bin 0 (0 Hz, amplitude 5) is the first bin at or
    above [MinFrequency] and the only local maximum, yet the band is
    [[1, 2]] and no peak is returned. *)
Theorem ExtractPeaks_skips_bin_zero :
  index (Spectrogram.FreqPoints loudBinZero) 0 = Some 0%R /\
  (PeakExtractor.MinFrequency fromZeroHz <= 0)%R /\
  PeakExtractor.freqIndices fromZeroHz loudBinZero = (1, 2) /\
  PeakExtractor.isLocalMax fromZeroHz loudBinZero 0 0 5 = Ok true /\
  PeakExtractor.ExtractPeaks PeakExtractor.insertionSort fromZeroHz (Some loudBinZero)
  = Ok [].
Proof.
  assert (Hband : PeakExtractor.freqIndices fromZeroHz loudBinZero = (1, 2)).
  { unfold PeakExtractor.freqIndices. run_extractor. reflexivity. }
  assert (Hoffsets : PeakExtractor.neighborhood fromZeroHz
                     = list_prod (range_incl (-3) 3) (range_incl (-3) 3))
    by reflexivity.
  split; [reflexivity|]. split; [simpl; lra|]. split; [exact Hband|]. split.
  - unfold PeakExtractor.isLocalMax. rewrite Hoffsets.
    let offsets := eval vm_compute in (list_prod (range_incl (-3) 3) (range_incl (-3) 3)) in
    change (list_prod (range_incl (-3) 3) (range_incl (-3) 3)) with offsets.
    unfold loudBinZero. run_extractor. reflexivity.
  - unfold PeakExtractor.ExtractPeaks.
    change (Spectrogram.Data loudBinZero) with [[5%R; 1%R; 1%R]]. cbv iota.
    change (upto (Spectrogram.TimeBins loudBinZero)) with [0].
    unfold PeakExtractor.frameLoop, PeakExtractor.frameCandidates.
    assert (Hmax : PeakExtractor.maxAmplitudeOf (Spectrogram.Data loudBinZero) = 5%R).
    { unfold PeakExtractor.maxAmplitudeOf. run_extractor. reflexivity. }
    rewrite Hmax, Hband.
    unfold PeakExtractor.effectiveThresholdOf. run_extractor.
    change (range_incl 1 2) with [1; 2].
    unfold PeakExtractor.scanBins, PeakExtractor.isLocalMax. rewrite Hoffsets.
    let offsets := eval vm_compute in (list_prod (range_incl (-3) 3) (range_incl (-3) 3)) in
    change (list_prod (range_incl (-3) 3) (range_incl (-3) 3)) with offsets.
    unfold loudBinZero. run_extractor. reflexivity.
Qed.

(** *** The per-frame cap and the order of the result *)

Lemma StronglySorted_app {A : Type} (R : A -> A -> Prop) (l1 l2 : list A) :
  StronglySorted R l1 -> StronglySorted R l2 ->
  (forall a b, In a l1 -> In b l2 -> R a b) ->
  StronglySorted R (l1 ++ l2).
Proof.
  intros H1 H2 H12. induction H1 as [|a l1 H1 IH Ha]; simpl; [exact H2|].
  constructor.
  - apply IH. intros x y Hx Hy. apply H12; [now right | exact Hy].
  - apply Forall_app. split; [exact Ha|].
    apply Forall_forall. intros b Hb. apply H12; [now left | exact Hb].
Qed.

Lemma StronglySorted_app_inv {A : Type} (R : A -> A -> Prop) (l1 l2 : list A) :
  StronglySorted R (l1 ++ l2) ->
  StronglySorted R l1 /\ forall a b, In a l1 -> In b l2 -> R a b.
Proof.
  induction l1 as [|x l1 IH]; simpl; intros H.
  - split; [constructor | contradiction].
  - apply StronglySorted_inv in H as [Hs Hx]. destruct (IH Hs) as [Hs1 H12].
    apply Forall_app in Hx as [Hx1 Hx2]. split.
    + now constructor.
    + intros a b [<- | Ha] Hb; [|now apply H12].
      rewrite Forall_forall in Hx2. now apply Hx2.
Qed.

Lemma byAmplitudeDesc_false (a b : Peak.t) :
  PeakExtractor.byAmplitudeDesc b a = false <-> (Peak.Amplitude b <= Peak.Amplitude a)%R.
Proof.
  unfold PeakExtractor.byAmplitudeDesc, Rgtb.
  destruct (Rgt_dec (Peak.Amplitude b) (Peak.Amplitude a)); split; intros;
    try reflexivity; try discriminate; lra.
Qed.

Lemma peaksOfFrame_app (t : Z) (xs ys : list Peak.t) :
  peaksOfFrame t (xs ++ ys) = peaksOfFrame t xs ++ peaksOfFrame t ys.
Proof. apply filter_app. Qed.

(** The peaks of one frame all carry that frame's index. *)
Lemma peaksOfFrame_same_frame (t t0 : Z) (xs : list Peak.t) :
  Forall (fun q => Peak.TimeIndex q = t0) xs ->
  peaksOfFrame t xs = if t =? t0 then xs else [].
Proof.
  induction 1 as [|q xs Hq _ IH]; simpl.
  - now destruct (t =? t0).
  - rewrite IH, Hq, (Z.eqb_sym t0 t). now destruct (t =? t0).
Qed.

(** The concatenation of the frames' peaks, for the frames
    [lo, lo+1, ...]: it is ordered by [TimeIndex], and the peaks that
    carry index [t] are the contribution of frame [t]. *)
Lemma frames_concat (n : nat) : forall (lo : Z) (kepts : list (list Peak.t)),
  Forall2 (fun t kept => Forall (fun q => Peak.TimeIndex q = t) kept)
          (count_from lo n) kepts ->
  Forall (fun q => lo <= Peak.TimeIndex q < lo + Z.of_nat n) (concat kepts) /\
  StronglySorted (fun a b => Peak.TimeIndex a <= Peak.TimeIndex b) (concat kepts) /\
  (forall t kept, index kepts (t - lo) = Some kept ->
                  peaksOfFrame t (concat kepts) = kept).
Proof.
  induction n as [|n IH]; intros lo kepts H; simpl in H.
  - inversion H; subst. simpl. repeat split; try constructor.
    intros t kept Hk. unfold index in Hk. destruct (_ <? 0); [discriminate|].
    destruct (Z.to_nat (t - lo)); discriminate.
  - inversion H as [|t0 kept0 ts kepts' Hkept0 Hrest]; subst. simpl.
    destruct (IH (lo + 1) kepts' Hrest) as (Hrange & Hsorted & Hframe).
    assert (Hrange0 : Forall (fun q => lo <= Peak.TimeIndex q < lo + Z.of_nat (S n)) kept0).
    { eapply Forall_impl; [|exact Hkept0]. simpl. intros q ->. lia. }
    assert (Hrange' : Forall (fun q => lo + 1 <= Peak.TimeIndex q < lo + Z.of_nat (S n))
                             (concat kepts')).
    { eapply Forall_impl; [|exact Hrange]. simpl. intros q Hq. lia. }
    split; [|split].
    + apply Forall_app. split; [exact Hrange0|].
      eapply Forall_impl; [|exact Hrange']. simpl. intros q Hq. lia.
    + apply StronglySorted_app; [|exact Hsorted|].
      * clear - Hkept0. induction Hkept0 as [|q qs Hq Hqs IHq]; constructor; [exact IHq|].
        eapply Forall_impl; [|exact Hqs]. simpl. intros q' Hq'. lia.
      * intros a b Ha Hb. rewrite Forall_forall in Hkept0, Hrange'.
        specialize (Hkept0 a Ha). specialize (Hrange' b Hb). simpl in *. lia.
    + intros t kept Hk. rewrite peaksOfFrame_app, (peaksOfFrame_same_frame t lo kept0 Hkept0).
      pose proof (index_Some_range _ _ _ Hk) as Hr.
      destruct (Z.eqb_spec t lo) as [->|Hne].
      * rewrite Z.sub_diag in Hk. unfold index in Hk. simpl in Hk. injection Hk as <-.
        assert (Hnone : peaksOfFrame lo (concat kepts') = []).
        { unfold peaksOfFrame. rewrite Forall_forall in Hrange'.
          clear - Hrange'. induction (concat kepts') as [|q qs IHq]; [reflexivity|].
          simpl. pose proof (Hrange' q (or_introl eq_refl)) as Hq.
          destruct (Z.eqb_spec (Peak.TimeIndex q) lo); [lia|].
          apply IHq. intros x Hx. apply Hrange'. now right. }
        rewrite Hnone. apply app_nil_r.
      * simpl. apply Hframe. unfold index in *.
        destruct (Z.ltb_spec (t - lo) 0); [discriminate|].
        destruct (Z.ltb_spec (t - (lo + 1)) 0); [lia|].
        replace (Z.to_nat (t - lo)) with (S (Z.to_nat (t - (lo + 1)))) in Hk by lia.
        exact Hk.
Qed.

(** Outside the frames of the loop there is no peak. *)
Lemma peaksOfFrame_outside (t lo hi : Z) (peaks : list Peak.t) :
  Forall (fun q => lo <= Peak.TimeIndex q < hi) peaks ->
  ~ (lo <= t < hi) -> peaksOfFrame t peaks = [].
Proof.
  intros H Ht. unfold peaksOfFrame.
  induction H as [|q qs Hq _ IH]; simpl; [reflexivity|].
  destruct (Z.eqb_spec (Peak.TimeIndex q) t); [lia | exact IH].
Qed.

Lemma StronglySorted_weaken {A : Type} (R R' : A -> A -> Prop) (xs : list A) :
  (forall a b, R a b -> R' a b) -> StronglySorted R xs -> StronglySorted R' xs.
Proof.
  intros HR. induction 1 as [|x xs Hs IH Hx]; constructor; [exact IH|].
  eapply Forall_impl; [|exact Hx]. apply HR.
Qed.

(** What the cap keeps of a frame's candidates: as many as the cap
    allows, in descending order of amplitude, none lower than a
    candidate that is dropped. *)
Lemma capFrame_keeps_highest
    (sortSlice : (Peak.t -> Peak.t -> bool) -> list Peak.t -> list Peak.t)
    (p : PeakExtractor.t) (cands kept : list Peak.t) :
  sortSliceContract sortSlice ->
  0 <= PeakExtractor.MaxPeaksPerFrame p ->
  PeakExtractor.capFrame sortSlice p cands = Ok kept ->
  exists dropped,
    Permutation (kept ++ dropped) cands /\
    len kept = Z.min (PeakExtractor.MaxPeaksPerFrame p) (len cands) /\
    (forall a b, In a kept -> In b dropped ->
                 (Peak.Amplitude b <= Peak.Amplitude a)%R) /\
    StronglySorted (fun a b => (Peak.Amplitude b <= Peak.Amplitude a)%R) kept.
Proof.
  intros Hsort HK Hcap. apply (capFrame_spec sortSlice Hsort) in Hcap.
  destruct (Hsort cands) as [Hperm Hsorted].
  set (sorted := sortSlice PeakExtractor.byAmplitudeDesc cands) in *.
  set (k := Z.to_nat (PeakExtractor.MaxPeaksPerFrame p)) in *.
  exists (skipn k sorted). subst kept.
  rewrite <- (firstn_skipn k sorted) in Hsorted.
  apply StronglySorted_app_inv in Hsorted as [Hkept Hdom].
  repeat split.
  - rewrite firstn_skipn. now symmetry.
  - unfold len. rewrite length_firstn, <- (Permutation_length Hperm). subst k. lia.
  - intros a b Ha Hb. apply byAmplitudeDesc_false. now apply Hdom.
  - eapply StronglySorted_weaken; [|exact Hkept].
    intros a b. apply byAmplitudeDesc_false.
Qed.

(** C8: for a cap [MaxPeaksPerFrame >= 0], [ExtractPeaks] returns at
    most [MaxPeaksPerFrame] peaks with [TimeIndex = t]; for a frame [t]
    of the spectrogram these peaks are, up to the cap, the frame's
    surviving candidates of highest amplitude (no dropped candidate is
    higher than a retained one), they appear in descending order of
    amplitude, and the whole result is in ascending order of
    [TimeIndex]. *)
Theorem ExtractPeaks_frame_cap
    (sortSlice : (Peak.t -> Peak.t -> bool) -> list Peak.t -> list Peak.t)
    (p : PeakExtractor.t) (sg : Spectrogram.t) (peaks : list Peak.t) :
  sortSliceContract sortSlice ->
  0 <= PeakExtractor.MaxPeaksPerFrame p ->
  PeakExtractor.ExtractPeaks sortSlice p (Some sg) = Ok peaks ->
  let K := PeakExtractor.MaxPeaksPerFrame p in
  (forall t, len (peaksOfFrame t peaks) <= K) /\
  (forall t, 0 <= t < Spectrogram.TimeBins sg ->
     exists cands dropped,
       PeakExtractor.frameCandidates p sg t = Ok cands /\
       Permutation (peaksOfFrame t peaks ++ dropped) cands /\
       len (peaksOfFrame t peaks) = Z.min K (len cands) /\
       (forall a b, In a (peaksOfFrame t peaks) -> In b dropped ->
                    (Peak.Amplitude b <= Peak.Amplitude a)%R) /\
       StronglySorted (fun a b => (Peak.Amplitude b <= Peak.Amplitude a)%R)
                      (peaksOfFrame t peaks)) /\
  (forall t, ~ (0 <= t < Spectrogram.TimeBins sg) -> peaksOfFrame t peaks = []) /\
  StronglySorted (fun a b => Peak.TimeIndex a <= Peak.TimeIndex b) peaks.
Proof.
  intros Hsort HK Hcall K.
  apply (ExtractPeaks_frameLoop sortSlice), (frameLoop_spec sortSlice)
    in Hcall as (kepts & -> & Hfa).
  assert (Hidx : Forall2 (fun t kept => Forall (fun q => Peak.TimeIndex q = t) kept)
                         (count_from 0 (Z.to_nat (Spectrogram.TimeBins sg))) kepts).
  { eapply Forall2_impl; [|exact Hfa]. simpl.
    intros t kept (cands & Hcands & Hcap). apply Forall_forall. intros q Hq.
    apply (capFrame_subset sortSlice Hsort _ _ _ _ Hcap) in Hq.
    apply frameCandidates_spec in Hcands. rewrite Forall_forall in Hcands.
    now destruct (Hcands q Hq). }
  destruct (frames_concat _ _ _ Hidx) as (Hrange & Hsorted & Hframe).
  assert (Hin : forall t, 0 <= t < Spectrogram.TimeBins sg ->
            exists cands,
              PeakExtractor.frameCandidates p sg t = Ok cands /\
              PeakExtractor.capFrame sortSlice p cands
              = Ok (peaksOfFrame t (concat kepts))).
  { intros t Ht.
    destruct (Forall2_index _ _ _ t t Hfa (index_upto _ _ Ht))
      as (kept & Hkept & cands & Hcands & Hcap).
    exists cands. split; [exact Hcands|].
    rewrite (Hframe t kept); [exact Hcap|]. now rewrite Z.sub_0_r. }
  assert (Hout : forall t, ~ (0 <= t < Spectrogram.TimeBins sg) ->
                           peaksOfFrame t (concat kepts) = []).
  { intros t Ht. eapply peaksOfFrame_outside; [exact Hrange|].
    simpl. lia. }
  split; [|split; [|split]].
  - intros t. destruct (Z_lt_ge_dec t 0) as [Hneg|Hnn].
    { rewrite Hout by lia. unfold len. simpl. exact HK. }
    destruct (Z_lt_ge_dec t (Spectrogram.TimeBins sg)) as [Hlt|Hge].
    + destruct (Hin t) as (cands & _ & Hcap); [lia|].
      destruct (capFrame_keeps_highest _ _ _ _ Hsort HK Hcap) as (_ & _ & Hlen & _).
      rewrite Hlen. fold K. lia.
    + rewrite Hout by lia. unfold len. simpl. exact HK.
  - intros t Ht. destruct (Hin t Ht) as (cands & Hcands & Hcap).
    destruct (capFrame_keeps_highest _ _ _ _ Hsort HK Hcap)
      as (dropped & Hperm & Hlen & Hdom & Hdesc).
    exists cands, dropped. auto.
  - exact Hout.
  - exact Hsorted.
Qed.

Lemma twoCandidates_candidates :
  PeakExtractor.frameCandidates keepOne twoCandidates 0
  = Ok [Peak.mk 0 1 0 100 3 true; Peak.mk 0 2 0 200 7 true].
Proof.
  unfold PeakExtractor.frameCandidates.
  assert (Hmax : PeakExtractor.maxAmplitudeOf (Spectrogram.Data twoCandidates) = 7%R).
  { unfold PeakExtractor.maxAmplitudeOf. run_extractor. reflexivity. }
  assert (Hband : PeakExtractor.freqIndices keepOne twoCandidates = (1, 2)).
  { unfold PeakExtractor.freqIndices. run_extractor. reflexivity. }
  rewrite Hmax, Hband.
  unfold PeakExtractor.effectiveThresholdOf. run_extractor.
  change (range_incl 1 2) with [1; 2].
  unfold PeakExtractor.scanBins, PeakExtractor.isLocalMax.
  change (PeakExtractor.neighborhood keepOne) with [(0, 0)].
  unfold twoCandidates. run_extractor. reflexivity.
Qed.

Lemma twoCandidates_peaks :
  PeakExtractor.ExtractPeaks PeakExtractor.insertionSort keepOne (Some twoCandidates)
  = Ok [Peak.mk 0 2 0 200 7 true].
Proof.
  unfold PeakExtractor.ExtractPeaks.
  change (Spectrogram.Data twoCandidates) with [[0%R; 3%R; 7%R]]. cbv iota.
  change (upto (Spectrogram.TimeBins twoCandidates)) with [0].
  unfold PeakExtractor.frameLoop. rewrite twoCandidates_candidates.
  unfold PeakExtractor.capFrame, PeakExtractor.insertionSort,
    PeakExtractor.byAmplitudeDesc, slice.
  run_extractor. reflexivity.
Qed.

(** C8 on [twoCandidates] with a cap of one: of the candidates of
    amplitude 3 and 7 the result keeps the one of amplitude 7. *)
Lemma ExtractPeaks_frame_cap_witness :
  PeakExtractor.frameCandidates keepOne twoCandidates 0
  = Ok [Peak.mk 0 1 0 100 3 true; Peak.mk 0 2 0 200 7 true] /\
  PeakExtractor.ExtractPeaks PeakExtractor.insertionSort keepOne (Some twoCandidates)
  = Ok [Peak.mk 0 2 0 200 7 true] /\
  forall t, len (peaksOfFrame t [Peak.mk 0 2 0 200 7 true]) <= 1.
Proof.
  split; [exact twoCandidates_candidates|]. split; [exact twoCandidates_peaks|].
  assert (HK : 0 <= PeakExtractor.MaxPeaksPerFrame keepOne) by (simpl; lia).
  exact (proj1 (ExtractPeaks_frame_cap PeakExtractor.insertionSort keepOne twoCandidates
                  [Peak.mk 0 2 0 200 7 true]
                  insertionSort_contract HK twoCandidates_peaks)).
Defined.

(* ================================================================== *)
(** * Part III: further properties of the code *)
(* ================================================================== *)

(** ** ConvertToMono *)

Lemma mapM_upto_index {B : Type} (f : Z -> result B) (n : Z) (ys : list B) :
  mapM f (upto n) = Ok ys ->
  len ys = Z.max 0 n /\
  forall i, 0 <= i < n -> exists y, index ys i = Some y /\ f i = Ok y.
Proof.
  intros H. apply mapM_Ok in H. split.
  - rewrite (Forall2_length_len _ _ _ H). unfold len, upto.
    rewrite count_from_length. lia.
  - intros i Hi. exact (Forall2_index _ _ _ i i H (index_upto n i Hi)).
Qed.

Lemma half_pairs_in_range (n i : Z) :
  0 <= n -> 0 <= i < n / 2 -> 0 <= i * 2 /\ i * 2 + 1 < n.
Proof.
  intros Hn Hi. pose proof (Z.mul_div_le n 2 ltac:(lia)). lia.
Qed.

Lemma ConvertToMono_stereo_run (data : AudioData.t) :
  AudioData.Channels data = 2 ->
  exists monoSamples,
    mapM (fun i =>
            left <- at_ (AudioData.Samples data) (i * 2) ;;
            right <- at_ (AudioData.Samples data) (i * 2 + 1) ;;
            Ok ((left + right) / 2.0)%R)
         (upto (len (AudioData.Samples data) / 2)) = Ok monoSamples /\
    PCMProcessor.ConvertToMono data
    = Ok (AudioData.mk monoSamples (AudioData.SampleRate data) 1
                       (AudioData.Duration data)).
Proof.
  intros Hst. unfold PCMProcessor.ConvertToMono. rewrite Hst. simpl.
  pose proof (len_nonneg (AudioData.Samples data)) as Hn.
  rewrite Z.quot_div_nonneg by lia.
  destruct (mapM_exists
              (fun i =>
                 left <- at_ (AudioData.Samples data) (i * 2) ;;
                 right <- at_ (AudioData.Samples data) (i * 2 + 1) ;;
                 Ok ((left + right) / 2.0)%R)
              (upto (len (AudioData.Samples data) / 2))) as (mono & Hmono).
  - intros i Hi. apply upto_In in Hi.
    destruct (half_pairs_in_range _ _ Hn Hi) as [Hl Hr].
    destruct (index_in_range (AudioData.Samples data) (i * 2)) as (l & Hil); [lia|].
    destruct (index_in_range (AudioData.Samples data) (i * 2 + 1)) as (r & Hir); [lia|].
    apply at_Ok in Hil, Hir. rewrite Hil, Hir. simpl. eauto.
  - exists mono. rewrite Hmono. split; reflexivity.
Qed.

(** X1: on a stereo buffer [ConvertToMono] never fails; the result has
    [len/2] samples (an unpaired last sample is dropped), sample [i] is
    the mean of samples [2i] and [2i+1], the channel count is 1 and the
    sample rate and the duration are those of the input. *)
Theorem ConvertToMono_stereo (data : AudioData.t) :
  AudioData.Channels data = 2 ->
  exists mono,
    PCMProcessor.ConvertToMono data = Ok mono /\
    len (AudioData.Samples mono) = len (AudioData.Samples data) / 2 /\
    (forall i, 0 <= i < len (AudioData.Samples mono) ->
       exists left right,
         index (AudioData.Samples data) (2 * i) = Some left /\
         index (AudioData.Samples data) (2 * i + 1) = Some right /\
         index (AudioData.Samples mono) i = Some ((left + right) / 2)%R) /\
    AudioData.Channels mono = 1 /\
    AudioData.SampleRate mono = AudioData.SampleRate data /\
    AudioData.Duration mono = AudioData.Duration data.
Proof.
  intros Hst. destruct (ConvertToMono_stereo_run data Hst) as (mono & Hmono & Hcall).
  eexists. split; [exact Hcall|].
  cbn [AudioData.Samples AudioData.Channels AudioData.SampleRate AudioData.Duration].
  apply mapM_upto_index in Hmono as [Hlen Hidx].
  pose proof (len_nonneg (AudioData.Samples data)) as Hn.
  assert (Hhalf : 0 <= len (AudioData.Samples data) / 2) by (apply Z.div_pos; lia).
  rewrite Z.max_r in Hlen by lia.
  repeat split; [exact Hlen|].
  intros i Hi. rewrite Hlen in Hi. destruct (Hidx i Hi) as (y & Hy & Hf).
  apply bind_Ok in Hf as (l & Hl & Hf). apply bind_Ok in Hf as (r & Hr & Hf).
  injection Hf as <-. apply at_Ok in Hl, Hr.
  exists l, r. rewrite (Z.mul_comm 2 i). repeat split; try assumption.
  rewrite Hy. do 2 f_equal. lra.
Qed.

(** X1 on a stereo buffer of two samples. *)
Lemma ConvertToMono_stereo_witness :
  exists mono,
    PCMProcessor.ConvertToMono stereoClip = Ok mono /\
    len (AudioData.Samples mono) = 1 /\ AudioData.Channels mono = 1.
Proof.
  destruct (ConvertToMono_stereo stereoClip eq_refl) as (mono & Hok & Hlen & _ & Hch & _).
  exists mono. repeat split; assumption.
Defined.

Lemma ConvertToMono_of_mono (data : AudioData.t) :
  AudioData.Channels data = 1 -> PCMProcessor.ConvertToMono data = Ok data.
Proof. intros H. unfold PCMProcessor.ConvertToMono. now rewrite H. Qed.

Lemma ConvertToMono_result_mono (data mono : AudioData.t) :
  PCMProcessor.ConvertToMono data = Ok mono -> AudioData.Channels mono = 1.
Proof.
  unfold PCMProcessor.ConvertToMono.
  destruct (Z.eqb_spec (AudioData.Channels data) 1) as [H1|H1].
  { intros H. now injection H as <-. }
  destruct (negb _); [discriminate|].
  intros H. apply bind_Ok in H as (samples & _ & H). now injection H as <-.
Qed.

(** X2: [ConvertToMono] returns its error exactly for a channel count
    other than 1 and 2; a mono buffer is returned as it is; every
    result is mono, and converting it again returns it unchanged. *)
Theorem ConvertToMono_channels (data : AudioData.t) :
  ((exists msg, PCMProcessor.ConvertToMono data = Err msg) <->
   AudioData.Channels data <> 1 /\ AudioData.Channels data <> 2) /\
  (AudioData.Channels data = 1 -> PCMProcessor.ConvertToMono data = Ok data) /\
  (forall mono, PCMProcessor.ConvertToMono data = Ok mono ->
     AudioData.Channels mono = 1 /\ PCMProcessor.ConvertToMono mono = Ok mono).
Proof.
  split; [|split].
  - destruct (Z.eq_dec (AudioData.Channels data) 1) as [H1|H1].
    { rewrite (ConvertToMono_of_mono data H1).
      split; [intros (msg & H); discriminate | tauto]. }
    destruct (Z.eq_dec (AudioData.Channels data) 2) as [H2|H2].
    { destruct (ConvertToMono_stereo_run data H2) as (mono & _ & Hcall).
      rewrite Hcall. split; [intros (msg & H); discriminate | tauto]. }
    split; [tauto|]. intros _. unfold PCMProcessor.ConvertToMono.
    destruct (Z.eqb_spec (AudioData.Channels data) 1); [contradiction|].
    destruct (Z.eqb_spec (AudioData.Channels data) 2); [contradiction|].
    simpl. eauto.
  - exact (ConvertToMono_of_mono data).
  - intros mono Hcall. pose proof (ConvertToMono_result_mono _ _ Hcall) as Hch.
    split; [exact Hch | exact (ConvertToMono_of_mono mono Hch)].
Qed.

Lemma Rabs_bounds (a b : R) : (Rabs a <= b)%R -> (- b <= a <= b)%R.
Proof. unfold Rabs. destruct (Rcase_abs a); lra. Qed.

Lemma maxAbsSpec_le (samples : list R) (bound : R) :
  (0 <= bound)%R -> (forall s, In s samples -> (Rabs s <= bound)%R) ->
  (maxAbsSpec samples <= bound)%R.
Proof.
  intros Hb. induction samples as [|s samples IH]; simpl; intros H; [exact Hb|].
  apply Rmax_lub; [apply H; now left | apply IH; intros x Hx; apply H; now right].
Qed.

(** X3: the mixdown does not raise the peak: the largest absolute sample
    of the result of [ConvertToMono] is at most that of its input. *)
Theorem ConvertToMono_peak (data mono : AudioData.t) :
  PCMProcessor.ConvertToMono data = Ok mono ->
  (maxAbsSpec (AudioData.Samples mono) <= maxAbsSpec (AudioData.Samples data))%R.
Proof.
  intros Hcall. unfold PCMProcessor.ConvertToMono in Hcall.
  destruct (AudioData.Channels data =? 1); [injection Hcall as <-; lra|].
  destruct (negb _); [discriminate|].
  apply bind_Ok in Hcall as (samples & Hs & Hcall). injection Hcall as <-. simpl.
  apply maxAbsSpec_le; [apply maxAbsSpec_nonneg|].
  intros s Hin. apply mapM_Ok in Hs.
  destruct (Forall2_In_r _ _ _ _ Hs Hin) as (i & _ & Hi).
  apply bind_Ok in Hi as (l & Hl & Hi). apply bind_Ok in Hi as (r & Hr & Hi).
  injection Hi as <-.
  apply at_Ok, index_Some_In, maxAbsSpec_upper in Hl.
  apply at_Ok, index_Some_In, maxAbsSpec_upper in Hr.
  set (M := maxAbsSpec (AudioData.Samples data)) in *.
  apply Rabs_le. apply Rabs_bounds in Hl, Hr. lra.
Qed.

(** X3 on a stereo buffer of two samples. *)
Lemma ConvertToMono_peak_witness :
  exists mono,
    PCMProcessor.ConvertToMono stereoClip = Ok mono /\
    (maxAbsSpec (AudioData.Samples mono) <= maxAbsSpec (AudioData.Samples stereoClip))%R.
Proof.
  destruct (ConvertToMono_stereo_run stereoClip eq_refl) as (samples & _ & Hcall).
  eexists. split; [exact Hcall|]. exact (ConvertToMono_peak _ _ Hcall).
Defined.

(** X2 on a mono buffer. *)
Lemma ConvertToMono_channels_witness :
  PCMProcessor.ConvertToMono quietClip = Ok quietClip /\
  AudioData.Channels quietClip = 1.
Proof.
  destruct (ConvertToMono_channels quietClip) as (_ & Hmono & Hfix).
  split; [apply Hmono; reflexivity|].
  exact (proj1 (Hfix quietClip (Hmono eq_refl))).
Defined.

(** ** ResampleTo *)

Lemma Int_part_div (p q : Z) : 0 < q -> Int_part (IZR p / IZR q) = p / q.
Proof.
  intros Hq. symmetry. apply Int_part_spec.
  pose proof (Z.mul_div_le p q Hq) as Hlo.
  pose proof (Z.mul_succ_div_gt p q Hq) as Hhi.
  apply IZR_le in Hlo. apply IZR_lt in Hhi.
  rewrite mult_IZR in Hlo. rewrite mult_IZR, succ_IZR in Hhi.
  assert (HqR : (0 < IZR q)%R) by now apply IZR_lt.
  assert (Hinv : (0 < / IZR q)%R) by now apply Rinv_0_lt_compat.
  assert (Hcancel : (IZR p / IZR q * IZR q = IZR p)%R) by (field; lra).
  split.
  - apply Rmult_lt_reg_r with (IZR q); [exact HqR|].
    unfold Rminus. rewrite Rmult_plus_distr_r, Hcancel. lra.
  - apply Rmult_le_reg_r with (IZR q); [exact HqR|]. rewrite Hcancel. lra.
Qed.

Lemma fold_left_invariant {A B : Type} (f : A -> B -> A) (I : A -> Prop) (xs : list B) :
  forall init,
  I init -> (forall acc x, In x xs -> I acc -> I (f acc x)) -> I (fold_left f xs init).
Proof.
  induction xs as [|x xs IH]; simpl; intros init Hinit Hstep; [exact Hinit|].
  apply IH; [apply Hstep; auto | intros acc y Hy; apply Hstep; auto].
Qed.

Lemma store_nat_Some {A : Type} (xs : list A) (v : A) : forall n,
  (n < length xs)%nat ->
  exists ys, store_nat xs n v = Some ys /\ length ys = length xs.
Proof.
  induction xs as [|x xs IH]; simpl; intros n Hn; [lia|].
  destruct n as [|n]; [eexists; split; reflexivity|].
  destruct (IH n) as (ys & Hys & Hlen); [lia|].
  rewrite Hys. simpl. eexists. split; [reflexivity|]. simpl. now rewrite Hlen.
Qed.

Lemma store_nat_Forall {A : Type} (P : A -> Prop) (xs : list A) (v : A) : forall n ys,
  store_nat xs n v = Some ys -> Forall P xs -> P v -> Forall P ys.
Proof.
  induction xs as [|x xs IH]; simpl; intros n ys H Hxs Hv; [discriminate|].
  apply Forall_inv in Hxs as Hx. apply Forall_inv_tail in Hxs.
  destruct n as [|n].
  - injection H as <-. now constructor.
  - destruct (store_nat xs n v) as [zs|] eqn:Hzs; [|discriminate].
    simpl in H. injection H as <-. constructor; [exact Hx|]. eapply IH; eauto.
Qed.

Lemma store_Forall {A : Type} (P : A -> Prop) (xs ys : list A) (i : Z) (v : A) :
  store xs i v = Ok ys -> Forall P xs -> P v -> Forall P ys.
Proof.
  unfold store. destruct (i <? 0); [discriminate|].
  destruct (store_nat xs (Z.to_nat i) v) as [zs|] eqn:Hzs; [|discriminate].
  intros H. injection H as <-. eapply store_nat_Forall; eauto.
Qed.

Lemma store_in_range {A : Type} (xs : list A) (i : Z) (v : A) :
  0 <= i < len xs -> exists ys, store xs i v = Ok ys /\ len ys = len xs.
Proof.
  intros Hi. unfold store. destruct (Z.ltb_spec i 0); [lia|].
  destruct (store_nat_Some xs v (Z.to_nat i)) as (ys & Hys & Hlen);
    [unfold len in Hi; lia|].
  rewrite Hys. exists ys. split; [reflexivity|]. unfold len. now rewrite Hlen.
Qed.

(** The interpolation weight of [ResampleTo] lies in [[0, 1)]. *)
Lemma frac_range (origPos : R) :
  (0 <= origPos - IZR (Int_part origPos) < 1)%R.
Proof. destruct (base_Int_part origPos). lra. Qed.

Lemma interpolation_bounded (sample1 sample2 frac M : R) :
  (0 <= frac < 1)%R -> (Rabs sample1 <= M)%R -> (Rabs sample2 <= M)%R ->
  (Rabs (sample1 * (1 - frac) + sample2 * frac) <= M)%R.
Proof.
  intros Hf H1 H2. apply Rabs_bounds in H1, H2. apply Rabs_le. split; nra.
Qed.

(** One interpolation step keeps the output below the input's peak. *)
Lemma resampleStep_bounded (data : AudioData.t) (ratio : R) (origFrames : Z)
    (acc : result (list R)) (chi : Z * Z) (out : list R) :
  let M := maxAbsSpec (AudioData.Samples data) in
  (forall l, acc = Ok l -> Forall (fun v => (Rabs v <= M)%R) l) ->
  PCMProcessor.resampleStep data ratio origFrames acc chi = Ok out ->
  Forall (fun v => (Rabs v <= M)%R) out.
Proof.
  intros M Hacc H. destruct chi as [ch i]. unfold PCMProcessor.resampleStep in H.
  apply bind_Ok in H as (l & Hl & H).
  apply bind_Ok in H as (s1 & H1 & H). apply bind_Ok in H as (s2 & H2 & H).
  eapply store_Forall; [exact H | now apply Hacc |].
  apply at_Ok, index_Some_In, maxAbsSpec_upper in H1.
  apply at_Ok, index_Some_In, maxAbsSpec_upper in H2.
  apply interpolation_bounded; [apply frac_range | exact H1 | exact H2].
Qed.

(** X4: linear interpolation does not overshoot: whenever [ResampleTo]
    returns a buffer, its largest absolute sample is at most that of
    the input. *)
Theorem ResampleTo_peak (data out : AudioData.t) (targetSampleRate : Z) :
  PCMProcessor.ResampleTo data targetSampleRate = Ok out ->
  (maxAbsSpec (AudioData.Samples out) <= maxAbsSpec (AudioData.Samples data))%R.
Proof.
  unfold PCMProcessor.ResampleTo.
  destruct (AudioData.SampleRate data =? targetSampleRate).
  { intros H. injection H as <-. lra. }
  destruct (AudioData.SampleRate data =? 0); [discriminate|].
  destruct (AudioData.Channels data =? 0); [discriminate|].
  intros H. apply bind_Ok in H as (zeros & Hzeros & H).
  apply bind_Ok in H as (samples & Hsamples & H). injection H as <-. simpl.
  set (M := maxAbsSpec (AudioData.Samples data)).
  assert (HM : (0 <= M)%R) by apply maxAbsSpec_nonneg.
  assert (Hinv : forall l, fold_left
                   (PCMProcessor.resampleStep data
                      (IZR targetSampleRate / IZR (AudioData.SampleRate data))
                      (Z.quot (len (AudioData.Samples data)) (AudioData.Channels data)))
                   (list_prod (upto (AudioData.Channels data))
                      (upto (float_to_int
                               (IZR (Z.quot (len (AudioData.Samples data))
                                            (AudioData.Channels data))
                                * (IZR targetSampleRate
                                   / IZR (AudioData.SampleRate data))))))
                   (Ok zeros) = Ok l ->
                 Forall (fun v => (Rabs v <= M)%R) l).
  { apply (fold_left_invariant _
             (fun acc => forall l, acc = Ok l -> Forall (fun v => (Rabs v <= M)%R) l)).
    - intros l Hl. injection Hl as <-. unfold make in Hzeros.
      destruct (_ <? 0); [discriminate|]. injection Hzeros as <-.
      apply Forall_forall. intros v Hv. apply repeat_spec in Hv. subst v.
      rewrite Rabs_R0. exact HM.
    - intros acc chi _ Hacc l Hl. eapply resampleStep_bounded; eassumption. }
  apply maxAbsSpec_le; [exact HM|].
  intros s Hs. specialize (Hinv samples Hsamples).
  rewrite Forall_forall in Hinv. now apply Hinv.
Qed.

Lemma float_to_int_ratio (origFrames target rate : Z) :
  0 <= origFrames -> 0 < target -> 0 < rate ->
  float_to_int (IZR origFrames * (IZR target / IZR rate)) = origFrames * target / rate.
Proof.
  intros Ho Ht Hr.
  assert (HrR : (0 < IZR rate)%R) by now apply IZR_lt.
  replace (IZR origFrames * (IZR target / IZR rate))%R
    with (IZR (origFrames * target) / IZR rate)%R
    by (rewrite mult_IZR; field; lra).
  unfold float_to_int.
  assert (Hnn : (0 <= IZR (origFrames * target) / IZR rate)%R).
  { apply Rmult_le_pos; [apply IZR_le; nia | left; now apply Rinv_0_lt_compat]. }
  destruct (Rle_dec 0 (IZR (origFrames * target) / IZR rate)); [|contradiction].
  now apply Int_part_div.
Qed.

Lemma Int_part_nonneg (x : R) : (0 <= x)%R -> 0 <= Int_part x.
Proof.
  intros Hx. destruct (base_Int_part x) as [_ Hlo].
  assert (Hgt : (IZR (-1) < IZR (Int_part x))%R) by (simpl; lra).
  apply lt_IZR in Hgt. lia.
Qed.

(** A call that changes the rate, with positive rates and a positive
    channel count: no index leaves its slice, and the output has one
    sample per channel for each output frame; over the reals there are
    [origFrames * target / rate] of them. *)
Lemma ResampleTo_run (data : AudioData.t) (targetSampleRate : Z) :
  let rate := AudioData.SampleRate data in
  let channels := AudioData.Channels data in
  let origFrames := len (AudioData.Samples data) / channels in
  let newFrames := origFrames * targetSampleRate / rate in
  0 < rate -> 0 < targetSampleRate -> rate <> targetSampleRate -> 0 < channels ->
  exists samples,
    len samples = newFrames * channels /\
    PCMProcessor.ResampleTo data targetSampleRate
    = Ok (AudioData.mk samples targetSampleRate channels
                       (IZR newFrames / IZR targetSampleRate)).
Proof.
  intros rate channels origFrames newFrames Hrate Htarget Hne Hch.
  unfold PCMProcessor.ResampleTo. fold rate channels.
  destruct (Z.eqb_spec rate targetSampleRate); [contradiction|].
  destruct (Z.eqb_spec rate 0); [lia|].
  destruct (Z.eqb_spec channels 0); [lia|].
  pose proof (len_nonneg (AudioData.Samples data)) as Hlen.
  rewrite Z.quot_div_nonneg by lia. fold origFrames.
  assert (Ho : 0 <= origFrames) by (apply Z.div_pos; lia).
  rewrite float_to_int_ratio by assumption. fold newFrames.
  assert (Hnew : 0 <= newFrames) by (apply Z.div_pos; nia).
  unfold make. destruct (Z.ltb_spec (newFrames * channels) 0); [nia|].
  cbn [bind].
  set (ratio := (IZR targetSampleRate / IZR rate)%R).
  assert (Hratio : (0 < ratio)%R).
  { unfold ratio. apply Rmult_lt_0_compat; [now apply IZR_lt|].
    apply Rinv_0_lt_compat. now apply IZR_lt. }
  assert (Hfold : exists l,
            fold_left (PCMProcessor.resampleStep data ratio origFrames)
                      (list_prod (upto channels) (upto newFrames))
                      (Ok (repeat 0%R (Z.to_nat (newFrames * channels)))) = Ok l /\
            len l = newFrames * channels).
  { apply (fold_left_invariant _
             (fun acc => exists l, acc = Ok l /\ len l = newFrames * channels)).
    - eexists. split; [reflexivity|]. unfold len. rewrite repeat_length. lia.
    - intros acc [ch i] Hin (l & -> & Hl).
      apply in_prod_iff in Hin as [Hc Hi]. apply upto_In in Hc, Hi.
      unfold PCMProcessor.resampleStep. cbn [bind]. fold channels.
      set (origPos := (IZR i / ratio)%R).
      assert (Hpos : (0 <= origPos)%R).
      { unfold origPos. apply Rmult_le_pos; [apply IZR_le; lia|].
        left. now apply Rinv_0_lt_compat. }
      pose proof (Int_part_nonneg origPos Hpos) as Hidx.
      assert (Hsome : 1 <= origFrames).
      { destruct (Z_le_gt_dec origFrames 0) as [Hz|]; [|lia].
        assert (origFrames = 0) by lia. unfold newFrames in Hi.
        replace (origFrames * targetSampleRate) with 0 in Hi by nia.
        rewrite Z.div_0_l in Hi by lia. lia. }
      assert (Hfit : origFrames * channels <= len (AudioData.Samples data)).
      { unfold origFrames. pose proof (Z.mul_div_le (len (AudioData.Samples data))
                                         channels Hch). nia. }
      set (idx1 := if Int_part origPos >=? origFrames then origFrames - 1
                   else Int_part origPos).
      set (idx2 := if Int_part origPos + 1 >=? origFrames then origFrames - 1
                   else Int_part origPos + 1).
      assert (H1 : 0 <= idx1 < origFrames).
      { unfold idx1. destruct (Z.geb_spec (Int_part origPos) origFrames); lia. }
      assert (H2 : 0 <= idx2 < origFrames).
      { unfold idx2. destruct (Z.geb_spec (Int_part origPos + 1) origFrames); lia. }
      destruct (index_in_range (AudioData.Samples data) (idx1 * channels + ch))
        as (s1 & Hs1); [nia|].
      destruct (index_in_range (AudioData.Samples data) (idx2 * channels + ch))
        as (s2 & Hs2); [nia|].
      apply at_Ok in Hs1, Hs2. rewrite Hs1, Hs2. cbn [bind].
      destruct (store_in_range l (i * channels + ch)
                  (s1 * (1 - (origPos - IZR (Int_part origPos)))
                   + s2 * (origPos - IZR (Int_part origPos)))%R) as (l' & Hl' & Hlen');
        [rewrite Hl; nia|].
      exists l'. split; [exact Hl' | now rewrite Hlen']. }
  destruct Hfold as (l & Hl & Hlenl). rewrite Hl. cbn [bind].
  exists l. split; [exact Hlenl | reflexivity].
Qed.

(** X5: when the ratio of the two rates is a dyadic fraction,
    [target / rate = m / 2^e], the rates are below [2^53] and
    [origFrames * m] is below [2^53] for [origFrames = len / channels],
    so that [float64] holds the ratio and the product exactly (doubling
    or halving the rate, any whole multiple of it), [ResampleTo] on
    positive, different rates and a positive channel count returns a
    buffer at the target rate with the same channel count and
    [floor(origFrames * m / 2^e)] frames; its duration is the number of
    new frames over the target rate. *)
Theorem ResampleTo_shape (data : AudioData.t) (targetSampleRate m e : Z) :
  let rate := AudioData.SampleRate data in
  let channels := AudioData.Channels data in
  let origFrames := len (AudioData.Samples data) / channels in
  let newFrames := origFrames * m / 2 ^ e in
  0 < rate < 2 ^ 53 -> 0 < targetSampleRate < 2 ^ 53 ->
  rate <> targetSampleRate -> 0 < channels ->
  0 <= e -> targetSampleRate * 2 ^ e = rate * m -> origFrames * m < 2 ^ 53 ->
  exists out,
    PCMProcessor.ResampleTo data targetSampleRate = Ok out /\
    len (AudioData.Samples out) = newFrames * channels /\
    AudioData.SampleRate out = targetSampleRate /\
    AudioData.Channels out = channels /\
    AudioData.Duration out = (IZR newFrames / IZR targetSampleRate)%R.
Proof.
  intros rate channels origFrames newFrames Hrate Htarget Hne Hch He Hratio _.
  destruct (ResampleTo_run data targetSampleRate) as (samples & Hlen & Hcall);
    [lia | lia | exact Hne | exact Hch |].
  fold rate channels origFrames in Hlen, Hcall.
  assert (Hpow : 0 < 2 ^ e) by (apply Z.pow_pos_nonneg; lia).
  assert (Hsame : origFrames * targetSampleRate / rate = newFrames).
  { unfold newFrames.
    rewrite <- (Z.div_mul_cancel_r (origFrames * targetSampleRate) rate (2 ^ e)) by lia.
    replace (origFrames * targetSampleRate * 2 ^ e) with (rate * (origFrames * m))
      by (rewrite <- Z.mul_assoc, Hratio; ring).
    apply Z.div_mul_cancel_l; lia. }
  rewrite Hsame in Hlen, Hcall.
  eexists. split; [exact Hcall|]. simpl. repeat split. exact Hlen.
Qed.

(** X5 on [quietClip] (two mono samples at 44100 Hz), resampled to
    22050 Hz, a ratio of [1 / 2^1]: one sample. *)
Lemma ResampleTo_shape_witness :
  exists out,
    PCMProcessor.ResampleTo quietClip 22050 = Ok out /\
    len (AudioData.Samples out) = 1 /\
    AudioData.SampleRate out = 22050.
Proof.
  destruct (ResampleTo_shape quietClip 22050 1 1)
    as (out & Hok & Hlen & Hrate & _);
    [ split; reflexivity | split; reflexivity | discriminate | reflexivity
    | discriminate | reflexivity | reflexivity | ].
  exists out. repeat split; assumption.
Defined.

(** X4 on the same call. *)
Lemma ResampleTo_peak_witness :
  exists out,
    PCMProcessor.ResampleTo quietClip 22050 = Ok out /\
    (maxAbsSpec (AudioData.Samples out) <= maxAbsSpec (AudioData.Samples quietClip))%R.
Proof.
  destruct (ResampleTo_run quietClip 22050) as (samples & _ & Hcall);
    [reflexivity | reflexivity | discriminate | reflexivity |].
  eexists. split; [exact Hcall|]. exact (ResampleTo_peak _ _ _ Hcall).
Defined.

(** ** The preprocessing steps of LoadAndPreprocess *)

Lemma wrapError_Ok {A : Type} (msg : string) (r : result A) (a : A) :
  AudioUtils.wrapError msg r = Ok a <-> r = Ok a.
Proof. destruct r; simpl; split; intros H; congruence. Qed.

Lemma ResampleTo_channels (x y : AudioData.t) (rate : Z) :
  PCMProcessor.ResampleTo x rate = Ok y -> AudioData.Channels y = AudioData.Channels x.
Proof.
  unfold PCMProcessor.ResampleTo.
  destruct (AudioData.SampleRate x =? rate); [intros H; now injection H as <-|].
  destruct (AudioData.SampleRate x =? 0); [discriminate|].
  destruct (AudioData.Channels x =? 0); [discriminate|].
  intros H. apply bind_Ok in H as (zeros & _ & H).
  apply bind_Ok in H as (out & _ & H). now injection H as <-.
Qed.

(** What [Normalize] returns has the format of its argument and a peak
    that is negligible, within 0.001 of 1, or exactly 1. *)
Lemma Normalize_result (x y : AudioData.t) :
  PCMProcessor.Normalize x = Ok y ->
  AudioData.Channels y = AudioData.Channels x /\
  AudioData.SampleRate y = AudioData.SampleRate x /\
  let M := maxAbsSpec (AudioData.Samples y) in
  ((M < 0.001)%R \/ (Rabs (M - 1) < 0.001)%R).
Proof.
  unfold PCMProcessor.Normalize.
  destruct (len (AudioData.Samples x) =? 0) eqn:Hlen.
  { intros H. injection H as <-. repeat split. left.
    apply len_zero_nil in Hlen. rewrite Hlen. simpl. lra. }
  rewrite maxAbsOf_spec. set (Mx := maxAbsSpec (AudioData.Samples x)).
  destruct (Rlt_dec Mx 0.001) as [Hsmall|Hbig].
  { rewrite (Rltb_true _ _ Hsmall). simpl. intros H. injection H as <-.
    repeat split. now left. }
  rewrite (Rltb_false Mx 0.001) by lra. simpl.
  destruct (Rlt_dec (Rabs (Mx - 1.0)) 0.001) as [Hnear|Hfar].
  { rewrite (Rltb_true _ _ Hnear). intros H. injection H as <-.
    repeat split. right. fold Mx. now replace (Mx - 1)%R with (Mx - 1.0)%R by lra. }
  rewrite Rltb_false by lra. intros H. injection H as <-. simpl.
  repeat split. right. rewrite maxAbsSpec_scale by lra. fold Mx.
  replace (Mx / Mx - 1)%R with 0%R by (field; lra). rewrite Rabs_R0. lra.
Qed.

Lemma preprocessLoaded_steps (x y : AudioData.t) (targetSampleRate : Z)
    (convertToMono : bool) :
  AudioUtils.preprocessLoaded x targetSampleRate convertToMono = Ok y ->
  exists a1 a2,
    (if convertToMono && (AudioData.Channels x >? 1)
     then PCMProcessor.ConvertToMono x = Ok a1 else a1 = x) /\
    (if negb (AudioData.SampleRate a1 =? targetSampleRate)
     then PCMProcessor.ResampleTo a1 targetSampleRate = Ok a2 else a2 = a1) /\
    PCMProcessor.Normalize a2 = Ok y.
Proof.
  unfold AudioUtils.preprocessLoaded. intros H.
  apply bind_Ok in H as (a1 & H1 & H). apply bind_Ok in H as (a2 & H2 & H).
  apply wrapError_Ok in H. exists a1, a2. repeat split; [| |exact H].
  - destruct (convertToMono && _); [now apply wrapError_Ok in H1 | congruence].
  - destruct (negb _); [now apply wrapError_Ok in H2 | congruence].
Qed.

(** X6: when the preprocessing steps of [LoadAndPreprocess] succeed,
    the buffer is at the target sample rate, its peak is negligible
    (below 0.001) or within 0.001 of 1, and it is mono if the mixdown
    was requested for a multi-channel buffer; otherwise the channel
    count is that of the decoded buffer. *)
Theorem preprocessLoaded_result (x y : AudioData.t) (targetSampleRate : Z)
    (convertToMono : bool) :
  AudioUtils.preprocessLoaded x targetSampleRate convertToMono = Ok y ->
  AudioData.SampleRate y = targetSampleRate /\
  (let M := maxAbsSpec (AudioData.Samples y) in
   (M < 0.001)%R \/ (Rabs (M - 1) < 0.001)%R) /\
  (convertToMono = true -> 1 < AudioData.Channels x -> AudioData.Channels y = 1) /\
  (convertToMono = false \/ AudioData.Channels x <= 1 ->
   AudioData.Channels y = AudioData.Channels x).
Proof.
  intros H. apply preprocessLoaded_steps in H as (a1 & a2 & H1 & H2 & H3).
  apply Normalize_result in H3 as (Hch3 & Hrate3 & Hpeak).
  assert (Hch2 : AudioData.Channels a2 = AudioData.Channels a1).
  { destruct (negb _); [now apply ResampleTo_channels in H2 | now subst]. }
  assert (Hrate2 : AudioData.SampleRate a2 = targetSampleRate).
  { destruct (Z.eqb_spec (AudioData.SampleRate a1) targetSampleRate); simpl in H2;
      [now subst | now apply ResampleTo_rate in H2]. }
  split; [congruence|]. split; [exact Hpeak|]. split.
  - intros -> Hmulti. destruct (Z.gtb_spec (AudioData.Channels x) 1); [|lia].
    simpl in H1. apply ConvertToMono_result_mono in H1. congruence.
  - intros Hno.
    assert (Hskip : convertToMono && (AudioData.Channels x >? 1) = false).
    { destruct Hno as [-> | Hno]; [reflexivity|].
      destruct (Z.gtb_spec (AudioData.Channels x) 1); [lia | apply andb_false_r]. }
    rewrite Hskip in H1. congruence.
Qed.

(** X6 on [quietClip], already mono and at the target rate. *)
Lemma preprocessLoaded_result_witness :
  exists y,
    AudioUtils.preprocessLoaded quietClip 44100 true = Ok y /\
    AudioData.SampleRate y = 44100.
Proof.
  destruct (Normalize_total quietClip) as (y & Hy & _).
  assert (Hrun : AudioUtils.preprocessLoaded quietClip 44100 true = Ok y).
  { unfold AudioUtils.preprocessLoaded. simpl. now rewrite Hy. }
  exists y. split; [exact Hrun|].
  exact (proj1 (preprocessLoaded_result _ _ _ _ Hrun)).
Defined.

(** X7: the preprocessing steps are idempotent: a buffer they have
    produced passes through them unchanged, for the same target rate
    and mixdown flag. *)
Theorem preprocessLoaded_idempotent (x y : AudioData.t) (targetSampleRate : Z)
    (convertToMono : bool) :
  AudioUtils.preprocessLoaded x targetSampleRate convertToMono = Ok y ->
  AudioUtils.preprocessLoaded y targetSampleRate convertToMono = Ok y.
Proof.
  intros H. pose proof (preprocessLoaded_steps _ _ _ _ H) as (a1 & a2 & H1 & H2 & H3).
  pose proof (Normalize_result _ _ H3) as (Hch3 & Hrate3 & _).
  assert (Hch2 : AudioData.Channels a2 = AudioData.Channels a1).
  { destruct (negb _); [now apply ResampleTo_channels in H2 | now subst]. }
  assert (Hrate : AudioData.SampleRate y = targetSampleRate).
  { destruct (Z.eqb_spec (AudioData.SampleRate a1) targetSampleRate); simpl in H2;
      [subst; congruence | apply ResampleTo_rate in H2; congruence]. }
  assert (Hskip : convertToMono && (AudioData.Channels y >? 1) = false).
  { destruct (convertToMono && (AudioData.Channels x >? 1)) eqn:Hconv.
    - apply ConvertToMono_result_mono in H1.
      replace (AudioData.Channels y) with 1 by congruence. apply andb_false_r.
    - subst a1. replace (AudioData.Channels y) with (AudioData.Channels x) by congruence.
      exact Hconv. }
  unfold AudioUtils.preprocessLoaded. rewrite Hskip. cbn [bind].
  rewrite Hrate, Z.eqb_refl. cbn [negb bind].
  rewrite (Normalize_fixed_point _ _ H3). reflexivity.
Qed.

(** X7 on [quietClip]. *)
Lemma preprocessLoaded_idempotent_witness :
  exists y,
    AudioUtils.preprocessLoaded quietClip 44100 true = Ok y /\
    AudioUtils.preprocessLoaded y 44100 true = Ok y.
Proof.
  destruct (Normalize_total quietClip) as (y & Hy & _).
  assert (Hrun : AudioUtils.preprocessLoaded quietClip 44100 true = Ok y).
  { unfold AudioUtils.preprocessLoaded. simpl. now rewrite Hy. }
  exists y. split; [exact Hrun|].
  exact (preprocessLoaded_idempotent _ _ _ _ Hrun).
Defined.

(** ** Framing never pads *)

(** X8: for a frame size [W >= 0] and a hop [H > 0], the frames that
    [SegmentIntoFrames] returns are exact slices of the buffer: sample
    [j] of frame [i] is sample [i * H + j], and the last frame ends
    within the buffer, so the zero-padding branch is never taken and
    fewer than [H] trailing samples are left out. *)
Theorem SegmentIntoFrames_exact_slices (p : PCMProcessor.t) (data : AudioData.t)
    (frames : list (list R)) :
  let N := len (AudioData.Samples data) in
  let W := PCMProcessor.FrameSize p in
  let H := PCMProcessor.HopSize p in
  0 <= W -> 0 < H ->
  PCMProcessor.SegmentIntoFrames p data = Ok frames ->
  (len frames - 1) * H + W <= N < len frames * H + W /\
  forall i frame j, index frames i = Some frame -> 0 <= j < W ->
    exists v, index frame j = Some v /\
              index (AudioData.Samples data) (i * H + j) = Some v.
Proof.
  intros N W H HW HH Hcall.
  assert (Hlong : W <= N).
  { destruct (Z_lt_ge_dec N W) as [Hlt|]; [|lia].
    unfold PCMProcessor.SegmentIntoFrames in Hcall. fold N W in Hcall.
    destruct (Z.ltb_spec N W); [discriminate | lia]. }
  destruct (SegmentIntoFrames_long p data HW HH Hlong) as (frames' & Hok & Hlen & Hfr).
  fold N W H in Hlen, Hfr.
  assert (frames' = frames) by congruence. subst frames'.
  pose proof (Z.mul_div_le (N - W) H HH) as Hlo.
  pose proof (Z.mul_succ_div_gt (N - W) H HH) as Hhi.
  split; [rewrite Hlen; nia|].
  intros i frame j Hi Hj. pose proof (index_Some_range _ _ _ Hi) as Hr.
  destruct (Hfr i Hr) as (frame' & Hi' & _ & Hsamples).
  assert (frame' = frame) by congruence. subst frame'.
  rewrite Hlen in Hr. destruct (frame_index_bound N W H i HH Hlong Hr) as [Hs He].
  destruct (index_in_range (AudioData.Samples data) (i * H + j)) as (v & Hv);
    [fold N; lia|].
  exists v. split; [|exact Hv]. rewrite (Hsamples j Hj), Hv. reflexivity.
Qed.

(** X8 on [quietClip], cut into frames of one sample. *)
Lemma SegmentIntoFrames_exact_slices_witness :
  exists frames,
    PCMProcessor.SegmentIntoFrames (PCMProcessor.mk 44100 1 1) quietClip = Ok frames /\
    (len frames - 1) * 1 + 1 <= 2 < len frames * 1 + 1.
Proof.
  destruct (SegmentIntoFrames_long (PCMProcessor.mk 44100 1 1) quietClip)
    as (frames & Hok & _); [simpl; lia | simpl; lia | unfold len; simpl; lia |].
  exists frames. split; [exact Hok|].
  exact (proj1 (SegmentIntoFrames_exact_slices (PCMProcessor.mk 44100 1 1) quietClip
                  frames ltac:(simpl; lia) ltac:(simpl; lia) Hok)).
Defined.

(** ** Window functions *)

Lemma cos_2PI_minus (x : R) : cos (2 * PI - x) = cos x.
Proof.
  replace (2 * PI - x)%R with (- x + 2 * INR 1 * PI)%R by (simpl; ring).
  now rewrite cos_period, cos_neg.
Qed.

Lemma cos_4PI_minus (x : R) : cos (4 * PI - x) = cos x.
Proof.
  replace (4 * PI - x)%R with (- x + 2 * INR 2 * PI)%R by (simpl; ring).
  now rewrite cos_period, cos_neg.
Qed.

(** Every window coefficient lies between 0 and 1. *)
Lemma windowCoeff_range (windowType : string) (n i : Z) :
  (0 <= SpectralAnalyzerImpl.windowCoeff windowType n i <= 1)%R.
Proof.
  assert (Hhamming : (0 <= SpectralAnalyzerImpl.hammingCoeff n i <= 1)%R).
  { unfold SpectralAnalyzerImpl.hammingCoeff.
    pose proof (COS_bound (2 * PI * IZR i / IZR (n - 1))). lra. }
  unfold SpectralAnalyzerImpl.windowCoeff.
  destruct (String.eqb _ _); [exact Hhamming|].
  destruct (String.eqb _ _).
  { unfold SpectralAnalyzerImpl.hannCoeff.
    pose proof (COS_bound (2 * PI * IZR i / IZR (n - 1))). lra. }
  destruct (String.eqb _ _).
  { unfold SpectralAnalyzerImpl.blackmanCoeff.
    replace (4 * PI * IZR i / IZR (n - 1))%R
      with (2 * (2 * PI * IZR i / IZR (n - 1)))%R by (unfold Rdiv; ring).
    rewrite cos_2a_cos.
    pose proof (COS_bound (2 * PI * IZR i / IZR (n - 1))) as Hc.
    set (c := cos (2 * PI * IZR i / IZR (n - 1))) in *. split; nra. }
  destruct (String.eqb _ _); [lra | exact Hhamming].
Qed.

(** Every window is symmetric about its middle. *)
Lemma windowCoeff_symmetric (windowType : string) (n i : Z) :
  1 < n ->
  SpectralAnalyzerImpl.windowCoeff windowType n (n - 1 - i)
  = SpectralAnalyzerImpl.windowCoeff windowType n i.
Proof.
  intros Hn.
  assert (Hden : IZR (n - 1) <> 0%R) by (apply not_0_IZR; lia).
  assert (H2 : cos (2 * PI * IZR (n - 1 - i) / IZR (n - 1))
               = cos (2 * PI * IZR i / IZR (n - 1))).
  { replace (2 * PI * IZR (n - 1 - i) / IZR (n - 1))%R
      with (2 * PI - 2 * PI * IZR i / IZR (n - 1))%R
      by (rewrite (minus_IZR (n - 1) i); field; exact Hden).
    apply cos_2PI_minus. }
  assert (H4 : cos (4 * PI * IZR (n - 1 - i) / IZR (n - 1))
               = cos (4 * PI * IZR i / IZR (n - 1))).
  { replace (4 * PI * IZR (n - 1 - i) / IZR (n - 1))%R
      with (4 * PI - 4 * PI * IZR i / IZR (n - 1))%R
      by (rewrite (minus_IZR (n - 1) i); field; exact Hden).
    apply cos_4PI_minus. }
  unfold SpectralAnalyzerImpl.windowCoeff, SpectralAnalyzerImpl.hammingCoeff,
    SpectralAnalyzerImpl.hannCoeff, SpectralAnalyzerImpl.blackmanCoeff.
  rewrite H2, H4. reflexivity.
Qed.

Lemma applyCoeffs_index (windowType : string) (n : Z) (frame : list R) :
  forall i0 i, 0 <= i ->
  index (SpectralAnalyzerImpl.applyCoeffs windowType n i0 frame) i
  = option_map (fun x => (x * SpectralAnalyzerImpl.windowCoeff windowType n (i0 + i))%R)
               (index frame i).
Proof.
  induction frame as [|x frame IH]; intros i0 i Hi.
  - unfold index. simpl. destruct (i <? 0); [reflexivity|].
    now destruct (Z.to_nat i).
  - destruct (Z.eq_dec i 0) as [->|Hne].
    + unfold index. simpl. now rewrite Z.add_0_r.
    + specialize (IH (i0 + 1) (i - 1) ltac:(lia)).
      unfold index in *. simpl SpectralAnalyzerImpl.applyCoeffs.
      destruct (Z.ltb_spec i 0); [lia|]. destruct (Z.ltb_spec (i - 1) 0); [lia|].
      replace (Z.to_nat i) with (S (Z.to_nat (i - 1))) by lia. simpl.
      rewrite IH. now replace (i0 + 1 + (i - 1)) with (i0 + i) by lia.
Qed.

(** The frame that [ApplyWindow] works on: the argument, cut or padded
    with zeros to [n] samples. *)
Lemma resized_index (n : nat) (frame : list R) (i : nat) :
  (i < n)%nat ->
  nth_error (firstn n frame ++ skipn (length (firstn n frame)) (repeat 0%R n)) i
  = Some (match nth_error frame i with Some x => x | None => 0%R end).
Proof.
  intros Hi. destruct (Nat.lt_ge_cases i (length frame)) as [Hin|Hout].
  - rewrite nth_error_app1 by (rewrite length_firstn; lia).
    rewrite nth_error_firstn. destruct (Nat.ltb_spec i n); [|lia].
    destruct (nth_error frame i) eqn:E; [reflexivity|].
    apply nth_error_None in E. lia.
  - assert (Hnone : nth_error frame i = None) by now apply nth_error_None.
    rewrite Hnone, length_firstn.
    rewrite nth_error_app2 by (rewrite length_firstn; lia).
    rewrite length_firstn, nth_error_skipn, nth_error_repeat by lia.
    reflexivity.
Qed.

Lemma resized_length (n : nat) (frame : list R) :
  length (firstn n frame ++ skipn (length (firstn n frame)) (repeat 0%R n)) = n.
Proof. rewrite length_app, length_skipn, repeat_length, length_firstn. lia. Qed.

(** What [ApplyWindow] returns, for a window of at least 0 samples. *)
Lemma ApplyWindow_run (s : SpectralAnalyzerImpl.t) (frame : list R) :
  let W := SpectralAnalyzerImpl.WindowSize s in
  0 <= W ->
  exists out,
    SpectralAnalyzerImpl.ApplyWindow s frame = Ok out /\
    len out = W /\
    forall i, 0 <= i < W ->
      index out i
      = Some (match index frame i with Some x => x | None => 0%R end
              * SpectralAnalyzerImpl.windowCoeff (SpectralAnalyzerImpl.WindowType s) W i)%R.
Proof.
  intros W HW.
  assert (Hfinish : forall fr,
            len fr = W ->
            (forall i, 0 <= i < W ->
               index fr i = Some (match index frame i with Some x => x | None => 0%R end)) ->
            exists out,
              Ok (SpectralAnalyzerImpl.applyCoeffs (SpectralAnalyzerImpl.WindowType s)
                    (len fr) 0 fr) = Ok out /\
              len out = W /\
              forall i, 0 <= i < W ->
                index out i
                = Some (match index frame i with Some x => x | None => 0%R end
                        * SpectralAnalyzerImpl.windowCoeff
                            (SpectralAnalyzerImpl.WindowType s) W i)%R).
  { intros fr Hlen Hfr. eexists. split; [reflexivity|]. split.
    - unfold len. rewrite applyCoeffs_length. exact Hlen.
    - intros i Hi. rewrite applyCoeffs_index by lia.
      rewrite Hlen, Z.add_0_l, (Hfr i Hi). reflexivity. }
  unfold SpectralAnalyzerImpl.ApplyWindow. fold W.
  destruct (Z.eqb_spec (len frame) W) as [Heq|Hne]; cbn [negb bind].
  - apply Hfinish; [exact Heq|]. intros i Hi.
    destruct (index_in_range frame i) as (x & Hx); [lia|]. now rewrite Hx.
  - unfold make. destruct (Z.ltb_spec W 0); [lia|]. cbn [bind].
    rewrite repeat_length. apply Hfinish.
    + unfold len. rewrite resized_length. lia.
    + intros i Hi. unfold index. destruct (Z.ltb_spec i 0); [lia|].
      apply resized_index. lia.
Qed.

(** X9: for a window of more than one sample (the coefficients divide
    by [len - 1]), [ApplyWindow] returns exactly [WindowSize] samples
    whatever the length of its argument (a short frame is padded with
    zeros, a long one is cut), and no sample is amplified: the absolute
    value of output [i] is at most that of input [i], for every window
    type, known or not. *)
Theorem ApplyWindow_attenuates (s : SpectralAnalyzerImpl.t) (frame : list R) :
  let W := SpectralAnalyzerImpl.WindowSize s in
  1 < W ->
  exists out,
    SpectralAnalyzerImpl.ApplyWindow s frame = Ok out /\
    len out = W /\
    forall i, 0 <= i < W ->
      exists v, index out i = Some v /\
        (Rabs v <= Rabs (match index frame i with Some x => x | None => 0%R end))%R.
Proof.
  intros W HW. destruct (ApplyWindow_run s frame) as (out & Hok & Hlen & Hidx);
    [fold W; lia|].
  exists out. split; [exact Hok|]. split; [exact Hlen|].
  intros i Hi. eexists. split; [apply Hidx, Hi|].
  rewrite Rabs_mult.
  match goal with
  | |- context [Rabs (SpectralAnalyzerImpl.windowCoeff ?ty ?n ?k)] =>
      pose proof (windowCoeff_range ty n k) as Hc;
      rewrite (Rabs_pos_eq (SpectralAnalyzerImpl.windowCoeff ty n k)) by lra;
      set (c := SpectralAnalyzerImpl.windowCoeff ty n k) in *
  end.
  pose proof (Rabs_pos (match index frame i with Some x => x | None => 0%R end)). nra.
Qed.

(** X9 under the default analyzer, on a frame of two samples. *)
Lemma ApplyWindow_attenuates_witness :
  exists out,
    SpectralAnalyzerImpl.ApplyWindow SpectralAnalyzerImpl.NewSpectralAnalyzer
      [0.25%R; (-0.5)%R] = Ok out /\
    len out = 1024.
Proof.
  destruct (ApplyWindow_attenuates SpectralAnalyzerImpl.NewSpectralAnalyzer
              [0.25%R; (-0.5)%R]) as (out & Hok & Hlen & _); [reflexivity|].
  exists out. split; assumption.
Defined.

(** X10: every window is symmetric: on a frame of [WindowSize > 1]
    samples, [ApplyWindow] multiplies sample [i] and its mirror image
    [WindowSize - 1 - i] by the same factor, which lies between 0 and
    1. *)
Theorem ApplyWindow_symmetric (s : SpectralAnalyzerImpl.t) (frame out : list R) :
  let W := SpectralAnalyzerImpl.WindowSize s in
  1 < W -> len frame = W ->
  SpectralAnalyzerImpl.ApplyWindow s frame = Ok out ->
  forall i x y, 0 <= i < W ->
    index frame i = Some x -> index frame (W - 1 - i) = Some y ->
    exists c, (0 <= c <= 1)%R /\
              index out i = Some (x * c)%R /\
              index out (W - 1 - i) = Some (y * c)%R.
Proof.
  intros W HW Hlen Hcall i x y Hi Hx Hy.
  destruct (ApplyWindow_run s frame) as (out' & Hok & _ & Hidx); [fold W; lia|].
  fold W in Hidx. assert (out' = out) by congruence. subst out'.
  exists (SpectralAnalyzerImpl.windowCoeff (SpectralAnalyzerImpl.WindowType s) W i).
  split; [apply windowCoeff_range|]. split.
  - rewrite (Hidx i Hi), Hx. reflexivity.
  - rewrite (Hidx (W - 1 - i)) by lia. rewrite Hy.
    now rewrite windowCoeff_symmetric by exact HW.
Qed.

(** X10 on a frame of two samples under a two-sample Hamming window. *)
Lemma ApplyWindow_symmetric_witness :
  exists out c,
    SpectralAnalyzerImpl.ApplyWindow
      (SpectralAnalyzerImpl.setWindowSize SpectralAnalyzerImpl.NewSpectralAnalyzer 2)
      [0.25%R; (-0.5)%R] = Ok out /\
    index out 0 = Some (0.25 * c)%R /\ index out 1 = Some (-0.5 * c)%R.
Proof.
  set (s2 := SpectralAnalyzerImpl.setWindowSize SpectralAnalyzerImpl.NewSpectralAnalyzer 2).
  assert (HW : 1 < SpectralAnalyzerImpl.WindowSize s2) by (simpl; lia).
  assert (Hi : 0 <= 0 < SpectralAnalyzerImpl.WindowSize s2) by (simpl; lia).
  destruct (ApplyWindow_run s2 [0.25%R; (-0.5)%R]) as (out & Hok & _); [simpl; lia|].
  destruct (ApplyWindow_symmetric s2 [0.25%R; (-0.5)%R] out HW eq_refl Hok
              0 0.25%R (-0.5)%R Hi eq_refl eq_refl)
    as (c & _ & H0 & H1).
  exists out, c. repeat split; assumption.
Defined.

(** ** Magnitude and power spectra *)

Lemma mapM_then_map {A B C : Type} (f : A -> result B) (g : B -> C) (xs : list A)
    (ys : list B) :
  mapM f xs = Ok ys ->
  mapM (fun x => y <- f x ;; Ok (g y)) xs = Ok (map g ys).
Proof.
  revert ys. induction xs as [|x xs IH]; simpl; intros ys H.
  - now injection H as <-.
  - apply bind_Ok in H as (y & Hy & H). apply bind_Ok in H as (ys' & Hys & H).
    injection H as <-. rewrite Hy. simpl. rewrite (IH ys' Hys). reflexivity.
Qed.

(** X11: on a non-empty FFT result [ComputeMagnitudeSpectrum] and
    [ComputePowerSpectrum] both return [len/2 + 1] bins, the magnitudes
    are non-negative and each power is the square of the magnitude of
    its bin; on an empty FFT result both index bin 0 out of range and
    panic. *)
Theorem power_is_squared_magnitude :
  (forall c rest,
     let fftResult := c :: rest in
     exists magnitude,
       SpectralAnalyzerImpl.ComputeMagnitudeSpectrum fftResult = Ok magnitude /\
       SpectralAnalyzerImpl.ComputePowerSpectrum fftResult
       = Ok (map (fun m => (m ^ 2)%R) magnitude) /\
       len magnitude = len fftResult / 2 + 1 /\
       Forall (fun m => (0 <= m)%R) magnitude) /\
  SpectralAnalyzerImpl.ComputeMagnitudeSpectrum [] = Panic /\
  SpectralAnalyzerImpl.ComputePowerSpectrum [] = Panic.
Proof.
  split; [|split; reflexivity].
  intros c rest fftResult.
  assert (Hpos : 0 < len fftResult) by (unfold len, fftResult; simpl length; lia).
  assert (Hhalf : 0 <= len fftResult / 2 < len fftResult).
  { split; [apply Z.div_pos; lia | apply Z.div_lt; lia]. }
  unfold SpectralAnalyzerImpl.ComputeMagnitudeSpectrum,
    SpectralAnalyzerImpl.ComputePowerSpectrum.
  rewrite Z.quot_div_nonneg by lia.
  destruct (mapM_exists (at_ fftResult) (upto (len fftResult / 2 + 1))) as (cs & Hcs).
  { intros i Hi. apply upto_In in Hi.
    destruct (index_in_range fftResult i) as (x & Hx); [lia|].
    apply at_Ok in Hx. eauto. }
  exists (map Complex.Abs cs). split; [now apply mapM_then_map|]. split; [|split].
  - rewrite map_map. apply (mapM_then_map _ (fun x => (Complex.Abs x ^ 2)%R) _ _ Hcs).
  - rewrite len_map. apply mapM_Ok in Hcs.
    rewrite (Forall2_length_len _ _ _ Hcs). apply upto_len. lia.
  - apply Forall_forall. intros m Hm. apply in_map_iff in Hm as (x & <- & _).
    apply sqrt_pos.
Qed.

(** ** NormalizeSpectrum and ApplyLogScale *)

(** X12: on a spectrum without negative entries [NormalizeSpectrum]
    returns values between 0 and 1, and the value 1 is attained as soon
    as some entry reaches [1e-10]. *)
Theorem NormalizeSpectrum_unit_range (spectrum : list R) :
  Forall (fun v => (0 <= v)%R) spectrum ->
  Forall (fun v => (0 <= v <= 1)%R) (SpectralAnalyzerImpl.NormalizeSpectrum spectrum) /\
  ((exists v, In v spectrum /\ (1e-10 <= v)%R) ->
   In 1%R (SpectralAnalyzerImpl.NormalizeSpectrum spectrum)).
Proof.
  intros Hnn. unfold SpectralAnalyzerImpl.NormalizeSpectrum.
  destruct (row_max_fold spectrum 0) as (Hge & Hall & Hatt).
  set (maxVal := fold_left _ spectrum 0%R) in *.
  rewrite Forall_forall in Hnn.
  destruct (Rlt_dec maxVal 1e-10) as [Hsmall|Hbig].
  - rewrite (Rltb_true _ _ Hsmall). split.
    + apply Forall_forall. intros v Hv. specialize (Hnn v Hv). specialize (Hall v Hv). lra.
    + intros (v & Hv & Hbig). specialize (Hall v Hv). lra.
  - rewrite Rltb_false by lra.
    assert (Hinv : (0 < / maxVal)%R) by (apply Rinv_0_lt_compat; lra).
    split.
    + apply Forall_forall. intros v Hv. apply in_map_iff in Hv as (u & <- & Hu).
      specialize (Hnn u Hu). specialize (Hall u Hu). unfold Rdiv. split; [nra|].
      apply Rmult_le_reg_r with maxVal; [lra|].
      rewrite Rmult_assoc, Rinv_l by lra. lra.
    + intros _. destruct Hatt as [Hzero | Hin]; [lra|].
      apply in_map_iff. exists maxVal. split; [field; lra | exact Hin].
Qed.

(** X12 on the spectrum of the analyzer's own test. *)
Lemma NormalizeSpectrum_unit_range_witness :
  In 1%R (SpectralAnalyzerImpl.NormalizeSpectrum [1%R; 2%R; 4%R; 8%R]).
Proof.
  apply NormalizeSpectrum_unit_range.
  - repeat constructor; lra.
  - exists 8%R. split; [simpl; tauto | lra].
Defined.

(** X13: [NormalizeSpectrum] is idempotent. *)
Theorem NormalizeSpectrum_idempotent (spectrum : list R) :
  SpectralAnalyzerImpl.NormalizeSpectrum (SpectralAnalyzerImpl.NormalizeSpectrum spectrum)
  = SpectralAnalyzerImpl.NormalizeSpectrum spectrum.
Proof.
  destruct (row_max_fold spectrum 0) as (Hge & Hall & Hatt).
  set (maxVal := fold_left _ spectrum 0%R) in *.
  destruct (Rlt_dec maxVal 1e-10) as [Hsmall|Hbig].
  - assert (Hsame : SpectralAnalyzerImpl.NormalizeSpectrum spectrum = spectrum).
    { unfold SpectralAnalyzerImpl.NormalizeSpectrum. fold maxVal.
      now rewrite (Rltb_true _ _ Hsmall). }
    now rewrite !Hsame.
  - set (normalized := map (fun val => (val / maxVal)%R) spectrum).
    assert (Hnorm : SpectralAnalyzerImpl.NormalizeSpectrum spectrum = normalized).
    { unfold SpectralAnalyzerImpl.NormalizeSpectrum. fold maxVal.
      now rewrite Rltb_false by lra. }
    rewrite !Hnorm. unfold SpectralAnalyzerImpl.NormalizeSpectrum.
    destruct (row_max_fold normalized 0) as (Hge' & Hall' & Hatt').
    set (maxVal' := fold_left _ normalized 0%R) in *.
    assert (Hinv : (0 < / maxVal)%R) by (apply Rinv_0_lt_compat; lra).
    assert (Hone : maxVal' = 1%R).
    { destruct Hatt as [Hzero | Hin]; [lra|].
      assert (H1 : (1 <= maxVal')%R).
      { apply Hall'. apply in_map_iff. exists maxVal. split; [field; lra | exact Hin]. }
      destruct Hatt' as [Hzero' | Hin']; [lra|].
      apply in_map_iff in Hin' as (u & Hu & Huin). specialize (Hall u Huin).
      assert (Hle : (u / maxVal <= 1)%R).
      { unfold Rdiv. apply Rmult_le_reg_r with maxVal; [lra|].
        rewrite Rmult_assoc, Rinv_l by lra. lra. }
      lra. }
    rewrite Hone, Rltb_false by lra.
    transitivity (map (fun v : R => v) normalized); [|apply map_id].
    apply map_ext. intros v. field.
Qed.

(** X14: with a base above 1, [ApplyLogScale] keeps the length of the
    spectrum and the strict order of its non-negative entries: a bin
    with more power than another has the greater logarithm. *)
Theorem ApplyLogScale_monotone (s : SpectralAnalyzerImpl.t) (spectrum : list R) :
  (1 < SpectralAnalyzerImpl.LogScaleBase s)%R ->
  len (SpectralAnalyzerImpl.ApplyLogScale s spectrum) = len spectrum /\
  forall i j a b,
    index spectrum i = Some a -> index spectrum j = Some b ->
    (0 <= a < b)%R ->
    exists la lb,
      index (SpectralAnalyzerImpl.ApplyLogScale s spectrum) i = Some la /\
      index (SpectralAnalyzerImpl.ApplyLogScale s spectrum) j = Some lb /\
      (la < lb)%R.
Proof.
  intros Hbase. split; [apply ApplyLogScale_length|].
  intros i j a b Ha Hb Hab. unfold SpectralAnalyzerImpl.ApplyLogScale.
  rewrite Rleb_false by lra. rewrite !index_map, Ha, Hb. simpl.
  eexists. eexists. split; [reflexivity|]. split; [reflexivity|].
  assert (Hden : (ln 1 < ln (SpectralAnalyzerImpl.LogScaleBase s))%R)
    by (apply ln_increasing; lra).
  rewrite ln_1 in Hden.
  assert (Hnum : (ln (a + 1e-10) < ln (b + 1e-10))%R) by (apply ln_increasing; lra).
  unfold Rdiv. apply Rmult_lt_compat_r; [now apply Rinv_0_lt_compat | exact Hnum].
Qed.

(** X14 under the default analyzer, on the spectrum of its own test. *)
Lemma ApplyLogScale_monotone_witness :
  exists la lb,
    index (SpectralAnalyzerImpl.ApplyLogScale SpectralAnalyzerImpl.NewSpectralAnalyzer
             [1%R; 10%R]) 0 = Some la /\
    index (SpectralAnalyzerImpl.ApplyLogScale SpectralAnalyzerImpl.NewSpectralAnalyzer
             [1%R; 10%R]) 1 = Some lb /\
    (la < lb)%R.
Proof.
  assert (Hbase : (1 < SpectralAnalyzerImpl.LogScaleBase
                         SpectralAnalyzerImpl.NewSpectralAnalyzer)%R).
  { change (SpectralAnalyzerImpl.LogScaleBase SpectralAnalyzerImpl.NewSpectralAnalyzer)
      with 10.0%R. lra. }
  apply (proj2 (ApplyLogScale_monotone SpectralAnalyzerImpl.NewSpectralAnalyzer
                  [1%R; 10%R] Hbase) 0 1 1%R 10%R eq_refl eq_refl).
  lra.
Defined.

(** ** Zero-crossing rate, energy and RMS *)

Lemma crossings_fold_range (pairs : list (R * R)) : forall c,
  c <= fold_left (fun crossings pair =>
                    if AudioUtils.isCrossing (fst pair) (snd pair)
                    then crossings + 1 else crossings) pairs c
    <= c + len pairs.
Proof.
  induction pairs as [|pair pairs IH]; intros c; simpl.
  - unfold len. simpl. lia.
  - specialize (IH (if AudioUtils.isCrossing (fst pair) (snd pair) then c + 1 else c)).
    unfold len in *. simpl length.
    destruct (AudioUtils.isCrossing (fst pair) (snd pair)); lia.
Qed.

Lemma successor_pairs_len (samples : list R) :
  samples <> [] -> len (combine samples (tl samples)) = len samples - 1.
Proof.
  destruct samples as [|x rest]; [congruence|]. intros _.
  unfold len. rewrite length_combine. cbn [tl length]. lia.
Qed.

(** X15: the zero-crossing rate lies between 0 and 1, and it is 0 for
    a slice of at most one sample. *)
Theorem CalculateZeroCrossingRate_range (samples : list R) :
  (0 <= AudioUtils.CalculateZeroCrossingRate samples <= 1)%R /\
  (len samples <= 1 -> AudioUtils.CalculateZeroCrossingRate samples = 0%R).
Proof.
  unfold AudioUtils.CalculateZeroCrossingRate.
  destruct (Z.leb_spec (len samples) 1) as [Hshort|Hlong].
  - split; [lra | reflexivity].
  - split; [|lia].
    assert (Hne : samples <> []) by (intros ->; unfold len in Hlong; simpl in Hlong; lia).
    pose proof (crossings_fold_range (combine samples (tl samples)) 0) as Hc.
    rewrite (successor_pairs_len samples Hne) in Hc.
    fold (AudioUtils.countCrossings samples) in Hc.
    set (crossings := AudioUtils.countCrossings samples) in *.
    assert (Hden : (0 < IZR (len samples - 1))%R) by (apply IZR_lt; lia).
    assert (Hlo : (0 <= IZR crossings)%R) by (apply IZR_le; lia).
    assert (Hhi : (IZR crossings <= IZR (len samples - 1))%R) by (apply IZR_le; lia).
    assert (Hinv : (0 < / IZR (len samples - 1))%R) by now apply Rinv_0_lt_compat.
    unfold Rdiv. split; [nra|].
    apply Rmult_le_reg_r with (IZR (len samples - 1)); [exact Hden|].
    rewrite Rmult_assoc, Rinv_l by lra. lra.
Qed.

(** X15 on a slice of one sample. *)
Lemma CalculateZeroCrossingRate_range_witness :
  AudioUtils.CalculateZeroCrossingRate [0.25%R] = 0%R.
Proof.
  apply (proj2 (CalculateZeroCrossingRate_range [0.25%R])). unfold len. simpl. lia.
Defined.

Lemma no_crossings_fold (pairs : list (R * R)) : forall c,
  Forall (fun pair => AudioUtils.isCrossing (fst pair) (snd pair) = false) pairs ->
  fold_left (fun crossings pair =>
               if AudioUtils.isCrossing (fst pair) (snd pair)
               then crossings + 1 else crossings) pairs c = c.
Proof.
  induction pairs as [|pair pairs IH]; intros c H; simpl; [reflexivity|].
  rewrite (Forall_inv H). apply IH. exact (Forall_inv_tail H).
Qed.

(** X16: a signal that never changes sign has zero-crossing rate 0:
    this holds when every sample is non-negative and when every sample
    is negative. *)
Theorem CalculateZeroCrossingRate_constant_sign (samples : list R) :
  Forall (fun s => (0 <= s)%R) samples \/ Forall (fun s => (s < 0)%R) samples ->
  AudioUtils.CalculateZeroCrossingRate samples = 0%R.
Proof.
  intros Hsign. unfold AudioUtils.CalculateZeroCrossingRate.
  destruct (len samples <=? 1); [reflexivity|].
  unfold AudioUtils.countCrossings. rewrite no_crossings_fold.
  - unfold Rdiv. ring.
  - apply Forall_forall. intros [prev cur] Hin.
    pose proof (in_combine_l _ _ _ _ Hin) as Hp.
    pose proof (in_combine_r _ _ _ _ Hin) as Hc.
    assert (Hc' : In cur samples).
    { destruct samples; [contradiction | now right]. }
    unfold AudioUtils.isCrossing. simpl.
    destruct Hsign as [Hnn | Hneg]; rewrite Forall_forall in *.
    + pose proof (Hnn cur Hc') as Hcur. pose proof (Hnn prev Hp) as Hprev.
      rewrite (Rltb_false cur 0), (Rltb_false prev 0) by lra.
      now rewrite andb_false_r.
    + pose proof (Hneg cur Hc') as Hcur. pose proof (Hneg prev Hp) as Hprev.
      rewrite (Rgeb_false prev 0), (Rgeb_false cur 0) by lra.
      now rewrite andb_false_r.
Qed.

(** X16 on the two samples of a falling, negative signal. *)
Lemma CalculateZeroCrossingRate_constant_sign_witness :
  AudioUtils.CalculateZeroCrossingRate [(-0.25)%R; (-0.5)%R] = 0%R.
Proof.
  apply CalculateZeroCrossingRate_constant_sign. right. repeat constructor; lra.
Defined.

Lemma sumSquares_fold (samples : list R) (M : R) : forall a,
  (forall s, In s samples -> (Rabs s <= M)%R) ->
  (a <= fold_left (fun acc sample => acc + sample * sample) samples a
     <= a + IZR (len samples) * (M * M))%R.
Proof.
  induction samples as [|s samples IH]; intros a HM; simpl.
  - unfold len. simpl. lra.
  - specialize (IH (a + s * s)%R (fun x Hx => HM x (or_intror Hx))).
    pose proof (Rabs_bounds _ _ (HM s (or_introl eq_refl))) as Hs.
    replace (IZR (len (s :: samples))) with (IZR (len samples) + 1)%R
      by (unfold len; simpl length; rewrite Nat2Z.inj_succ, succ_IZR; reflexivity).
    assert (Hsq : (0 <= s * s <= M * M)%R) by (split; nra).
    lra.
Qed.

Lemma sumSquares_zero (samples : list R) : forall a,
  fold_left (fun acc sample => (acc + sample * sample)%R) samples a = a ->
  Forall isZero samples.
Proof.
  induction samples as [|s samples IH]; intros a H; simpl in H; [constructor|].
  pose proof (sumSquares_fold samples (maxAbsSpec samples) (a + s * s)%R
                (maxAbsSpec_upper samples)) as [Hlo _].
  assert (Hs : (s * s = 0)%R) by nra.
  constructor.
  - unfold isZero. nra.
  - apply (IH a). rewrite Hs, Rplus_0_r in H. exact H.
Qed.

(** X17: the energy of a slice is never negative, and it is 0 exactly
    when every sample is 0. *)
Theorem CalculateEnergy_silence (samples : list R) :
  (0 <= AudioUtils.CalculateEnergy samples)%R /\
  (AudioUtils.CalculateEnergy samples = 0%R <-> Forall isZero samples).
Proof.
  unfold AudioUtils.CalculateEnergy.
  destruct (len samples =? 0) eqn:Hlen.
  { apply len_zero_nil in Hlen. subst. split; [lra|]. split; [constructor | reflexivity]. }
  unfold AudioUtils.sumSquaresOf.
  pose proof (sumSquares_fold samples (maxAbsSpec samples) 0
                (maxAbsSpec_upper samples)) as [Hlo _].
  split; [exact Hlo|]. split.
  - apply sumSquares_zero.
  - intros Hz. clear Hlo Hlen. generalize 0%R.
    induction Hz as [|s samples Hs _ IH]; intros a; simpl; [reflexivity|].
    unfold isZero in Hs. subst s. rewrite Rmult_0_l, Rplus_0_r. apply IH.
Qed.

(** X17 on one window of silence. *)
Lemma CalculateEnergy_silence_witness :
  AudioUtils.CalculateEnergy (AudioData.Samples silence) = 0%R.
Proof.
  apply (proj2 (CalculateEnergy_silence (AudioData.Samples silence))).
  apply Forall_forall. intros v Hv. apply repeat_spec in Hv. exact Hv.
Defined.

(** X18: the RMS of a slice is never negative and never exceeds its
    peak, the largest absolute sample; samples within [[-1, 1]] have an
    RMS of at most 1. *)
Theorem CalculateRMS_at_most_peak (samples : list R) :
  (0 <= AudioUtils.CalculateRMS samples <= maxAbsSpec samples)%R.
Proof.
  unfold AudioUtils.CalculateRMS.
  pose proof (maxAbsSpec_nonneg samples) as HM.
  destruct (len samples =? 0) eqn:Hlen; [lra|].
  unfold AudioUtils.sumSquaresOf.
  pose proof (sumSquares_fold samples (maxAbsSpec samples) 0
                (maxAbsSpec_upper samples)) as [Hlo Hhi].
  set (sumSquares := fold_left _ samples 0%R) in *.
  set (M := maxAbsSpec samples) in *.
  assert (Hn : (0 < IZR (len samples))%R).
  { apply IZR_lt. apply Z.eqb_neq in Hlen. pose proof (len_nonneg samples). lia. }
  split; [apply sqrt_pos|].
  rewrite <- (sqrt_square M HM). apply sqrt_le_1_alt.
  unfold Rdiv. apply Rmult_le_reg_r with (IZR (len samples)); [exact Hn|].
  rewrite Rmult_assoc, Rinv_l by lra. lra.
Qed.

(** ** FilterPeaks *)

Lemma filterStep_keptBy (options : PeakExtractor.Options) (filtered : list Peak.t)
    (q : Peak.t) :
  PeakExtractor.filterStep
    (PeakExtractor.asFloat64 options "min_frequency")
    (PeakExtractor.asFloat64 options "max_frequency")
    (PeakExtractor.asFloat64 options "amplitude_threshold")
    (PeakExtractor.asFloat64 options "min_time")
    (PeakExtractor.asFloat64 options "max_time") filtered q
  = if keptBy options q then filtered ++ [q] else filtered.
Proof.
  unfold PeakExtractor.filterStep, keptBy.
  destruct (PeakExtractor.below _ (Peak.Frequency q)); [reflexivity|].
  destruct (PeakExtractor.above _ (Peak.Frequency q)); [reflexivity|].
  destruct (PeakExtractor.below _ (Peak.Amplitude q)); [reflexivity|].
  destruct (PeakExtractor.below _ (Peak.Time q)); [reflexivity|].
  destruct (PeakExtractor.above _ (Peak.Time q)); reflexivity.
Qed.

(** The loop of [FilterPeaks] appends, in order, the peaks that pass. *)
Lemma FilterPeaks_filter (peaks : list Peak.t) (options : PeakExtractor.Options) :
  PeakExtractor.FilterPeaks peaks options = filter (keptBy options) peaks.
Proof.
  unfold PeakExtractor.FilterPeaks.
  destruct (len peaks =? 0) eqn:Hlen.
  { apply len_zero_nil in Hlen. now subst. }
  clear Hlen.
  assert (Hgen : forall acc,
            fold_left (PeakExtractor.filterStep
                         (PeakExtractor.asFloat64 options "min_frequency")
                         (PeakExtractor.asFloat64 options "max_frequency")
                         (PeakExtractor.asFloat64 options "amplitude_threshold")
                         (PeakExtractor.asFloat64 options "min_time")
                         (PeakExtractor.asFloat64 options "max_time")) peaks acc
            = acc ++ filter (keptBy options) peaks).
  { induction peaks as [|q peaks IH]; intros acc; simpl; [now rewrite app_nil_r|].
    rewrite filterStep_keptBy, IH.
    destruct (keptBy options q); [now rewrite <- app_assoc | reflexivity]. }
  apply (Hgen []).
Qed.

Lemma below_false (bound : option R) (x : R) :
  PeakExtractor.below bound x = false <-> (forall v, bound = Some v -> (v <= x)%R).
Proof.
  destruct bound as [b|]; simpl.
  - unfold Rltb. destruct (Rlt_dec x b); split; intros H; try discriminate;
      try reflexivity.
    + specialize (H b eq_refl). lra.
    + intros v Hv. injection Hv as <-. lra.
  - split; [intros _ v Hv; discriminate | reflexivity].
Qed.

Lemma above_false (bound : option R) (x : R) :
  PeakExtractor.above bound x = false <-> (forall v, bound = Some v -> (x <= v)%R).
Proof.
  destruct bound as [b|]; simpl.
  - unfold Rgtb. destruct (Rgt_dec x b); split; intros H; try discriminate;
      try reflexivity.
    + specialize (H b eq_refl). lra.
    + intros v Hv. injection Hv as <-. lra.
  - split; [intros _ v Hv; discriminate | reflexivity].
Qed.

Lemma keptBy_spec (options : PeakExtractor.Options) (q : Peak.t) :
  keptBy options q = true <-> withinOptions options q.
Proof.
  unfold keptBy, withinOptions.
  rewrite !andb_true_iff, !negb_true_iff, !below_false, !above_false. tauto.
Qed.

(** X19: [FilterPeaks] returns, in their original order, exactly the
    peaks that meet every bound given as a [float64] option: minimum and
    maximum frequency, amplitude threshold, minimum and maximum time
    (all bounds inclusive). *)
Theorem FilterPeaks_spec (peaks : list Peak.t) (options : PeakExtractor.Options) :
  (exists keep : Peak.t -> bool,
     PeakExtractor.FilterPeaks peaks options = filter keep peaks /\
     forall q, keep q = true <-> withinOptions options q) /\
  (forall q, In q (PeakExtractor.FilterPeaks peaks options) <->
             In q peaks /\ withinOptions options q).
Proof.
  split.
  - exists (keptBy options). split; [apply FilterPeaks_filter | apply keptBy_spec].
  - intros q. rewrite FilterPeaks_filter, filter_In, keptBy_spec. reflexivity.
Qed.

(** X19 on a peak of amplitude 5 and an amplitude threshold of 4. *)
Lemma FilterPeaks_spec_witness :
  In (Peak.mk 0 1 0 100 5 true)
     (PeakExtractor.FilterPeaks [Peak.mk 0 1 0 100 5 true] mixedOptions).
Proof.
  apply (proj2 (FilterPeaks_spec [Peak.mk 0 1 0 100 5 true] mixedOptions)).
  split; [now left|].
  unfold withinOptions, PeakExtractor.asFloat64, mixedOptions. simpl.
  repeat split; intros v Hv; try discriminate. injection Hv as <-. lra.
Defined.

(** X20: an option that is missing or whose value is not a [float64]
    (an [int] 100 for "min_frequency", say) is ignored without an error:
    when no option is a [float64], [FilterPeaks] returns all the
    peaks. *)
Theorem FilterPeaks_ignores_other_types (peaks : list Peak.t)
    (options : PeakExtractor.Options) :
  (forall key v, options key <> Some (PeakExtractor.VFloat64 v)) ->
  PeakExtractor.FilterPeaks peaks options = peaks.
Proof.
  intros Hnone.
  assert (Has : forall key, PeakExtractor.asFloat64 options key = None).
  { intros key. unfold PeakExtractor.asFloat64.
    destruct (options key) as [[v| | |]|] eqn:E; try reflexivity.
    exfalso. exact (Hnone key v E). }
  rewrite FilterPeaks_filter.
  assert (Hall : forall q, keptBy options q = true).
  { intros q. unfold keptBy. rewrite !Has. reflexivity. }
  induction peaks as [|q peaks IH]; simpl; [reflexivity|].
  now rewrite Hall, IH.
Qed.

(** X20 on an options map whose one entry is an [int]. *)
Lemma FilterPeaks_ignores_other_types_witness :
  PeakExtractor.FilterPeaks [Peak.mk 0 1 0 50 5 true]
    (fun key => if String.eqb key "min_frequency"
                then Some (PeakExtractor.VInt 100) else None)
  = [Peak.mk 0 1 0 50 5 true].
Proof.
  apply FilterPeaks_ignores_other_types.
  intros key v. destruct (String.eqb key "min_frequency"); discriminate.
Defined.

Lemma filter_filter_comm {A : Type} (f g : A -> bool) (xs : list A) :
  filter f (filter g xs) = filter g (filter f xs).
Proof.
  induction xs as [|x xs IH]; simpl; [reflexivity|].
  destruct (f x) eqn:Hf, (g x) eqn:Hg; simpl; rewrite ?Hf, ?Hg, IH; reflexivity.
Qed.

(** X21: filtering is idempotent, and two filters commute: applying
    the options [a] and then [b] gives the same peaks as [b] and then
    [a]. *)
Theorem FilterPeaks_compose (peaks : list Peak.t) (a b : PeakExtractor.Options) :
  PeakExtractor.FilterPeaks (PeakExtractor.FilterPeaks peaks a) a
  = PeakExtractor.FilterPeaks peaks a /\
  PeakExtractor.FilterPeaks (PeakExtractor.FilterPeaks peaks a) b
  = PeakExtractor.FilterPeaks (PeakExtractor.FilterPeaks peaks b) a.
Proof.
  rewrite !FilterPeaks_filter. split; [|apply filter_filter_comm].
  induction peaks as [|q peaks IH]; simpl; [reflexivity|].
  destruct (keptBy a q) eqn:Hq; simpl; [rewrite Hq, IH; reflexivity | exact IH].
Qed.

(** ** ExtractPeaks: coordinates, band and panics *)

(** The band that the loop over [FreqPoints] computes starts at a
    non-negative bin and ends inside the axis. *)
Lemma freqIndexLoop_bounds (p : PeakExtractor.t) (freqPoints : list R) :
  forall i minFreqIndex maxFreqIndex,
  0 <= i -> 0 <= minFreqIndex ->
  let band := PeakExtractor.freqIndexLoop p freqPoints i minFreqIndex maxFreqIndex in
  0 <= fst band /\ snd band <= Z.max maxFreqIndex (i + len freqPoints - 2).
Proof.
  induction freqPoints as [|freq rest IH]; intros i lo hi Hi Hlo; simpl.
  - unfold len. simpl. lia.
  - assert (Hlen : len (freq :: rest) = len rest + 1) by (unfold len; simpl length; lia).
    set (lo' := if Rgeb freq (PeakExtractor.MinFrequency p) && (lo =? 0) then i else lo).
    assert (Hlo' : 0 <= lo') by (unfold lo'; destruct (_ && _); lia).
    destruct (Rgtb freq (PeakExtractor.MaxFrequency p)).
    + simpl. pose proof (len_nonneg rest). lia.
    + specialize (IH (i + 1) lo' hi ltac:(lia) Hlo'). simpl in IH. lia.
Qed.

(** No bin of the band lies above [MaxFrequency]. *)
Lemma freqIndexLoop_upper (p : PeakExtractor.t) (freqPoints : list R) :
  forall i minFreqIndex maxFreqIndex f v,
  i <= f <= snd (PeakExtractor.freqIndexLoop p freqPoints i minFreqIndex maxFreqIndex) ->
  index freqPoints (f - i) = Some v ->
  (v <= PeakExtractor.MaxFrequency p)%R.
Proof.
  induction freqPoints as [|freq rest IH]; intros i lo hi f v Hf Hv.
  - unfold index in Hv. destruct (_ <? 0); [discriminate|].
    destruct (Z.to_nat (f - i)); discriminate.
  - simpl in Hf.
    destruct (Rgt_dec freq (PeakExtractor.MaxFrequency p)) as [Hgt|Hle].
    { rewrite (Rgtb_true _ _ Hgt) in Hf. simpl in Hf. lia. }
    rewrite Rgtb_false in Hf by lra.
    destruct (Z.eq_dec f i) as [->|Hne].
    + rewrite Z.sub_diag in Hv. unfold index in Hv. simpl in Hv.
      injection Hv as <-. lra.
    + eapply (IH (i + 1) _ hi f v); [split; [lia | apply Hf]|].
      unfold index in *. destruct (Z.ltb_spec (f - i) 0); [discriminate|].
      destruct (Z.ltb_spec (f - (i + 1)) 0); [lia|].
      replace (Z.to_nat (f - i)) with (S (Z.to_nat (f - (i + 1)))) in Hv by lia.
      exact Hv.
Qed.

Lemma scanBins_flag (p : PeakExtractor.t) (sg : Spectrogram.t) (thr : R) (t : Z)
    (fs : list Z) : forall peaks,
  PeakExtractor.scanBins p sg thr t fs = Ok peaks ->
  Forall (fun q => Peak.IsLocalMaxima q = true) peaks.
Proof.
  induction fs as [|f fs IH]; simpl; intros peaks H.
  - injection H as <-. constructor.
  - apply bind_Ok in H as (amplitude & _ & H).
    destruct (Rltb amplitude thr); [now apply IH|].
    apply bind_Ok in H as (isMax & _ & H). destruct isMax; [|now apply IH].
    apply bind_Ok in H as (time & _ & H). apply bind_Ok in H as (frequency & _ & H).
    apply bind_Ok in H as (more & Hmore & H). injection H as <-.
    constructor; [reflexivity | now apply IH].
Qed.

(** X22: every peak that [ExtractPeaks] returns carries consistent
    coordinates: its indices lie inside the spectrogram, [Time] and
    [Frequency] are the axis entries at these indices, the local-maximum
    flag is set, and its frequency does not exceed [MaxFrequency]. *)
Theorem ExtractPeaks_coordinates
    (sortSlice : (Peak.t -> Peak.t -> bool) -> list Peak.t -> list Peak.t)
    (p : PeakExtractor.t) (sg : Spectrogram.t) (peaks : list Peak.t) (q : Peak.t) :
  sortSliceContract sortSlice ->
  PeakExtractor.ExtractPeaks sortSlice p (Some sg) = Ok peaks ->
  In q peaks ->
  0 <= Peak.TimeIndex q < Spectrogram.TimeBins sg /\
  0 <= Peak.FreqIndex q < len (Spectrogram.FreqPoints sg) /\
  index (Spectrogram.TimePoints sg) (Peak.TimeIndex q) = Some (Peak.Time q) /\
  index (Spectrogram.FreqPoints sg) (Peak.FreqIndex q) = Some (Peak.Frequency q) /\
  (Peak.Frequency q <= PeakExtractor.MaxFrequency p)%R /\
  Peak.IsLocalMaxima q = true.
Proof.
  intros Hsort Hcall Hq.
  destruct (ExtractPeaks_candidates sortSlice Hsort p sg peaks q Hcall Hq)
    as (Ht & _ & Hband & _ & _ & _ & Htime & Hfreq).
  apply range_incl_In in Hband.
  split; [exact Ht|]. split; [exact (index_Some_range _ _ _ Hfreq)|].
  split; [exact Htime|]. split; [exact Hfreq|]. split.
  - apply (freqIndexLoop_upper p (Spectrogram.FreqPoints sg) 0 0
             (len (Spectrogram.FreqPoints sg) - 1) (Peak.FreqIndex q)).
    + pose proof (index_Some_range _ _ _ Hfreq).
      unfold PeakExtractor.freqIndices in Hband. lia.
    + now rewrite Z.sub_0_r.
  - apply (ExtractPeaks_frameLoop sortSlice), (frameLoop_spec sortSlice)
      in Hcall as (kepts & -> & Hfa).
    apply in_concat in Hq as (kept & Hkept & Hq).
    destruct (Forall2_In_r _ _ _ _ Hfa Hkept) as (t & _ & cands & Hcands & Hcap).
    apply (capFrame_subset sortSlice Hsort _ _ _ _ Hcap) in Hq.
    unfold PeakExtractor.frameCandidates in Hcands.
    destruct (PeakExtractor.freqIndices p sg) as [lo hi].
    apply scanBins_flag in Hcands. rewrite Forall_forall in Hcands. now apply Hcands.
Qed.

(** X22 on [threeBins]: the peak sits at bin 1, 100 Hz. *)
Lemma ExtractPeaks_coordinates_witness :
  index (Spectrogram.FreqPoints threeBins) 1 = Some 100%R /\
  (100 <= PeakExtractor.MaxFrequency PeakExtractor.NewPeakExtractor)%R.
Proof.
  destruct (ExtractPeaks_coordinates PeakExtractor.insertionSort
              PeakExtractor.NewPeakExtractor threeBins
              [Peak.mk 0 1 0 100 5 true] (Peak.mk 0 1 0 100 5 true)
              insertionSort_contract threeBins_peaks (or_introl eq_refl))
    as (_ & _ & _ & Hfreq & Hmax & _).
  split; [exact Hfreq | exact Hmax].
Defined.

(** ** ExtractPeaks on a well-formed spectrogram *)

Lemma cell_total (sg : Spectrogram.t) (t f : Z) :
  wellFormed sg ->
  0 <= t < Spectrogram.TimeBins sg -> 0 <= f < Spectrogram.FreqBins sg ->
  exists v, PeakExtractor.cell sg t f = Ok v.
Proof.
  intros (_ & _ & Hrows & Hrow & _) Ht Hf. unfold PeakExtractor.cell.
  destruct (index_in_range (Spectrogram.Data sg) t) as (row & Hr); [lia|].
  rewrite Forall_forall in Hrow. pose proof (Hrow row (index_Some_In _ _ _ Hr)) as Hl.
  destruct (index_in_range row f) as (v & Hv); [lia|].
  exists v. apply at_Ok in Hr, Hv. rewrite Hr. exact Hv.
Qed.

Lemma inBounds_spec (sg : Spectrogram.t) (nt nf : Z) :
  PeakExtractor.inBounds sg nt nf = true <->
  0 <= nt < Spectrogram.TimeBins sg /\ 0 <= nf < Spectrogram.FreqBins sg.
Proof. unfold PeakExtractor.inBounds. lia. Qed.

Lemma scanNeighbors_total (sg : Spectrogram.t) (t f : Z) (amplitude : R)
    (offsets : list (Z * Z)) :
  wellFormed sg ->
  exists b, PeakExtractor.scanNeighbors sg t f amplitude offsets = Ok b.
Proof.
  intros Hwf. induction offsets as [|[dt df] offsets IH]; simpl; [eauto|].
  destruct ((dt =? 0) && (df =? 0)); [exact IH|].
  destruct (PeakExtractor.inBounds sg (t + dt) (f + df)) eqn:Hb; [|exact IH].
  apply inBounds_spec in Hb as [Hnt Hnf].
  destruct (cell_total sg (t + dt) (f + df) Hwf Hnt Hnf) as (v & ->). simpl.
  destruct (Rgtb v amplitude); eauto.
Qed.

Lemma scanBins_total (p : PeakExtractor.t) (sg : Spectrogram.t) (thr : R) (t : Z)
    (fs : list Z) :
  wellFormed sg ->
  0 <= t < Spectrogram.TimeBins sg ->
  (forall f, In f fs -> 0 <= f < Spectrogram.FreqBins sg) ->
  exists peaks, PeakExtractor.scanBins p sg thr t fs = Ok peaks.
Proof.
  intros Hwf Ht. induction fs as [|f fs IH]; intros Hfs; simpl; [eauto|].
  destruct IH as (more & Hmore); [intros g Hg; apply Hfs; now right|].
  assert (Hf : 0 <= f < Spectrogram.FreqBins sg) by (apply Hfs; now left).
  destruct (cell_total sg t f Hwf Ht Hf) as (amplitude & ->). simpl.
  destruct (Rltb amplitude thr); [eauto|].
  unfold PeakExtractor.isLocalMax.
  destruct (scanNeighbors_total sg t f amplitude (PeakExtractor.neighborhood p) Hwf)
    as (isMax & ->). simpl.
  destruct isMax; [|eauto].
  destruct Hwf as (_ & _ & _ & _ & Htp & Hfp).
  destruct (index_in_range (Spectrogram.TimePoints sg) t) as (time & Htime); [lia|].
  destruct (index_in_range (Spectrogram.FreqPoints sg) f) as (freq & Hfreq); [lia|].
  apply at_Ok in Htime, Hfreq. rewrite Htime, Hfreq, Hmore. simpl. eauto.
Qed.

Lemma freqIndices_in_range (p : PeakExtractor.t) (sg : Spectrogram.t) :
  0 <= fst (PeakExtractor.freqIndices p sg) /\
  snd (PeakExtractor.freqIndices p sg) <= len (Spectrogram.FreqPoints sg) - 1.
Proof.
  unfold PeakExtractor.freqIndices.
  pose proof (freqIndexLoop_bounds p (Spectrogram.FreqPoints sg) 0 0
                (len (Spectrogram.FreqPoints sg) - 1)) as Hb.
  simpl in Hb. specialize (Hb ltac:(lia) ltac:(lia)). lia.
Qed.

Lemma frameCandidates_total (p : PeakExtractor.t) (sg : Spectrogram.t) (t : Z) :
  wellFormed sg -> 0 <= t < Spectrogram.TimeBins sg ->
  exists cands, PeakExtractor.frameCandidates p sg t = Ok cands.
Proof.
  intros Hwf Ht. unfold PeakExtractor.frameCandidates.
  pose proof (freqIndices_in_range p sg) as [Hlo Hhi].
  destruct (PeakExtractor.freqIndices p sg) as [lo hi]. simpl in Hlo, Hhi.
  apply scanBins_total; [exact Hwf | exact Ht |].
  intros f Hf. apply range_incl_In in Hf.
  destruct Hwf as (_ & _ & _ & _ & _ & Hfp). lia.
Qed.

(** Capping panics only on a negative [MaxPeaksPerFrame]. *)
Lemma capFrame_total
    (sortSlice : (Peak.t -> Peak.t -> bool) -> list Peak.t -> list Peak.t)
    (p : PeakExtractor.t) (cands : list Peak.t) :
  0 <= PeakExtractor.MaxPeaksPerFrame p ->
  exists kept, PeakExtractor.capFrame sortSlice p cands = Ok kept.
Proof.
  intros HK. unfold PeakExtractor.capFrame.
  destruct (len cands >? 0); [|eauto].
  destruct (Z.gtb_spec (len (sortSlice PeakExtractor.byAmplitudeDesc cands))
                       (PeakExtractor.MaxPeaksPerFrame p)) as [Hmore|Hfew]; [|eauto].
  unfold slice.
  destruct (Z.ltb_spec 0 0); [lia|].
  destruct (Z.ltb_spec (PeakExtractor.MaxPeaksPerFrame p) 0); [lia|].
  destruct (Z.ltb_spec (len (sortSlice PeakExtractor.byAmplitudeDesc cands))
                       (PeakExtractor.MaxPeaksPerFrame p)); [lia|].
  simpl. eauto.
Qed.

Lemma frameLoop_total
    (sortSlice : (Peak.t -> Peak.t -> bool) -> list Peak.t -> list Peak.t)
    (p : PeakExtractor.t) (sg : Spectrogram.t) (ts : list Z) :
  wellFormed sg -> 0 <= PeakExtractor.MaxPeaksPerFrame p ->
  (forall t, In t ts -> 0 <= t < Spectrogram.TimeBins sg) ->
  exists peaks, PeakExtractor.frameLoop sortSlice p sg ts = Ok peaks.
Proof.
  intros Hwf HK. induction ts as [|t ts IH]; intros Hts; simpl; [eauto|].
  destruct IH as (more & ->); [intros u Hu; apply Hts; now right|].
  destruct (frameCandidates_total p sg t Hwf) as (cands & ->); [apply Hts; now left|].
  cbn [bind].
  destruct (capFrame_total sortSlice p cands HK) as (kept & ->). cbn [bind]. eauto.
Qed.

Lemma ExtractPeaks_total
    (sortSlice : (Peak.t -> Peak.t -> bool) -> list Peak.t -> list Peak.t)
    (p : PeakExtractor.t) (sg : Spectrogram.t) :
  wellFormed sg -> 0 <= PeakExtractor.MaxPeaksPerFrame p ->
  exists peaks, PeakExtractor.ExtractPeaks sortSlice p (Some sg) = Ok peaks.
Proof.
  intros Hwf HK.
  destruct (frameLoop_total sortSlice p sg (upto (Spectrogram.TimeBins sg)) Hwf HK)
    as (peaks & Hpeaks); [intros t Ht; now apply upto_In in Ht|].
  exists peaks. unfold PeakExtractor.ExtractPeaks.
  destruct Hwf as (HT & HF & Hrows & Hrow & _).
  destruct (Spectrogram.Data sg) as [|[|v row] rows] eqn:Hdata.
  - unfold len in Hrows. simpl in Hrows. lia.
  - apply Forall_inv in Hrow. unfold len in Hrow. simpl in Hrow. lia.
  - exact Hpeaks.
Qed.


Lemma threeBins_wellFormed : wellFormed threeBins.
Proof.
  unfold wellFormed, threeBins, len. simpl.
  repeat split; try lia. constructor; [reflexivity | constructor].
Qed.


(** ** From audio to peaks *)

(** What [ComputeSpectrogram] returns on a long enough mono buffer is
    well formed. *)
Lemma ComputeSpectrogram_wellFormed (s : SpectralAnalyzerImpl.t) (data : AudioData.t)
    (W H : Z) :
  AudioData.Channels data = 1 -> 0 < W -> 0 < H -> W <= len (AudioData.Samples data) ->
  exists sg frames,
    snd (SpectralAnalyzerImpl.ComputeSpectrogram s data W H) = Ok sg /\
    wellFormed sg /\
    PCMProcessor.SegmentIntoFrames (PCMProcessor.mk 44100 W H) data = Ok frames /\
    Forall2 (fun frame row =>
               SpectralAnalyzerImpl.processFrame (receiverAfter s data W H) frame = Ok row)
            frames (Spectrogram.Data sg).
Proof.
  intros Hmono HW HH HN.
  destruct (ComputeSpectrogram_mono_run s data W H Hmono HW HH HN)
    as (frames & rows & Hframes & Hlen & Hfa & Hcall).
  assert (Hbins : 0 <= W / 2) by (apply Z.div_pos; lia).
  assert (Hq0 : 0 <= (len (AudioData.Samples data) - W) / H) by (apply Z.div_pos; lia).
  eexists. exists frames. split; [exact Hcall|]. split; [|split; [exact Hframes|]].
  - unfold wellFormed. cbn [Spectrogram.TimeBins Spectrogram.FreqBins
      Spectrogram.Data Spectrogram.TimePoints Spectrogram.FreqPoints].
    split; [lia|]. split; [lia|]. split; [apply (Forall2_length_len _ _ _ Hfa)|].
    split; [|split; rewrite len_map; apply upto_len; lia].
    apply Forall_forall. intros row Hin.
    destruct (Forall2_In_r _ _ _ _ Hfa Hin) as (frame & _ & _ & _ & Hrl). exact Hrl.
  - cbn [Spectrogram.Data]. eapply Forall2_impl; [|exact Hfa]. simpl. tauto.
Qed.


Lemma silence_len : len (AudioData.Samples silence) = 1024.
Proof. unfold len, silence. cbn [AudioData.Samples]. now rewrite repeat_length. Qed.


(** ** Spectrograms below the absolute threshold *)

Lemma effectiveThreshold_at_least_absolute (p : PeakExtractor.t) (maxAmplitude : R) :
  (PeakExtractor.AbsoluteThreshold p
   <= PeakExtractor.effectiveThresholdOf p maxAmplitude)%R.
Proof.
  unfold PeakExtractor.effectiveThresholdOf. rewrite running_max_step. apply Rmax_l.
Qed.

(** No value below [AbsoluteThreshold] becomes a peak. *)
Lemma quiet_spectrogram_no_peaks
    (sortSlice : (Peak.t -> Peak.t -> bool) -> list Peak.t -> list Peak.t)
    (p : PeakExtractor.t) (sg : Spectrogram.t) (peaks : list Peak.t) :
  sortSliceContract sortSlice ->
  (forall row v, In row (Spectrogram.Data sg) -> In v row ->
     (v < PeakExtractor.AbsoluteThreshold p)%R) ->
  PeakExtractor.ExtractPeaks sortSlice p (Some sg) = Ok peaks ->
  peaks = [].
Proof.
  intros Hsort Hquiet Hcall. destruct peaks as [|q peaks]; [reflexivity|]. exfalso.
  destruct (ExtractPeaks_candidates sortSlice Hsort p sg (q :: peaks) q Hcall
              (or_introl eq_refl)) as (_ & _ & _ & Hcell & Hthr & _).
  destruct (cell_In _ _ _ _ Hcell) as (row & Hrow & Hv).
  pose proof (Hquiet row _ Hrow Hv) as Hlt.
  pose proof (effectiveThreshold_at_least_absolute p
                (PeakExtractor.maxAmplitudeOf (Spectrogram.Data sg))) as Hge.
  rewrite Rltb_true in Hthr by lra. discriminate.
Qed.

(** X25: a well-formed spectrogram whose values all lie below
    [AbsoluteThreshold] yields the empty peak list: the relative
    threshold can raise the effective threshold above the absolute one
    but never lower it. *)
Theorem ExtractPeaks_below_absolute_threshold
    (sortSlice : (Peak.t -> Peak.t -> bool) -> list Peak.t -> list Peak.t)
    (p : PeakExtractor.t) (sg : Spectrogram.t) :
  sortSliceContract sortSlice ->
  wellFormed sg -> 0 <= PeakExtractor.MaxPeaksPerFrame p ->
  (forall row v, In row (Spectrogram.Data sg) -> In v row ->
     (v < PeakExtractor.AbsoluteThreshold p)%R) ->
  PeakExtractor.ExtractPeaks sortSlice p (Some sg) = Ok [].
Proof.
  intros Hsort Hwf HK Hquiet.
  destruct (ExtractPeaks_total sortSlice p sg Hwf HK) as (peaks & Hpeaks).
  rewrite Hpeaks. f_equal. exact (quiet_spectrogram_no_peaks _ p sg peaks Hsort Hquiet Hpeaks).
Qed.

(** X25 on [faintBins] with the default extractor, whose absolute
    threshold is 0.01. *)
Lemma ExtractPeaks_below_absolute_threshold_witness :
  PeakExtractor.ExtractPeaks PeakExtractor.insertionSort
    PeakExtractor.NewPeakExtractor (Some faintBins) = Ok [].
Proof.
  apply (ExtractPeaks_below_absolute_threshold PeakExtractor.insertionSort
           PeakExtractor.NewPeakExtractor faintBins insertionSort_contract).
  - unfold wellFormed, faintBins, len. simpl.
    repeat split; try lia. constructor; [reflexivity | constructor].
  - simpl. lia.
  - intros row v [<- | []] Hv. simpl in Hv |- *.
    destruct Hv as [<- | [<- | [<- | []]]]; lra.
Defined.

(** ** Silence *)

(** A frame of silence has no positive bin, under every configuration
    of the analyzer. *)
Lemma processFrame_silent_nonpositive (s : SpectralAnalyzerImpl.t) (frame row : list R) :
  Forall isZero frame ->
  SpectralAnalyzerImpl.processFrame s frame = Ok row ->
  Forall (fun v => (v <= 0)%R) row.
Proof.
  intros Hz H. unfold SpectralAnalyzerImpl.processFrame in H.
  apply bind_Ok in H as (windowed & Hw & H).
  apply bind_Ok in H as (spectrum & Hs & H).
  apply (ApplyWindow_silent _ _ _ Hz), ComputeFFT_silent in Hw.
  apply (ComputePowerSpectrum_silent _ _ Hw) in Hs.
  injection H as <-.
  set (scaled := if Rgtb _ _ then _ else _).
  assert (Hscaled : Forall (fun v => (v <= 0)%R) scaled).
  { unfold scaled.
    destruct (Rgt_dec (SpectralAnalyzerImpl.LogScaleBase s) 1.0) as [Hbase|Hbase].
    - rewrite Rgtb_true by lra. unfold SpectralAnalyzerImpl.ApplyLogScale.
      rewrite Rleb_false by lra. apply Forall_forall. intros v Hv.
      apply in_map_iff in Hv as (u & <- & Hu).
      rewrite Forall_forall in Hs. rewrite (Hs u Hu).
      pose proof (log_of_silence_negative (SpectralAnalyzerImpl.LogScaleBase s)).
      lra.
    - rewrite Rgtb_false by lra. eapply Forall_impl; [|exact Hs].
      unfold isZero. simpl. intros v ->. lra. }
  destruct (SpectralAnalyzerImpl.NormalizeSpec s); [|exact Hscaled].
  unfold SpectralAnalyzerImpl.NormalizeSpectrum.
  rewrite (spectrum_max_nonpositive scaled Hscaled).
  rewrite Rltb_true by lra. exact Hscaled.
Qed.

(** X26: digital silence has no peaks. For an all-zero mono buffer of
    at least [W] samples and a window of [W > 1] samples (a window of
    one sample has no defined coefficient), every analyzer configuration
    and every extractor with a positive [AbsoluteThreshold] and a
    non-negative [MaxPeaksPerFrame], [ComputeSpectrogram] followed by
    [ExtractPeaks] returns the empty list. *)
Theorem silence_has_no_peaks
    (sortSlice : (Peak.t -> Peak.t -> bool) -> list Peak.t -> list Peak.t)
    (s : SpectralAnalyzerImpl.t) (p : PeakExtractor.t) (data : AudioData.t) (W H : Z) :
  sortSliceContract sortSlice ->
  AudioData.Channels data = 1 -> 1 < W -> 0 < H -> W <= len (AudioData.Samples data) ->
  Forall isZero (AudioData.Samples data) ->
  (0 < PeakExtractor.AbsoluteThreshold p)%R ->
  0 <= PeakExtractor.MaxPeaksPerFrame p ->
  exists sg,
    snd (SpectralAnalyzerImpl.ComputeSpectrogram s data W H) = Ok sg /\
    PeakExtractor.ExtractPeaks sortSlice p (Some sg) = Ok [].
Proof.
  intros Hsort Hmono HW1 HH HN Hzero Hthr HK.
  assert (HW : 0 < W) by lia.
  destruct (ComputeSpectrogram_wellFormed s data W H Hmono HW HH HN)
    as (sg & frames & Hcall & Hwf & Hframes & Hrows).
  exists sg. split; [exact Hcall|].
  destruct (ExtractPeaks_total sortSlice p sg Hwf HK) as (peaks & Hpeaks).
  rewrite Hpeaks. f_equal.
  apply (quiet_spectrogram_no_peaks sortSlice p sg peaks Hsort); [|exact Hpeaks].
  intros row v Hrow Hv.
  destruct (Forall2_In_r _ _ _ _ Hrows Hrow) as (frame & Hframe & Hrun).
  pose proof (SegmentIntoFrames_silent _ _ _ Hzero Hframes) as Hsilent.
  rewrite Forall_forall in Hsilent.
  pose proof (processFrame_silent_nonpositive _ _ _ (Hsilent frame Hframe) Hrun) as Hle.
  rewrite Forall_forall in Hle. specialize (Hle v Hv). lra.
Qed.

(** X26 on one window of silence with the default analyzer and
    extractor. *)
Lemma silence_has_no_peaks_witness :
  exists sg,
    snd (SpectralAnalyzerImpl.ComputeSpectrogram
           SpectralAnalyzerImpl.NewSpectralAnalyzer silence 1024 512) = Ok sg /\
    PeakExtractor.ExtractPeaks PeakExtractor.insertionSort
      PeakExtractor.NewPeakExtractor (Some sg) = Ok [].
Proof.
  apply (silence_has_no_peaks PeakExtractor.insertionSort
           SpectralAnalyzerImpl.NewSpectralAnalyzer PeakExtractor.NewPeakExtractor
           silence 1024 512 insertionSort_contract).
  - reflexivity.
  - lia.
  - lia.
  - rewrite silence_len. lia.
  - apply Forall_forall. intros v Hv. apply repeat_spec in Hv. exact Hv.
  - simpl. lra.
  - simpl. lia.
Defined.

(** ** The colour palette of SaveSpectrogramImage *)

Lemma clampUnit_range (value : R) :
  (0 <= SpectralAnalyzerImpl.clampUnit value <= 1)%R.
Proof.
  unfold SpectralAnalyzerImpl.clampUnit.
  destruct (Rlt_dec value 0) as [Hneg|Hpos].
  - rewrite (Rltb_true _ _ Hneg), Rgtb_false by lra. lra.
  - rewrite Rltb_false by lra.
    destruct (Rgt_dec value 1) as [Hbig|Hsmall].
    + rewrite Rgtb_true by lra. lra.
    + rewrite Rgtb_false by lra. lra.
Qed.

Lemma float_to_int_range (x : R) :
  (0 <= x <= 255)%R -> 0 <= float_to_int x <= 255.
Proof.
  intros [Hlo Hhi]. unfold float_to_int.
  destruct (Rle_dec 0 x) as [_|Hneg]; [|lra].
  split; [now apply Int_part_nonneg|].
  destruct (base_Int_part x) as [Hle _].
  apply le_IZR. lra.
Qed.

Lemma float_to_int_exact (k : Z) : 0 <= k -> float_to_int (IZR k) = k.
Proof.
  intros Hk. unfold float_to_int.
  destruct (Rle_dec 0 (IZR k)) as [_|Hneg]; [|exfalso; apply Hneg; now apply IZR_le].
  symmetry. apply Int_part_spec. lra.
Qed.

Lemma uint8_small (x : Z) : 0 <= x <= 255 -> SpectralAnalyzerImpl.uint8 x = x.
Proof. intros Hx. unfold SpectralAnalyzerImpl.uint8. apply Z.mod_small. lia. Qed.

(** The [int] components that [getColor] computes on a value of the
    unit interval are bytes. *)
Lemma getColorInts_bytes (value : R) :
  (0 <= value <= 1)%R ->
  let c := SpectralAnalyzerImpl.getColorInts value in
  0 <= fst (fst c) <= 255 /\ 0 <= snd (fst c) <= 255 /\ 0 <= snd c <= 255.
Proof.
  intros Hv. unfold SpectralAnalyzerImpl.getColorInts.
  pose proof float_to_int_range as Hint.
  destruct (Rlt_dec value 0.25) as [H1|H1].
  { rewrite (Rltb_true _ _ H1). cbn [fst snd].
    pose proof (Hint (value * 4 * 255)%R ltac:(lra)). lia. }
  rewrite Rltb_false by lra.
  destruct (Rlt_dec value 0.5) as [H2|H2].
  { rewrite (Rltb_true _ _ H2). cbn [fst snd].
    pose proof (Hint ((value - 0.25) * 4 * 255)%R ltac:(lra)). lia. }
  rewrite Rltb_false by lra.
  destruct (Rlt_dec value 0.75) as [H3|H3].
  { rewrite (Rltb_true _ _ H3). cbn [fst snd].
    pose proof (Hint ((value - 0.5) * 4 * 255)%R ltac:(lra)). lia. }
  rewrite Rltb_false by lra. cbn [fst snd].
  pose proof (Hint ((value - 0.75) * 4 * 255)%R ltac:(lra)). lia.
Qed.

(** X27: after the clamp of the pixel loop, the three components that
    [getColor] computes lie in [0, 255], so their conversion to [uint8]
    does not wrap: the colour set is exactly the computed one, with full
    opacity. *)
Theorem getColor_never_wraps (value : R) :
  let c := SpectralAnalyzerImpl.getColorInts (SpectralAnalyzerImpl.clampUnit value) in
  0 <= fst (fst c) <= 255 /\ 0 <= snd (fst c) <= 255 /\ 0 <= snd c <= 255 /\
  SpectralAnalyzerImpl.getColor (SpectralAnalyzerImpl.clampUnit value)
  = SpectralAnalyzerImpl.mkRGBA (fst (fst c)) (snd (fst c)) (snd c) 255.
Proof.
  intros c.
  destruct (getColorInts_bytes _ (clampUnit_range value)) as (Hr & Hg & Hb).
  fold c in Hr, Hg, Hb. repeat split; try lia.
  unfold SpectralAnalyzerImpl.getColor. fold c.
  destruct c as [[r g] b]. cbn [fst snd] in *.
  now rewrite !uint8_small by lia.
Qed.

(** X28: the ends of the palette. Every value at or below 0 is drawn
    pure blue and every value at or above 1 pure red. *)
Theorem getColor_palette_ends (value : R) :
  ((value <= 0)%R ->
   SpectralAnalyzerImpl.getColor (SpectralAnalyzerImpl.clampUnit value)
   = SpectralAnalyzerImpl.mkRGBA 0 0 255 255) /\
  ((1 <= value)%R ->
   SpectralAnalyzerImpl.getColor (SpectralAnalyzerImpl.clampUnit value)
   = SpectralAnalyzerImpl.mkRGBA 255 0 0 255).
Proof.
  split; intros Hv.
  - assert (Hc : SpectralAnalyzerImpl.clampUnit value = 0%R).
    { unfold SpectralAnalyzerImpl.clampUnit.
      destruct (Rlt_dec value 0) as [Hneg|Hpos].
      - rewrite (Rltb_true _ _ Hneg), Rgtb_false by lra. reflexivity.
      - rewrite Rltb_false, Rgtb_false by lra. lra. }
    rewrite Hc. unfold SpectralAnalyzerImpl.getColor, SpectralAnalyzerImpl.getColorInts.
    rewrite Rltb_true by lra.
    replace (0 * 4 * 255)%R with (IZR 0) by (simpl; ring).
    rewrite float_to_int_exact by lia. reflexivity.
  - assert (Hc : SpectralAnalyzerImpl.clampUnit value = 1%R).
    { unfold SpectralAnalyzerImpl.clampUnit. rewrite Rltb_false by lra.
      destruct (Rgt_dec value 1) as [Hbig|Hsmall].
      - now rewrite Rgtb_true by lra.
      - rewrite Rgtb_false by lra. lra. }
    rewrite Hc. unfold SpectralAnalyzerImpl.getColor, SpectralAnalyzerImpl.getColorInts.
    rewrite !Rltb_false by lra.
    replace ((1 - 0.75) * 4 * 255)%R with (IZR 255) by lra.
    rewrite float_to_int_exact by lia. reflexivity.
Qed.

(** X28 at the values -1 and 2. *)
Lemma getColor_palette_ends_witness :
  SpectralAnalyzerImpl.getColor (SpectralAnalyzerImpl.clampUnit (-1))
  = SpectralAnalyzerImpl.mkRGBA 0 0 255 255 /\
  SpectralAnalyzerImpl.getColor (SpectralAnalyzerImpl.clampUnit 2)
  = SpectralAnalyzerImpl.mkRGBA 255 0 0 255.
Proof.
  split.
  - apply (getColor_palette_ends (-1)). lra.
  - apply (getColor_palette_ends 2). lra.
Defined.

(** X29: on a well-formed spectrogram the pixel loop of
    [SaveSpectrogramImage] finds a value for every pixel of the
    [TimeBins] by [FreqBins] image, and pixel [(t, f)] shows bin
    [FreqBins - 1 - f] of frame [t]: row 0 of the image is the highest
    frequency. *)
Theorem pixelColor_flips_frequency_axis (sg : Spectrogram.t) (t f : Z) :
  wellFormed sg ->
  0 <= t < Spectrogram.TimeBins sg -> 0 <= f < Spectrogram.FreqBins sg ->
  exists v,
    PeakExtractor.cell sg t (Spectrogram.FreqBins sg - 1 - f) = Ok v /\
    SpectralAnalyzerImpl.pixelColor sg t f
    = Ok (SpectralAnalyzerImpl.getColor (SpectralAnalyzerImpl.clampUnit v)).
Proof.
  intros Hwf Ht Hf.
  destruct (cell_total sg t (Spectrogram.FreqBins sg - 1 - f) Hwf Ht) as (v & Hv); [lia|].
  exists v. split; [exact Hv|].
  unfold SpectralAnalyzerImpl.pixelColor, PeakExtractor.cell in *.
  apply bind_Ok in Hv as (row & -> & Hv). cbn [bind].
  replace (Spectrogram.FreqBins sg - f - 1) with (Spectrogram.FreqBins sg - 1 - f) by lia.
  now rewrite Hv.
Qed.

(** X29 on [threeBins]: pixel (0, 0) shows bin 2, whose value 1 is
    drawn red. *)
Lemma pixelColor_flips_frequency_axis_witness :
  exists v,
    PeakExtractor.cell threeBins 0 (3 - 1 - 0) = Ok v /\
    SpectralAnalyzerImpl.pixelColor threeBins 0 0
    = Ok (SpectralAnalyzerImpl.getColor (SpectralAnalyzerImpl.clampUnit v)).
Proof.
  apply (pixelColor_flips_frequency_axis threeBins 0 0 threeBins_wellFormed).
  - simpl. lia.
  - simpl. lia.
Defined.

(** ** The linear scale *)

(** X30: with logarithmic scaling switched off ([LogScaleBase <= 1])
    and a window of more than one sample, every entry [S[t][f]] of a
    spectrogram returned by [ComputeSpectrogram] is non-negative, with
    and without normalization. *)
Theorem ComputeSpectrogram_linear_nonneg (s : SpectralAnalyzerImpl.t)
    (data : AudioData.t) (windowSize hopSize : Z) (sg : Spectrogram.t) :
  1 < windowSize ->
  (SpectralAnalyzerImpl.LogScaleBase s <= 1)%R ->
  snd (SpectralAnalyzerImpl.ComputeSpectrogram s data windowSize hopSize) = Ok sg ->
  forall (t f : Z) (row : list R) (v : R),
    index (Spectrogram.Data sg) t = Some row ->
    index row f = Some v ->
    (0 <= v)%R.
Proof.
  intros _ Hbase Hcall t f row v Hrow Hv.
  destruct (ComputeSpectrogram_Ok_shape _ _ _ _ _ Hcall) as (frames & _ & Hrows & _).
  apply mapM_Ok in Hrows.
  destruct (Forall2_In_r _ _ _ _ Hrows (index_Some_In _ _ _ Hrow)) as (frame & _ & Hframe).
  apply processFrame_linear_nonneg in Hframe.
  - rewrite Forall_forall in Hframe. apply Hframe. eapply index_Some_In, Hv.
  - now rewrite (proj1 (receiverAfter_scaling s data windowSize hopSize)).
Qed.

(** X30 on one window of silence, analysed on the linear scale. *)
Lemma ComputeSpectrogram_linear_nonneg_witness :
  exists sg,
    snd (SpectralAnalyzerImpl.ComputeSpectrogram linearAnalyzer silence 1024 512) = Ok sg /\
    forall (t f : Z) (row : list R) (v : R),
      index (Spectrogram.Data sg) t = Some row -> index row f = Some v -> (0 <= v)%R.
Proof.
  destruct (ComputeSpectrogram_mono_run linearAnalyzer silence 1024 512)
    as (frames & rows & _ & _ & _ & Hcall);
    [reflexivity | lia | lia | rewrite silence_len; lia |].
  eexists. split; [exact Hcall|].
  apply (ComputeSpectrogram_linear_nonneg linearAnalyzer silence 1024 512);
    [lia | simpl; lra | exact Hcall].
Defined.
